(** * tiny-face-detector-js: a shallow embedding of the detection core

    The development follows the layout of the repository:
    - [Image]    : js/image.js    (integral images and rectangle sums)
    - [Haar]     : js/haar.js     (feature, stage and cascade evaluation)
    - [Detector] : js/detector.js (multi-scale scan, non-maximum suppression)
    - [Main]     : js/main.js     (frame-to-frame face selection)

    Conventions of the model.
    - A JavaScript number is an exact rational ([Q]); IEEE rounding is not
      modelled.  Where the source can produce [NaN] (an [undefined] read
      from a typed array, a division by zero) the value has type [num],
      an optional rational whose [None] is [NaN]: arithmetic propagates it
      and every comparison with it is false.  Infinities are not
      represented; the source divides by a window area and by [stdDev]
      only, and with a zero area the JavaScript results are [NaN] too
      (0/0, then x/NaN).
    - Integer-valued quantities of the source (pixel coordinates, sizes
      obtained by [Math.round], array indices) are in [Z].
    - A typed array is a list; a read outside of it is [undefined].
    - A call can return, throw, or (for a [while] loop) run longer than
      the iteration budget given to the model: [Run]. *)

From Stdlib Require Import ZArith QArith Qround Qminmax Lia Lra Psatz.
From stdpp Require Import base list sorting gmap.

Local Open Scope Z_scope.

(** ** Outcomes of a call *)

Inductive Run (A : Type) : Type :=
| Ret (a : A)   (* normal completion with a value *)
| Throw         (* a JavaScript exception reaches the caller *)
| Fuel.         (* the iteration budget of the model is exhausted *)

Arguments Ret {A} a.
Arguments Throw {A}.
Arguments Fuel {A}.

#[global] Instance Run_ret : MRet Run := fun A a => Ret a.

#[global] Instance Run_bind : MBind Run := fun A B k r =>
  match r with
  | Ret a => k a
  | Throw => Throw
  | Fuel => Fuel
  end.

(** ** Numbers *)

Definition num : Type := option Q.
Definition NaN : num := None.
Definition fin (q : Q) : num := Some q.

Definition lift2 (f : Q -> Q -> Q) (a b : num) : num :=
  match a, b with
  | Some p, Some q => Some (f p q)
  | _, _ => NaN
  end.

Definition nadd : num -> num -> num := lift2 Qplus.
Definition nsub : num -> num -> num := lift2 Qminus.
Definition nmul : num -> num -> num := lift2 Qmult.

Definition ndiv (a b : num) : num :=
  match a, b with
  | Some p, Some q => if Qeq_bool q 0 then NaN else Some (p / q)%Q
  | _, _ => NaN
  end.

Definition Qlt_bool (p q : Q) : bool := negb (Qle_bool q p).

(** [a < b] of the source: false as soon as one side is [NaN]. *)
Definition nlt (a b : num) : bool :=
  match a, b with
  | Some p, Some q => Qlt_bool p q
  | _, _ => false
  end.

(** [Math.max]: [NaN] if one argument is. *)
Definition nmax (a b : num) : num := lift2 Qmax a b.

(** [Math.round]: to the nearest integer, halves upwards. *)
Definition Math_round (q : Q) : Z := Qfloor (q + (1 # 2))%Q.

(** [Math.floor]. *)
Definition Math_floor (q : Q) : Z := Qfloor q.

(** ** js/image.js *)

Module Image.

(** [a[i]] used as a number: [undefined] (any index outside of the
    array) becomes [NaN] in the arithmetic that follows. *)
Definition aget (a : list num) (i : Z) : num :=
  if 0 <=? i then default NaN (a !! Z.to_nat i) else NaN.

(** [a[i] = v] on a typed array: a write outside of it is dropped. *)
Definition aset (a : list num) (i : Z) (v : num) : list num :=
  if 0 <=? i then <[Z.to_nat i := v]> a else a.

(** [new Float32Array(n)]: zero-filled; a negative length is a
    RangeError. *)
Definition new_Float32Array (n : Z) : Run (list num) :=
  if n <? 0 then Throw else Ret (replicate (Z.to_nat n) (fin 0)).

(** State of the loops of [computeIntegralImage]. *)
Record IIState : Type := mkII {
  rowSum : num;
  rowSum2 : num;
  ii : list num;
  ii2 : list num
}.

(** Body of the inner loop, at column [x] of row [y]. *)
Definition column_step (gray : list num) (width y : Z) (st : IIState) (x : Z)
  : IIState :=
  let idx := y * width + x in
  let val := aget gray idx in
  let rs := nadd (rowSum st) val in
  let rs2 := nadd (rowSum2 st) (nmul val val) in
  let up := if 0 <? y then aget (ii st) ((y - 1) * width + x) else fin 0 in
  let up2 := if 0 <? y then aget (ii2 st) ((y - 1) * width + x) else fin 0 in
  mkII rs rs2 (aset (ii st) idx (nadd rs up)) (aset (ii2 st) idx (nadd rs2 up2)).

(** Body of the outer loop: [rowSum] and [rowSum2] restart at 0, then
    [for (let x = 0; x < width; x++)]. *)
Definition row_step (gray : list num) (width : Z) (st : IIState) (y : Z)
  : IIState :=
  foldl (column_step gray width y)
        (mkII (fin 0) (fin 0) (ii st) (ii2 st))
        (seqZ 0 width).

Definition computeIntegralImage (gray : list num) (width height : Z)
  : Run (list num * list num) :=
  a ← new_Float32Array (width * height);
  a2 ← new_Float32Array (width * height);
  let st := foldl (row_step gray width) (mkII (fin 0) (fin 0) a a2)
                  (seqZ 0 height) in
  Ret (ii st, ii2 st).

Definition rectSum (ii : list num) (width x y w h : Z) : num :=
  if (x <? 0) || (y <? 0) || (w <=? 0) || (h <=? 0) then fin 0 else
  let x2 := x + w - 1 in
  let y2 := y + h - 1 in
  if (x2 <? 0) || (y2 <? 0) then fin 0 else
  let D := aget ii (y2 * width + x2) in
  let C := if 0 <? x then aget ii (y2 * width + (x - 1)) else fin 0 in
  let B := if 0 <? y then aget ii ((y - 1) * width + x2) else fin 0 in
  let A := if (0 <? x) && (0 <? y)
           then aget ii ((y - 1) * width + (x - 1)) else fin 0 in
  nadd (nsub (nsub D B) C) A.

(** The indices at which [rectSum] reads [ii], in the order of the
    source (instrumentation of the four subscript expressions). *)
Definition rectSum_reads (width x y w h : Z) : list Z :=
  if (x <? 0) || (y <? 0) || (w <=? 0) || (h <=? 0) then [] else
  let x2 := x + w - 1 in
  let y2 := y + h - 1 in
  if (x2 <? 0) || (y2 <? 0) then [] else
  [y2 * width + x2]
  ++ (if 0 <? x then [y2 * width + (x - 1)] else [])
  ++ (if 0 <? y then [(y - 1) * width + x2] else [])
  ++ (if (0 <? x) && (0 <? y) then [(y - 1) * width + (x - 1)] else []).

(** An index lies in the buffer. *)
Definition in_buffer (a : list num) (i : Z) : Prop :=
  0 <= i < Z.of_nat (length a).

(** A canvas, as far as [getGrayscaleFromCanvas] looks at it: its size
    and the RGBA bytes that [getImageData(0, 0, width, height)] delivers.
    [getImageData] throws on an empty source rectangle. *)
Record Canvas : Type := mkCanvas {
  canvas_width : Z;
  canvas_height : Z;
  canvas_data : list Z
}.

(** [data[i]] of the byte array, as a number. *)
Definition byte_at (data : list Z) (i : Z) : num :=
  if 0 <=? i then inject_Z <$> (data !! Z.to_nat i) else NaN.

(** Body of the loop of [getGrayscaleFromCanvas], at pixel [i]. *)
Definition luma_step (data : list Z) (gray : list num) (i : Z) : list num :=
  let r := byte_at data (i * 4) in
  let g := byte_at data (i * 4 + 1) in
  let b := byte_at data (i * 4 + 2) in
  aset gray i (nadd (nadd (nmul (fin (299 # 1000)) r)
                          (nmul (fin (587 # 1000)) g))
                    (nmul (fin (114 # 1000)) b)).

(** The result [{ gray, width, height }] is the triple. *)
Definition getGrayscaleFromCanvas (canvas : Canvas)
  : Run (list num * Z * Z) :=
  let width := canvas_width canvas in
  let height := canvas_height canvas in
  if (width =? 0) || (height =? 0) then Throw else
  gray ← new_Float32Array (width * height);
  Ret (foldl (luma_step (canvas_data canvas)) gray (seqZ 0 (width * height)),
       width, height).

End Image.

(** ** js/haar.js *)

Module Haar.

Record Rect : Type := mkRect {
  rect_x : Q;
  rect_y : Q;
  rect_width : Q;
  rect_height : Q;
  rect_weight : Q
}.

Record HaarFeature : Type := mkFeature {
  tilted : Q;
  rects : list Rect
}.

Record WeakClassifier : Type := mkWC {
  featureIndex : nat;
  threshold : Q;
  alpha : Q;
  beta : Q
}.

Record Stage : Type := mkStage {
  stageThreshold : Q;
  weakClassifiers : list WeakClassifier
}.

Record Cascade : Type := mkCascade {
  baseWindowWidth : Q;
  baseWindowHeight : Q;
  stages : list Stage
}.

Section Evaluators.

(** [Math.sqrt] on the non-negative rationals; it is not rational-valued
    in general, so the evaluators take it as a parameter. *)
Variable Math_sqrt : Q -> Q.

Definition nsqrt (a : num) : num :=
  match a with
  | Some q => if Qlt_bool q 0 then NaN else Some (Math_sqrt q)
  | None => NaN
  end.

(** One iteration of [for (const r of feature.rects)]. *)
Definition rect_term (ii : list num) (imageWidth wx wy : Z) (scale : Q)
           (value : num) (r : Rect) : num :=
  let rx := wx + Math_round (rect_x r * scale) in
  let ry := wy + Math_round (rect_y r * scale) in
  let rw := Math_round (rect_width r * scale) in
  let rh := Math_round (rect_height r * scale) in
  let s := Image.rectSum ii imageWidth rx ry rw rh in
  nadd value (nmul (fin (rect_weight r)) s).

Definition evaluateFeature (feature : HaarFeature) (ii : list num)
           (imageWidth wx wy : Z) (scale : Q) (invArea stdDev : num) : num :=
  let value := foldl (rect_term ii imageWidth wx wy scale) (fin 0)
                     (rects feature) in
  ndiv (nmul value invArea) stdDev.

(** The loop of [evaluateStage] over the weak classifiers, from the
    running [sum].  [features[wc.featureIndex]] outside of the table is
    [undefined], and reading its [rects] throws. *)
Fixpoint stage_sum (features : list HaarFeature) (ii : list num)
         (imageWidth wx wy : Z) (scale : Q) (invArea stdDev : num)
         (wcs : list WeakClassifier) (sum : Q) : Run Q :=
  match wcs with
  | [] => Ret sum
  | wc :: rest =>
    match features !! featureIndex wc with
    | None => Throw
    | Some feature =>
      let fVal := evaluateFeature feature ii imageWidth wx wy scale
                                  invArea stdDev in
      let h := if nlt fVal (fin (threshold wc)) then alpha wc else beta wc in
      stage_sum features ii imageWidth wx wy scale invArea stdDev rest
                (sum + h)%Q
    end
  end.

Definition evaluateStage (stage : Stage) (features : list HaarFeature)
           (ii : list num) (imageWidth wx wy : Z) (scale : Q)
           (invArea stdDev : num) : Run bool :=
  sum ← stage_sum features ii imageWidth wx wy scale invArea stdDev
                  (weakClassifiers stage) 0%Q;
  Ret (Qle_bool (stageThreshold stage) sum).

(** Window statistics computed at the head of [evaluateCascade]. *)
Definition window_area (winW winH : Z) : num := fin (inject_Z (winW * winH)).

Definition window_mean (ii : list num) (imageWidth wx wy winW winH : Z) : num :=
  ndiv (Image.rectSum ii imageWidth wx wy winW winH) (window_area winW winH).

Definition window_variance (ii ii2 : list num) (imageWidth wx wy winW winH : Z)
  : num :=
  let mean := window_mean ii imageWidth wx wy winW winH in
  let sqSum := Image.rectSum ii2 imageWidth wx wy winW winH in
  nsub (ndiv sqSum (window_area winW winH)) (nmul mean mean).

Definition window_stdDev (ii ii2 : list num) (imageWidth wx wy winW winH : Z)
  : num :=
  nsqrt (nmax (window_variance ii ii2 imageWidth wx wy winW winH) (fin 1)).

Definition window_invArea (winW winH : Z) : num :=
  ndiv (fin 1) (window_area winW winH).

(** The loop of [evaluateCascade] over the stages.  Next to the result it
    returns the stages handed to [evaluateStage], in order: the
    stage-evaluation counter of the tests. *)
Fixpoint cascade_stages (features : list HaarFeature) (ii : list num)
         (imageWidth wx wy : Z) (scale : Q) (invArea stdDev : num)
         (sts : list Stage) : list Stage * Run bool :=
  match sts with
  | [] => ([], Ret true)
  | stage :: rest =>
    match evaluateStage stage features ii imageWidth wx wy scale
                        invArea stdDev with
    | Ret true =>
      let '(seen, r) := cascade_stages features ii imageWidth wx wy scale
                                       invArea stdDev rest in
      (stage :: seen, r)
    | Ret false => ([stage], Ret false)
    | Throw => ([stage], Throw)
    | Fuel => ([stage], Fuel)
    end
  end.

Definition evaluateCascade_log (cascade : Cascade) (features : list HaarFeature)
           (ii ii2 : list num) (imageWidth wx wy : Z) (scale : Q)
           (winW winH : Z) : list Stage * Run bool :=
  let stdDev := window_stdDev ii ii2 imageWidth wx wy winW winH in
  let invArea := window_invArea winW winH in
  cascade_stages features ii imageWidth wx wy scale invArea stdDev
                 (stages cascade).

Definition evaluateCascade (cascade : Cascade) (features : list HaarFeature)
           (ii ii2 : list num) (imageWidth wx wy : Z) (scale : Q)
           (winW winH : Z) : Run bool :=
  snd (evaluateCascade_log cascade features ii ii2 imageWidth wx wy scale
                           winW winH).

End Evaluators.

End Haar.

(** ** js/detector.js *)

Module Detector.

(** A detection [{ x, y, w, h, scale }]; the scanner only builds them
    with integer geometry. *)
Record Detection : Type := mkDet {
  det_x : Z;
  det_y : Z;
  det_w : Z;
  det_h : Z;
  det_scale : Q
}.

#[global] Instance Detection_inhabited : Inhabited Detection :=
  populate (mkDet 0 0 0 0 0).

(** The [options] object: an absent property takes its default. *)
Record Options : Type := mkOptions {
  scaleFactor : option Q;
  minSize : option Q;
  maxSize : option Q
}.

Definition area (d : Detection) : Z := det_w d * det_h d.

Definition computeIOU (boxA boxB : Detection) : Q :=
  let xA := Z.max (det_x boxA) (det_x boxB) in
  let yA := Z.max (det_y boxA) (det_y boxB) in
  let xB := Z.min (det_x boxA + det_w boxA) (det_x boxB + det_w boxB) in
  let yB := Z.min (det_y boxA + det_h boxA) (det_y boxB + det_h boxB) in
  let interArea := Z.max 0 (xB - xA) * Z.max 0 (yB - yA) in
  if interArea =? 0 then 0%Q else
  let boxAArea := det_w boxA * det_h boxA in
  let boxBArea := det_w boxB * det_h boxB in
  (inject_Z interArea / inject_Z (boxAArea + boxBArea - interArea))%Q.

(** [Array.prototype.sort] with a comparator: a stable sort, here by
    insertion.  [cmp a b <= 0] keeps [a] before [b]. *)
Fixpoint sort_insert {A} (cmp : A -> A -> Z) (a : A) (l : list A) : list A :=
  match l with
  | [] => [a]
  | b :: l' => if cmp a b <=? 0 then a :: b :: l'
               else b :: sort_insert cmp a l'
  end.

Fixpoint array_sort {A} (cmp : A -> A -> Z) (l : list A) : list A :=
  match l with
  | [] => []
  | a :: l' => sort_insert cmp a (array_sort cmp l')
  end.

(** The comparator of [nonMaximumSuppression]: largest area first. *)
Definition by_area_desc (a b : Detection) : Z :=
  det_w b * det_h b - det_w a * det_h a.

(** Inner loop body of [nonMaximumSuppression], at index [j]. *)
Definition suppress_step (detections : list Detection) (overlapThreshold : Q)
           (i : nat) (suppressed : gset nat) (j : nat) : gset nat :=
  if decide (j ∈ suppressed) then suppressed else
  let iou := computeIOU (detections !!! i) (detections !!! j) in
  if Qlt_bool overlapThreshold iou then suppressed ∪ {[ j ]} else suppressed.

(** Outer loop body, at index [i]; the state is [(keep, suppressed)]. *)
Definition keep_step (detections : list Detection) (overlapThreshold : Q)
           (st : list Detection * gset nat) (i : nat)
  : list Detection * gset nat :=
  let '(keep, suppressed) := st in
  if decide (i ∈ suppressed) then st else
  (keep ++ [detections !!! i],
   foldl (suppress_step detections overlapThreshold i) suppressed
         (seq (i + 1) (length detections - (i + 1)))).

Definition nonMaximumSuppression (detections : list Detection)
           (overlapThreshold : Q) : list Detection :=
  if decide (length detections = 0%nat) then [] else
  let detections := array_sort by_area_desc detections in
  fst (foldl (keep_step detections overlapThreshold) ([], ∅)
             (seq 0 (length detections))).

(** The default of the parameter [overlapThreshold]. *)
Definition default_overlapThreshold : Q := 3 # 10.

(** State of the scan: the array [detections], and the windows handed
    to [evaluateCascade] so far (a log kept by the model only). *)
Record ScanState : Type := mkScan {
  detections : list Detection;
  evaluated : list Detection
}.

Section Scanner.

Variable Math_sqrt : Q -> Q.
Variables (cascade : Haar.Cascade) (features : list Haar.HaarFeature).
Variables (ii ii2 : list num) (width height : Z).

(** [for (let x = 0; x <= width - winW; x += step)], from the current
    [x]. *)
Fixpoint for_x (fuel : nat) (scale : Q) (winW winH step y x : Z)
         (st : ScanState) : Run ScanState :=
  match fuel with
  | O => Fuel
  | S fuel' =>
    if x <=? width - winW then
      isFace ← Haar.evaluateCascade Math_sqrt cascade features ii ii2 width
                                    x y scale winW winH;
      let win := mkDet x y winW winH scale in
      let dets := if isFace : bool then detections st ++ [win]
                  else detections st in
      for_x fuel' scale winW winH step y (x + step)
            (mkScan dets (evaluated st ++ [win]))
    else Ret st
  end.

(** [for (let y = 0; y <= height - winH; y += step)], from the current
    [y]; [budget] bounds the inner loop. *)
Fixpoint for_y (budget fuel : nat) (scale : Q) (winW winH step y : Z)
         (st : ScanState) : Run ScanState :=
  match fuel with
  | O => Fuel
  | S fuel' =>
    if y <=? height - winH then
      st' ← for_x budget scale winW winH step y 0 st;
      for_y budget fuel' scale winW winH step (y + step) st'
    else Ret st
  end.

Variables (baseW baseH scaleFactor minSize maxSize : Q).

(** [while (baseW * scale <= maxSize && baseH * scale <= maxSize)], from
    the current [scale]. *)
Fixpoint while_scale (budget fuel : nat) (scale : Q) (st : ScanState)
  : Run ScanState :=
  match fuel with
  | O => Fuel
  | S fuel' =>
    if Qle_bool (baseW * scale) maxSize && Qle_bool (baseH * scale) maxSize
    then
      let winW := Math_round (baseW * scale) in
      let winH := Math_round (baseH * scale) in
      if Qlt_bool (inject_Z winW) minSize || Qlt_bool (inject_Z winH) minSize
      then while_scale budget fuel' (scale * scaleFactor)%Q st
      else
        let step := Z.max 2 (Math_floor ((1 # 10) * inject_Z winW)) in
        st' ← for_y budget budget scale winW winH step 0 st;
        while_scale budget fuel' (scale * scaleFactor)%Q st'
    else Ret st
  end.

End Scanner.

(** The destructuring of [options] with its defaults. *)
Definition opt_scaleFactor (options : Options) : Q :=
  default (12 # 10) (scaleFactor options).

Definition opt_minSize (cascade : Haar.Cascade) (options : Options) : Q :=
  default (if Qeq_bool (Haar.baseWindowWidth cascade) 0 then 24%Q
           else Haar.baseWindowWidth cascade)
          (minSize options).

Definition opt_maxSize (width height : Z) (options : Options) : Q :=
  default (inject_Z (Z.min width height)) (maxSize options).

Section DetectFaces.

Variable Math_sqrt : Q -> Q.

(** [detectFaces] up to the call of [nonMaximumSuppression]: the raw
    detections and the log of evaluated windows.  Every loop may test its
    condition at most [fuel] times. *)
Definition detectFaces_scan (fuel : nat) (gray : list num) (width height : Z)
           (cascade : Haar.Cascade) (features : list Haar.HaarFeature)
           (options : Options) : Run ScanState :=
  '(ii, ii2) ← Image.computeIntegralImage gray width height;
  let baseW := Haar.baseWindowWidth cascade in
  let baseH := Haar.baseWindowHeight cascade in
  if Qeq_bool baseW 0 || Qeq_bool baseH 0 then Ret (mkScan [] []) else
  while_scale Math_sqrt cascade features ii ii2 width height
              baseW baseH (opt_scaleFactor options)
              (opt_minSize cascade options) (opt_maxSize width height options)
              fuel fuel 1%Q (mkScan [] []).

Definition detectFaces (fuel : nat) (gray : list num) (width height : Z)
           (cascade : Haar.Cascade) (features : list Haar.HaarFeature)
           (options : Options) : Run (list Detection) :=
  st ← detectFaces_scan fuel gray width height cascade features options;
  Ret (nonMaximumSuppression (detections st) default_overlapThreshold).

End DetectFaces.

End Detector.

(** ** js/main.js *)

Module Main.

Import Detector.

Definition calculateIoU (boxA boxB : Detection) : Q :=
  let x1 := Z.max (det_x boxA) (det_x boxB) in
  let y1 := Z.max (det_y boxA) (det_y boxB) in
  let x2 := Z.min (det_x boxA + det_w boxA) (det_x boxB + det_w boxB) in
  let y2 := Z.min (det_y boxA + det_h boxA) (det_y boxB + det_h boxB) in
  let intersectionWidth := Z.max 0 (x2 - x1) in
  let intersectionHeight := Z.max 0 (y2 - y1) in
  let intersectionArea := intersectionWidth * intersectionHeight in
  if intersectionArea <=? 0 then 0%Q else
  let areaA := det_w boxA * det_h boxA in
  let areaB := det_w boxB * det_h boxB in
  let unionArea := areaA + areaB - intersectionArea in
  (inject_Z intersectionArea / inject_Z unionArea)%Q.

(** The callback of both [reduce] calls. *)
Definition pick_larger (largest current : Detection) : Detection :=
  if det_w largest * det_h largest <? det_w current * det_h current
  then current else largest.

(** Body of [for (const detection of detections)]; the state is
    [(bestMatch, bestScore)]. *)
Definition match_step (previousBox : Detection)
           (st : option Detection * Q) (detection : Detection)
  : option Detection * Q :=
  let '(bestMatch, bestScore) := st in
  let score := calculateIoU previousBox detection in
  if Qlt_bool bestScore score then (Some detection, score) else st.

(** [selectBestFace]; [null] is [None].  On a non-empty array [reduce]
    without initial value folds from the first element. *)
Definition selectBestFace (detections : list Detection)
           (previousBox : option Detection) : option Detection :=
  match detections with
  | [] => None
  | first :: rest =>
    match previousBox with
    | None => Some (foldl pick_larger first rest)
    | Some previous =>
      let '(bestMatch, bestScore) :=
        foldl (match_step previous) (None, 0%Q) detections in
      match bestMatch with
      | None => Some (foldl pick_larger first rest)
      | Some best =>
        if Qlt_bool bestScore (1 # 10) then Some (foldl pick_larger first rest)
        else Some best
      end
    end
  end.

(** ** The cascade in the tracking.js format

    The objects that [parseTrackingJsCascade] builds; a field read past
    the end of the array is [undefined], here [None]. *)

Record RawRect : Type := mkRawRect {
  raw_x : num;
  raw_y : num;
  raw_width : num;
  raw_height : num;
  raw_weight : num
}.

Record RawFeature : Type := mkRawFeature {
  raw_tilted : num;
  raw_rects : list RawRect
}.

Record RawClassifier : Type := mkRawClassifier {
  raw_featureIndex : nat;
  raw_threshold : num;
  raw_alpha : num;
  raw_beta : num
}.

Record RawStage : Type := mkRawStage {
  raw_stageThreshold : num;
  raw_weakClassifiers : list RawClassifier
}.

Record RawCascade : Type := mkRawCascade {
  raw_baseWindowWidth : num;
  raw_baseWindowHeight : num;
  raw_stages : list RawStage
}.

(** The number of iterations of [for (let k = 0; k < n; k++)] for a
    bound read from the array: none when it is [undefined]. *)
Definition iterations (n : num) : nat :=
  match n with
  | Some q => Z.to_nat (Qceiling q)
  | None => 0%nat
  end.

(** [for (let r = 0; r < numRects; r++)], with [count] iterations
    left. *)
Fixpoint parse_rects (data : list Q) (count : nat) (i : nat)
         (rects : list RawRect) : list RawRect * nat :=
  match count with
  | O => (rects, i)
  | S count' =>
    parse_rects data count' (i + 5)%nat
      (rects ++ [mkRawRect (data !! i) (data !! (i + 1)%nat)
                           (data !! (i + 2)%nat) (data !! (i + 3)%nat)
                           (data !! (i + 4)%nat)])
  end.

(** The variables that the loops of the parser update. *)
Record ParseState : Type := mkParse {
  parse_i : nat;
  parse_featureIndex : nat;
  parse_features : list RawFeature;
  parse_stages : list RawStage
}.

(** [for (let j = 0; j < numWeakClassifiers; j++)], with [count]
    iterations left; [weakClassifiers] is the array of the stage. *)
Fixpoint parse_classifiers (data : list Q) (count : nat) (st : ParseState)
         (weakClassifiers : list RawClassifier)
  : ParseState * list RawClassifier :=
  match count with
  | O => (st, weakClassifiers)
  | S count' =>
    let i := parse_i st in
    let tilted := data !! i in
    let numRects := data !! (i + 1)%nat in
    let '(rects, i) := parse_rects data (iterations numRects) (i + 2)%nat [] in
    let threshold := data !! i in
    let left_val := data !! (i + 1)%nat in
    let right_val := data !! (i + 2)%nat in
    parse_classifiers data count'
      (mkParse (i + 3)%nat (S (parse_featureIndex st))
               (parse_features st ++ [mkRawFeature tilted rects])
               (parse_stages st))
      (weakClassifiers
         ++ [mkRawClassifier (parse_featureIndex st) threshold
                             left_val right_val])
  end.

(** [while (i < data.length)]; the loop may test its condition at most
    [fuel] times. *)
Fixpoint parse_loop (data : list Q) (fuel : nat) (st : ParseState)
  : Run ParseState :=
  match fuel with
  | O => Fuel
  | S fuel' =>
    if (parse_i st <? length data)%nat then
      let i := parse_i st in
      let stageThreshold := data !! i in
      let numWeakClassifiers := data !! (i + 1)%nat in
      let '(st', weakClassifiers) :=
        parse_classifiers data (iterations numWeakClassifiers)
          (mkParse (i + 2)%nat (parse_featureIndex st) (parse_features st)
                   (parse_stages st)) [] in
      parse_loop data fuel'
        (mkParse (parse_i st') (parse_featureIndex st') (parse_features st')
                 (parse_stages st'
                  ++ [mkRawStage stageThreshold weakClassifiers]))
    else Ret st
  end.

(** The result [{ cascade, features }] is the pair. *)
Definition parseTrackingJsCascade (fuel : nat) (data : list Q)
  : Run (RawCascade * list RawFeature) :=
  st ← parse_loop data fuel (mkParse 2 0 [] []);
  Ret (mkRawCascade (data !! 0%nat) (data !! 1%nat) (parse_stages st),
       parse_features st).

End Main.

(** * Specification-side definitions *)

(** ** Pixel sums *)

(** The sum of [f i] over [from <= i < from + len]. *)
Definition sum_range (f : Z -> Q) (from len : Z) : Q :=
  foldr (fun i acc => (f i + acc)%Q) 0%Q (seqZ from len).

(** The intensity at [(x, y)] of a row-major image. *)
Definition pixel (gray : list Q) (width x y : Z) : Q :=
  default 0%Q (gray !! Z.to_nat (y * width + x)).

(** The sum of the intensities the rectangle [(x, y, w, h)] covers. *)
Definition pixel_sum (gray : list Q) (width x y w h : Z) : Q :=
  sum_range (fun j => sum_range (fun i => pixel gray width i j) x w) y h.

(** The sum of all the entries of the buffer. *)
Definition total (gray : list Q) : Q := foldr Qplus 0%Q gray.

Definition square (q : Q) : Q := (q * q)%Q.

(** A number of the source is the finite value [q], up to the equality
    of rationals. *)
Definition is_value (a : num) (q : Q) : Prop :=
  match a with
  | Some s => (s == q)%Q
  | None => False
  end.

(** A rectangle of positive extent inside a [width] x [height] image. *)
Definition inside (width height x y w h : Z) : Prop :=
  0 <= x /\ 0 <= y /\ 0 < w /\ 0 < h /\ x + w <= width /\ y + h <= height.

(** ** One cumulative table

    What the loops of [computeIntegralImage] do to one of the two tables,
    whose source values are [vals]. *)

Definition table_step (vals : Z -> num) (width y : Z) (st : num * list num)
           (x : Z) : num * list num :=
  let idx := y * width + x in
  let rs := nadd (fst st) (vals idx) in
  let up := if 0 <? y then Image.aget (snd st) ((y - 1) * width + x)
            else fin 0 in
  (rs, Image.aset (snd st) idx (nadd rs up)).

Definition table_row (vals : Z -> num) (width : Z) (tbl : list num) (y : Z)
  : list num :=
  snd (foldl (table_step vals width y) (fin 0, tbl) (seqZ 0 width)).

(** Sum of the first [n] values of row [y], and of the rectangle from
    the origin to [(x, y)] inclusive, for the values [g] by index. *)
Definition row_prefix (g : Z -> Q) (width y n : Z) : Q :=
  sum_range (fun i => g (y * width + i)) 0 n.

Definition corner_sum (g : Z -> Q) (width x y : Z) : Q :=
  sum_range (fun j => row_prefix g width j (x + 1)) 0 (y + 1).

(** The source values of the table [ii2]: [val * val]. *)
Definition square_vals (gray : list num) (i : Z) : num :=
  nmul (Image.aget gray i) (Image.aget gray i).

(** ** Votes of a stage *)

(** The output of one weak classifier at a window: [alpha] if the
    normalized value of its feature is strictly below its threshold,
    [beta] otherwise. *)
Definition vote (features : list Haar.HaarFeature) (ii : list num)
           (imageWidth wx wy : Z) (scale : Q) (invArea stdDev : num)
           (wc : Haar.WeakClassifier) : Q :=
  match features !! Haar.featureIndex wc with
  | Some feature =>
    if nlt (Haar.evaluateFeature feature ii imageWidth wx wy scale
                                 invArea stdDev)
           (fin (Haar.threshold wc))
    then Haar.alpha wc else Haar.beta wc
  | None => 0%Q
  end.

(** Every weak classifier of the stage refers to a feature of the
    table. *)
Definition indices_valid (features : list Haar.HaarFeature)
           (stage : Haar.Stage) : Prop :=
  Forall (fun wc => is_Some (features !! Haar.featureIndex wc))
         (Haar.weakClassifiers stage).

(** A table without [NaN], of the size of the image. *)
Definition finite_table (t : list num) (width height : Z) : Prop :=
  Z.of_nat (length t) = width * height /\ Forall is_Some t.

(** An executable stand-in for [Math.sqrt], used to run the model on
    concrete inputs: the square root rounded down to six decimals. *)
Definition sqrt_6dp (q : Q) : Q :=
  (inject_Z (Z.sqrt (Qfloor (q * 1000000000000))) / 1000000)%Q.

(** ** A small cascade for concrete runs

    One feature without rectangles (its value is 0 at every window), a
    stage that therefore rejects (threshold 0.5, alpha 0, beta 1, stage
    threshold 1), and a stage whose classifier refers to a feature that
    does not exist. *)

Definition null_feature : Haar.HaarFeature := Haar.mkFeature 0 [].

Definition rejecting_stage : Haar.Stage :=
  Haar.mkStage 1 [Haar.mkWC 0 (1 # 2) 0 1].

Definition dangling_stage : Haar.Stage :=
  Haar.mkStage 0 [Haar.mkWC 7 0 0 0].

Definition rejecting_cascade : Haar.Cascade :=
  Haar.mkCascade 2 2 [rejecting_stage].

Definition guarded_cascade : Haar.Cascade :=
  Haar.mkCascade 2 2 [rejecting_stage; dangling_stage].

(** A cascade without stages accepts every window. *)
Definition accepting_cascade : Haar.Cascade := Haar.mkCascade 2 2 [].

(** ** Greedy suppression *)

(** The test of the inner loop: the overlap exceeds the threshold. *)
Definition overlaps (thr : Q) (a b : Detector.Detection) : bool :=
  Qlt_bool thr (Detector.computeIOU a b).

(** The greedy walk over a list: a detection is kept unless one kept
    before it overlaps it by more than the threshold. *)
Fixpoint greedy_walk (thr : Q) (keep ds : list Detector.Detection)
  : list Detector.Detection :=
  match ds with
  | [] => keep
  | d :: rest =>
    if existsb (fun k => overlaps thr k d) keep
    then greedy_walk thr keep rest
    else greedy_walk thr (keep ++ [d]) rest
  end.

(** No detection of the list overlaps a later one beyond the
    threshold. *)
Fixpoint compatible (thr : Q) (l : list Detector.Detection) : Prop :=
  match l with
  | [] => True
  | a :: rest => Forall (fun b => overlaps thr a b = false) rest
                 /\ compatible thr rest
  end.

(** Largest area first. *)
Definition area_desc (a b : Detector.Detection) : Prop :=
  Detector.area b <= Detector.area a.

(** ** Windows of the scan *)

(** The window lies inside the [width] x [height] image. *)
Definition in_image (width height : Z) (d : Detector.Detection) : Prop :=
  0 <= Detector.det_x d /\ 0 <= Detector.det_y d
  /\ Detector.det_x d + Detector.det_w d <= width
  /\ Detector.det_y d + Detector.det_h d <= height.

(** Both sides of the window reach [minSize]. *)
Definition at_least (minSize : Q) (d : Detector.Detection) : Prop :=
  (minSize <= inject_Z (Detector.det_w d))%Q
  /\ (minSize <= inject_Z (Detector.det_h d))%Q.

(** The cascade accepts the window. *)
Definition passed (Math_sqrt : Q -> Q) (cascade : Haar.Cascade)
           (features : list Haar.HaarFeature) (ii ii2 : list num) (width : Z)
           (d : Detector.Detection) : Prop :=
  Haar.evaluateCascade Math_sqrt cascade features ii ii2 width
    (Detector.det_x d) (Detector.det_y d) (Detector.det_scale d)
    (Detector.det_w d) (Detector.det_h d) = Ret true.

(** The origins [from], [from + step], ... up to [limit] inclusive. *)
Definition grid_from (from limit step : Z) : list Z :=
  (fun k => from + k * step) <$> seqZ 0 ((limit - from) `div` step + 1).

(** The step of the window origins at a window of width [winW]. *)
Definition window_step (winW : Z) : Z :=
  Z.max 2 (Math_floor ((1 # 10) * inject_Z winW)).

(** The windows of one scale, row by row. *)
Definition windows_of_size (width height : Z) (scale : Q) (winW winH : Z)
  : list Detector.Detection :=
  y ← grid_from 0 (height - winH) (window_step winW);
  (fun x => Detector.mkDet x y winW winH scale)
    <$> grid_from 0 (width - winW) (window_step winW).

(** The scale of the [k]-th iteration of the loop over the scales that
    starts at [scale]. *)
Fixpoint scale_at (scaleFactor scale : Q) (k : nat) : Q :=
  match k with
  | O => scale
  | S k' => scale_at scaleFactor (scale * scaleFactor) k'
  end.

(** The loop over the scales goes on at [scale]. *)
Definition within_maxSize (baseW baseH maxSize scale : Q) : Prop :=
  (baseW * scale <= maxSize)%Q /\ (baseH * scale <= maxSize)%Q.

(** The windows of the scale [scale]: none when the rounded window is
    smaller than [minSize] on one axis. *)
Definition windows_at (width height : Z) (baseW baseH minSize scale : Q)
  : list Detector.Detection :=
  let winW := Math_round (baseW * scale) in
  let winH := Math_round (baseH * scale) in
  if Qlt_bool (inject_Z winW) minSize || Qlt_bool (inject_Z winH) minSize
  then []
  else windows_of_size width height scale winW winH.

(** The windows of the first [n] scales, in the order of the scan. *)
Definition windows_upto (width height : Z)
           (baseW baseH scaleFactor minSize : Q) (n : nat)
  : list Detector.Detection :=
  k ← seq 0 n;
  windows_at width height baseW baseH minSize (scale_at scaleFactor 1 k).

(** Handing the windows of a list to the cascade, one after the other:
    what the two inner loops do with the windows they enumerate. *)
Fixpoint visit (Math_sqrt : Q -> Q) (cascade : Haar.Cascade)
         (features : list Haar.HaarFeature) (ii ii2 : list num) (width : Z)
         (wins : list Detector.Detection) (st : Detector.ScanState)
  : Run Detector.ScanState :=
  match wins with
  | [] => Ret st
  | win :: rest =>
    isFace ← Haar.evaluateCascade Math_sqrt cascade features ii ii2 width
                (Detector.det_x win) (Detector.det_y win)
                (Detector.det_scale win)
                (Detector.det_w win) (Detector.det_h win);
    visit Math_sqrt cascade features ii ii2 width rest
          (Detector.mkScan
             (if isFace : bool then Detector.detections st ++ [win]
              else Detector.detections st)
             (Detector.evaluated st ++ [win]))
  end.

(** Every recorded detection was handed to the cascade, was accepted by
    it, lies inside the image and reaches [minSize]. *)
Definition recorded_ok (Math_sqrt : Q -> Q) (cascade : Haar.Cascade)
           (features : list Haar.HaarFeature) (ii ii2 : list num)
           (width height : Z) (minSize : Q) (st : Detector.ScanState)
  : Prop :=
  forall d, d ∈ Detector.detections st ->
    d ∈ Detector.evaluated st
    /\ passed Math_sqrt cascade features ii ii2 width d
    /\ in_image width height d
    /\ at_least minSize d.

(** The iteration budget covers both inner loops at the scale [scale]. *)
Definition budget_covers (width height : Z) (baseW baseH : Q) (budget : nat)
           (scale : Q) : Prop :=
  let winW := Math_round (baseW * scale) in
  let winH := Math_round (baseH * scale) in
  (length (grid_from 0 (width - winW) (window_step winW)) < budget)%nat
  /\ (length (grid_from 0 (height - winH) (window_step winW)) < budget)%nat.

(** ** Geometry of boxes *)

(** The area of the intersection of two boxes. *)
Definition intersection_area (a b : Detector.Detection) : Z :=
  Z.max 0 (Z.min (Detector.det_x a + Detector.det_w a)
                 (Detector.det_x b + Detector.det_w b)
           - Z.max (Detector.det_x a) (Detector.det_x b))
  * Z.max 0 (Z.min (Detector.det_y a + Detector.det_h a)
                   (Detector.det_y b + Detector.det_h b)
             - Z.max (Detector.det_y a) (Detector.det_y b)).

(** The two boxes have the same origin and size. *)
Definition same_box (a b : Detector.Detection) : Prop :=
  Detector.det_x a = Detector.det_x b /\ Detector.det_y a = Detector.det_y b
  /\ Detector.det_w a = Detector.det_w b /\ Detector.det_h a = Detector.det_h b.

(** ** Grayscale conversion *)

(** The byte at index [k] of the pixel data. *)
Definition byte (data : list Z) (k : Z) : Z :=
  default 0 (data !! Z.to_nat k).

(** The weighted sum of the three colour channels. *)
Definition luma (r g b : Z) : Q :=
  ((299 # 1000) * inject_Z r + (587 # 1000) * inject_Z g
   + (114 # 1000) * inject_Z b)%Q.

(** The intensities of the first [n] pixels of the RGBA data. *)
Definition luma_image (data : list Z) (n : Z) : list Q :=
  (fun i => luma (byte data (i * 4)) (byte data (i * 4 + 1))
                 (byte data (i * 4 + 2)))
    <$> seqZ 0 n.

(** RGBA data of a [width] x [height] canvas: four bytes per pixel. *)
Definition canvas_ok (canvas : Image.Canvas) : Prop :=
  0 < Image.canvas_width canvas /\ 0 < Image.canvas_height canvas
  /\ Z.of_nat (length (Image.canvas_data canvas))
     = 4 * (Image.canvas_width canvas * Image.canvas_height canvas)
  /\ Forall (fun v => 0 <= v <= 255) (Image.canvas_data canvas).

(** ** Windows handed to the cascade *)

(** A window as the scan builds it: inside the image, of the rounded
    scaled base size, not below [minSize], at a scale within [maxSize]. *)
Definition window_ok (width height : Z) (baseW baseH minSize maxSize : Q)
           (win : Detector.Detection) : Prop :=
  in_image width height win
  /\ at_least minSize win
  /\ within_maxSize baseW baseH maxSize (Detector.det_scale win)
  /\ Detector.det_w win = Math_round (baseW * Detector.det_scale win)
  /\ Detector.det_h win = Math_round (baseH * Detector.det_scale win).

(** ** The flat cascade format

    [width, height, (stageThreshold, numWeakClassifiers, (tilted,
    numRects, (x, y, w, h, weight) per rectangle, threshold, left_val,
    right_val) per classifier) per stage]. *)

(** One weak classifier of the file, with its feature. *)
Record ClassifierDesc : Type := mkClassifierDesc {
  cd_feature : Haar.HaarFeature;
  cd_threshold : Q;
  cd_left : Q;
  cd_right : Q
}.

(** One stage of the file: its threshold and its classifiers. *)
Definition StageDesc : Type := (Q * list ClassifierDesc)%type.

Definition encode_rect (r : Haar.Rect) : list Q :=
  [Haar.rect_x r; Haar.rect_y r; Haar.rect_width r; Haar.rect_height r;
   Haar.rect_weight r].

Definition encode_classifier (c : ClassifierDesc) : list Q :=
  [Haar.tilted (cd_feature c);
   inject_Z (Z.of_nat (length (Haar.rects (cd_feature c))))]
  ++ (Haar.rects (cd_feature c) ≫= encode_rect)
  ++ [cd_threshold c; cd_left c; cd_right c].

Definition encode_stage (s : StageDesc) : list Q :=
  [fst s; inject_Z (Z.of_nat (length (snd s)))]
  ++ (snd s ≫= encode_classifier).

Definition encode_cascade (baseW baseH : Q) (stages : list StageDesc)
  : list Q :=
  [baseW; baseH] ++ (stages ≫= encode_stage).

(** The classifiers of a stage, numbered from [featureIndex] on. *)
Fixpoint number_classifiers (featureIndex : nat) (cs : list ClassifierDesc)
  : list Haar.WeakClassifier :=
  match cs with
  | [] => []
  | c :: cs' =>
    Haar.mkWC featureIndex (cd_threshold c) (cd_left c) (cd_right c)
    :: number_classifiers (S featureIndex) cs'
  end.

(** The stages, their classifiers numbered through from [featureIndex]
    on. *)
Fixpoint number_stages (featureIndex : nat) (stages : list StageDesc)
  : list Haar.Stage :=
  match stages with
  | [] => []
  | s :: stages' =>
    Haar.mkStage (fst s) (number_classifiers featureIndex (snd s))
    :: number_stages (featureIndex + length (snd s)) stages'
  end.

(** The cascade and the feature table that the file describes. *)
Definition described_cascade (baseW baseH : Q) (stages : list StageDesc)
  : Haar.Cascade :=
  Haar.mkCascade baseW baseH (number_stages 0 stages).

Definition described_features (stages : list StageDesc)
  : list Haar.HaarFeature :=
  cd_feature <$> (stages ≫= snd).

(** The objects of the evaluators as objects of the parser: every field
    is a number. *)
Definition raw_of_rect (r : Haar.Rect) : Main.RawRect :=
  Main.mkRawRect (Some (Haar.rect_x r)) (Some (Haar.rect_y r))
                 (Some (Haar.rect_width r)) (Some (Haar.rect_height r))
                 (Some (Haar.rect_weight r)).

Definition raw_of_feature (f : Haar.HaarFeature) : Main.RawFeature :=
  Main.mkRawFeature (Some (Haar.tilted f)) (raw_of_rect <$> Haar.rects f).

Definition raw_of_classifier (wc : Haar.WeakClassifier) : Main.RawClassifier :=
  Main.mkRawClassifier (Haar.featureIndex wc) (Some (Haar.threshold wc))
                       (Some (Haar.alpha wc)) (Some (Haar.beta wc)).

Definition raw_of_stage (s : Haar.Stage) : Main.RawStage :=
  Main.mkRawStage (Some (Haar.stageThreshold s))
                  (raw_of_classifier <$> Haar.weakClassifiers s).

Definition raw_of_cascade (c : Haar.Cascade) : Main.RawCascade :=
  Main.mkRawCascade (Some (Haar.baseWindowWidth c))
                    (Some (Haar.baseWindowHeight c))
                    (raw_of_stage <$> Haar.stages c).

(** The feature indices of all the classifiers of the parsed stages, in
    order. *)
Definition raw_indices (stages : list Main.RawStage) : list nat :=
  Main.raw_featureIndex <$> (stages ≫= Main.raw_weakClassifiers).

(** ** Features over the pixels *)

(** The rectangle of a feature in the image, for the window at
    [(wx, wy)] of scale [scale]: [(x, y, w, h)]. *)
Definition placed_x (wx : Z) (scale : Q) (r : Haar.Rect) : Z :=
  wx + Math_round (Haar.rect_x r * scale).
Definition placed_y (wy : Z) (scale : Q) (r : Haar.Rect) : Z :=
  wy + Math_round (Haar.rect_y r * scale).
Definition placed_w (scale : Q) (r : Haar.Rect) : Z :=
  Math_round (Haar.rect_width r * scale).
Definition placed_h (scale : Q) (r : Haar.Rect) : Z :=
  Math_round (Haar.rect_height r * scale).

Definition placed_inside (width height wx wy : Z) (scale : Q)
           (r : Haar.Rect) : Prop :=
  inside width height (placed_x wx scale r) (placed_y wy scale r)
         (placed_w scale r) (placed_h scale r).

(** The sum, over the rectangles of a feature, of the weight times the
    sum of the intensities that the placed rectangle covers. *)
Definition weighted_sum (pix : list Q) (width wx wy : Z) (scale : Q)
           (rects : list Haar.Rect) : Q :=
  total ((fun r => Haar.rect_weight r
                   * pixel_sum pix width (placed_x wx scale r)
                               (placed_y wy scale r) (placed_w scale r)
                               (placed_h scale r))%Q <$> rects).

(** * Properties of js/image.js *)

(** ** Reads and writes of typed arrays *)

Lemma aget_in_range (a : list num) (i : Z) :
  0 <= i < Z.of_nat (length a) -> Image.aget a i = a !!! Z.to_nat i.
Proof.
  intros Hi. unfold Image.aget.
  destruct (Z.leb_spec 0 i); [|lia].
  destruct (lookup_lt_is_Some_2 a (Z.to_nat i)) as [v Hv]; [lia|].
  rewrite Hv. symmetry. by apply list_lookup_total_correct.
Qed.

Lemma aget_out_of_range (a : list num) (i : Z) :
  i < 0 \/ Z.of_nat (length a) <= i -> Image.aget a i = NaN.
Proof.
  intros Hi. unfold Image.aget.
  destruct (Z.leb_spec 0 i); [|done].
  rewrite lookup_ge_None_2; [done|lia].
Qed.

Lemma length_aset (a : list num) (i : Z) (v : num) :
  length (Image.aset a i v) = length a.
Proof. unfold Image.aset. destruct (0 <=? i); [apply length_insert|done]. Qed.

Lemma aget_aset_eq (a : list num) (i : Z) (v : num) :
  0 <= i < Z.of_nat (length a) -> Image.aget (Image.aset a i v) i = v.
Proof.
  intros Hi. unfold Image.aget, Image.aset.
  destruct (Z.leb_spec 0 i); [|lia].
  rewrite list_lookup_insert_eq; [done|lia].
Qed.

Lemma aget_aset_ne (a : list num) (i j : Z) (v : num) :
  i <> j -> Image.aget (Image.aset a i v) j = Image.aget a j.
Proof.
  intros Hij. unfold Image.aget, Image.aset.
  destruct (Z.leb_spec 0 j); [|done].
  destruct (Z.leb_spec 0 i); [|done].
  rewrite list_lookup_insert_ne; [done|lia].
Qed.

(** ** rectSum: the guard and the reads *)

Lemma rectSum_degenerate (ii : list num) (width x y w h : Z) :
  x < 0 \/ y < 0 \/ w <= 0 \/ h <= 0 ->
  Image.rectSum ii width x y w h = fin 0
  /\ Image.rectSum_reads width x y w h = [].
Proof.
  intros Hd. unfold Image.rectSum, Image.rectSum_reads.
  destruct (Z.ltb_spec x 0), (Z.ltb_spec y 0),
           (Z.leb_spec w 0), (Z.leb_spec h 0); simpl; try done; lia.
Qed.

(** All four corners of a rectangle inside the image are in the table. *)
Lemma rectSum_reads_inside (ii : list num) (width height x y w h : Z) :
  Z.of_nat (length ii) = width * height ->
  inside width height x y w h ->
  Forall (Image.in_buffer ii) (Image.rectSum_reads width x y w h).
Proof.
  intros Hlen (Hx & Hy & Hw & Hh & Hxw & Hyh).
  unfold Image.rectSum_reads, Image.in_buffer.
  destruct (Z.ltb_spec x 0), (Z.ltb_spec y 0),
           (Z.leb_spec w 0), (Z.leb_spec h 0); simpl; try lia.
  destruct (Z.ltb_spec (x + w - 1) 0), (Z.ltb_spec (y + h - 1) 0);
    simpl; try lia.
  rewrite Hlen.
  destruct (Z.ltb_spec 0 x), (Z.ltb_spec 0 y); simpl;
    repeat constructor; nia.
Qed.

(** C2: on the integral table of the 2x2 image [1 2; 3 4], the rectangle
    (0, 0, 3, 2), which extends one column past the right edge, makes
    [rectSum] read index 4 of a buffer of length 4, so that its result
    is [NaN]; and the 1x1 rectangle at (2, 0), entirely outside of the
    image, reads inside the buffer (the next row) and returns 1, not 0. *)
Theorem rectSum_reads_past_the_edge :
  let gray := [fin 1; fin 2; fin 3; fin 4] in
  let ii := [fin 1; fin 3; fin 4; fin 10] in
  Image.computeIntegralImage gray 2 2
  = Ret (ii, [fin 1; fin 5; fin 10; fin 30])
  /\ 4 ∈ Image.rectSum_reads 2 0 0 3 2
  /\ ~ Image.in_buffer ii 4
  /\ Image.rectSum ii 2 0 0 3 2 = NaN
  /\ Image.rectSum_reads 2 2 0 1 1 = [2; 1]
  /\ Image.rectSum ii 2 2 0 1 1 = fin 1.
Proof.
  split; [vm_compute; reflexivity|].
  split; [vm_compute; set_solver|].
  split; [unfold Image.in_buffer; simpl; lia|].
  split; [reflexivity|].
  split; reflexivity.
Qed.

(** ** Sums over ranges *)

Lemma foldr_sum_acc (f : Z -> Q) (l : list Z) (b : Q) :
  (foldr (fun i acc => f i + acc) b l
   == foldr (fun i acc => f i + acc) 0 l + b)%Q.
Proof.
  induction l as [|i l IH]; simpl.
  - ring.
  - rewrite IH. ring.
Qed.

Lemma sum_range_nil (f : Z -> Q) (from len : Z) :
  len <= 0 -> sum_range f from len = 0%Q.
Proof. intros H. unfold sum_range. by rewrite seqZ_nil. Qed.

Lemma sum_range_app (f : Z -> Q) (from n m : Z) :
  0 <= n -> 0 <= m ->
  (sum_range f from (n + m)%Z
   == sum_range f from n + sum_range f (from + n)%Z m)%Q.
Proof.
  intros Hn Hm. unfold sum_range.
  rewrite seqZ_app by done. rewrite foldr_app.
  apply foldr_sum_acc.
Qed.

Lemma sum_range_one (f : Z -> Q) (from : Z) :
  (sum_range f from 1 == f from)%Q.
Proof.
  unfold sum_range. rewrite seqZ_cons by lia. rewrite seqZ_nil by lia.
  simpl. ring.
Qed.

Lemma sum_range_snoc (f : Z -> Q) (from len : Z) :
  0 <= len ->
  (sum_range f from (len + 1)%Z
   == sum_range f from len + f (from + len)%Z)%Q.
Proof.
  intros H. rewrite sum_range_app by lia. by rewrite sum_range_one.
Qed.

Lemma sum_range_ext (f g : Z -> Q) (from len : Z) :
  (forall i, from <= i < from + len -> (f i == g i)%Q) ->
  (sum_range f from len == sum_range g from len)%Q.
Proof.
  intros Hfg. unfold sum_range.
  assert (Forall (fun i => (f i == g i)%Q) (seqZ from len)) as HF.
  { apply Forall_seqZ. auto. }
  induction HF as [|i l Hi _ IH]; simpl.
  - reflexivity.
  - rewrite Hi, IH. reflexivity.
Qed.

Lemma sum_range_plus (f g : Z -> Q) (from len : Z) :
  (sum_range (fun i => f i + g i) from len
   == sum_range f from len + sum_range g from len)%Q.
Proof.
  unfold sum_range. induction (seqZ from len) as [|i l IH]; simpl.
  - ring.
  - rewrite IH. ring.
Qed.

Lemma sum_range_zero (f : Z -> Q) (from len : Z) :
  (forall i, from <= i < from + len -> (f i == 0)%Q) ->
  (sum_range f from len == 0)%Q.
Proof.
  intros Hf. rewrite (sum_range_ext f (fun _ => 0%Q)) by done.
  unfold sum_range. induction (seqZ from len) as [|i l IH]; simpl.
  - reflexivity.
  - rewrite IH. ring.
Qed.

(** ** One cumulative table *)

Section Table.

Variables (g : Z -> Q) (vals : Z -> num) (width height : Z).
Hypothesis vals_finite :
  forall i, 0 <= i < width * height -> vals i = Some (g i).
Hypothesis width_nonneg : 0 <= width.

Lemma corner_sum_first_row (x : Z) :
  (corner_sum g width x 0 == row_prefix g width 0 (x + 1)%Z)%Q.
Proof.
  unfold corner_sum. replace (0 + 1) with 1 by lia.
  apply (sum_range_one (fun j => row_prefix g width j (x + 1)) 0).
Qed.

Lemma corner_sum_next_row (x y : Z) :
  0 < y ->
  (corner_sum g width x y
   == row_prefix g width y (x + 1)%Z + corner_sum g width x (y - 1)%Z)%Q.
Proof.
  intros Hy. unfold corner_sum.
  rewrite (sum_range_snoc _ 0 y) by lia.
  replace (y - 1 + 1) with y by lia.
  replace (0 + y) with y by lia. ring.
Qed.

Lemma table_step_length (y : Z) (st : num * list num) (x : Z) :
  length (snd (table_step vals width y st x)) = length (snd st).
Proof. apply length_aset. Qed.

(** The inner loop, after [n] columns of row [y]. *)
Lemma table_columns (tbl : list num) (y : Z) (n : nat) :
  Z.of_nat (length tbl) = width * height ->
  0 <= y < height ->
  Z.of_nat n <= width ->
  (0 < y -> forall x, 0 <= x < width ->
            is_value (Image.aget tbl ((y - 1) * width + x))
                     (corner_sum g width x (y - 1))) ->
  let st := foldl (table_step vals width y) (fin 0, tbl)
                  (seqZ 0 (Z.of_nat n)) in
  is_value (fst st) (row_prefix g width y (Z.of_nat n))
  /\ length (snd st) = length tbl
  /\ (forall i, ~ (y * width <= i < y * width + Z.of_nat n) ->
                Image.aget (snd st) i = Image.aget tbl i)
  /\ (forall x, 0 <= x < Z.of_nat n ->
                is_value (Image.aget (snd st) (y * width + x))
                         (corner_sum g width x y)).
Proof.
  intros Hlen Hy Hn Habove. cbv zeta. induction n as [|n IH].
  - change (Z.of_nat 0) with 0. rewrite seqZ_nil by lia. simpl.
    unfold row_prefix. rewrite sum_range_nil by lia.
    split; [reflexivity|]. split; [done|]. split; [done|]. intros; lia.
  - rewrite seqZ_S, foldl_app. simpl foldl.
    destruct IH as (Hrs & Hl & Hother & Hrow); [lia|].
    set (st := foldl (table_step vals width y) (fin 0, tbl)
                     (seqZ 0 (Z.of_nat n))) in *.
    replace (0 + Z.of_nat n) with (Z.of_nat n) by lia.
    set (x := Z.of_nat n) in *.
    assert (Hidx : 0 <= y * width + x < width * height) by nia.
    unfold table_step at 1 2 3 4. simpl.
    rewrite (vals_finite _ Hidx).
    destruct (fst st) as [r|] eqn:Er; [simpl in Hrs|done].
    assert (Hpre : (r + g (y * width + x)%Z
                    == row_prefix g width y (Z.of_nat (S n)))%Q).
    { unfold row_prefix. rewrite Nat2Z.inj_succ.
      unfold Z.succ. rewrite sum_range_snoc by lia.
      rewrite Hrs. reflexivity. }
    split; [exact Hpre|].
    split; [by rewrite length_aset|].
    split.
    + intros i Hi. rewrite aget_aset_ne by lia. apply Hother. lia.
    + intros x' Hx'.
      destruct (decide (x' = x)) as [->|Hne].
      * rewrite aget_aset_eq by lia.
        destruct (Z.ltb_spec 0 y) as [Hpos|Hzero].
        -- rewrite Hother by nia.
           specialize (Habove Hpos x ltac:(lia)).
           destruct (Image.aget tbl ((y - 1) * width + x)) as [u|];
             [simpl in Habove|done].
           simpl. rewrite corner_sum_next_row by done.
           rewrite Habove. unfold row_prefix in *.
           rewrite sum_range_snoc by lia. rewrite Hrs.
           replace (0 + x) with x by lia. reflexivity.
        -- assert (y = 0) as -> by lia. simpl.
           rewrite corner_sum_first_row. unfold row_prefix in *.
           rewrite sum_range_snoc by lia. rewrite Hrs.
           replace (0 + x) with x by lia. simpl. ring.
      * rewrite aget_aset_ne by nia. apply Hrow. lia.
Qed.

Lemma corner_sum_no_column (y : Z) : (corner_sum g width (-1) y == 0)%Q.
Proof.
  unfold corner_sum. apply sum_range_zero. intros j _.
  unfold row_prefix. by rewrite sum_range_nil by lia.
Qed.

Lemma corner_sum_no_row (x : Z) : (corner_sum g width x (-1) == 0)%Q.
Proof. unfold corner_sum. by rewrite sum_range_nil by lia. Qed.

(** The outer loop, after [m] rows. *)
Lemma table_rows (tbl : list num) (m : nat) :
  Z.of_nat (length tbl) = width * height ->
  Z.of_nat m <= height ->
  let t := foldl (table_row vals width) tbl (seqZ 0 (Z.of_nat m)) in
  length t = length tbl
  /\ (forall x y, 0 <= x < width -> 0 <= y < Z.of_nat m ->
                  is_value (Image.aget t (y * width + x))
                           (corner_sum g width x y)).
Proof.
  intros Hlen Hm. cbv zeta. induction m as [|m IH].
  - change (Z.of_nat 0) with 0. rewrite seqZ_nil by lia. simpl.
    split; [done|]. intros; lia.
  - rewrite seqZ_S, foldl_app. simpl foldl.
    destruct IH as (Hl & Hrows); [lia|].
    set (t := foldl (table_row vals width) tbl (seqZ 0 (Z.of_nat m))) in *.
    replace (0 + Z.of_nat m) with (Z.of_nat m) by lia.
    set (y := Z.of_nat m) in *.
    destruct (table_columns t y (Z.to_nat width))
      as (_ & Hl' & Hother & Hrow).
    { lia. } { lia. } { lia. }
    { intros Hpos x Hx. apply Hrows; lia. }
    rewrite Z2Nat.id in * by lia.
    fold (table_row vals width t y) in *.
    split; [lia|].
    intros x y' Hx Hy'.
    destruct (decide (y' = y)) as [->|Hne].
    + by apply Hrow.
    + rewrite Hother by nia. apply Hrows; lia.
Qed.

(** Inclusion-exclusion over the four corners. *)
Lemma corner_sum_rect (x y w h : Z) :
  0 <= x -> 0 <= y -> 0 < w -> 0 < h ->
  (corner_sum g width (x + w - 1) (y + h - 1)
   - corner_sum g width (x + w - 1) (y - 1)
   - corner_sum g width (x - 1) (y + h - 1)
   + corner_sum g width (x - 1) (y - 1)
   == sum_range (fun j => sum_range (fun i => g (j * width + i)) x w) y h)%Q.
Proof.
  intros Hx Hy Hw Hh. unfold corner_sum.
  replace (y + h - 1 + 1) with (y + h) by lia.
  replace (y - 1 + 1) with y by lia.
  replace (x + w - 1 + 1) with (x + w) by lia.
  replace (x - 1 + 1) with x by lia.
  rewrite !(sum_range_app _ 0 y h) by lia.
  replace (0 + y) with y by lia.
  assert (Hsplit :
    (sum_range (fun j => row_prefix g width j (x + w)) y h
     == sum_range (fun j => row_prefix g width j x) y h
        + sum_range (fun j => sum_range (fun i => g (j * width + i)) x w)
                    y h)%Q).
  { rewrite <- sum_range_plus. apply sum_range_ext. intros j _.
    unfold row_prefix. rewrite sum_range_app by lia.
    replace (0 + x) with x by lia. reflexivity. }
  rewrite Hsplit. ring.
Qed.

(** [rectSum] on a correct table, for a rectangle inside the image. *)
Lemma rectSum_table (t : list num) (x y w h : Z) :
  Z.of_nat (length t) = width * height ->
  (forall x y, 0 <= x < width -> 0 <= y < height ->
               is_value (Image.aget t (y * width + x))
                        (corner_sum g width x y)) ->
  inside width height x y w h ->
  is_value (Image.rectSum t width x y w h)
           (sum_range (fun j => sum_range (fun i => g (j * width + i)) x w)
                      y h).
Proof.
  intros Hlen Ht (Hx & Hy & Hw & Hh & Hxw & Hyh).
  unfold Image.rectSum.
  destruct (Z.ltb_spec x 0), (Z.ltb_spec y 0),
           (Z.leb_spec w 0), (Z.leb_spec h 0); simpl orb; try lia.
  destruct (Z.ltb_spec (x + w - 1) 0), (Z.ltb_spec (y + h - 1) 0);
    simpl orb; try lia.
  cbv zeta.
  assert (HD := Ht (x + w - 1) (y + h - 1) ltac:(lia) ltac:(lia)).
  assert (HC : is_value (if 0 <? x
                         then Image.aget t ((y + h - 1) * width + (x - 1))
                         else fin 0)
                        (corner_sum g width (x - 1) (y + h - 1))).
  { destruct (Z.ltb_spec 0 x).
    - apply Ht; lia.
    - assert (x = 0) as -> by lia. simpl.
      symmetry. apply corner_sum_no_column. }
  assert (HB : is_value (if 0 <? y
                         then Image.aget t ((y - 1) * width + (x + w - 1))
                         else fin 0)
                        (corner_sum g width (x + w - 1) (y - 1))).
  { destruct (Z.ltb_spec 0 y).
    - apply Ht; lia.
    - assert (y = 0) as -> by lia. simpl.
      symmetry. apply corner_sum_no_row. }
  assert (HA : is_value (if (0 <? x) && (0 <? y)
                         then Image.aget t ((y - 1) * width + (x - 1))
                         else fin 0)
                        (corner_sum g width (x - 1) (y - 1))).
  { destruct (Z.ltb_spec 0 y); [destruct (Z.ltb_spec 0 x)|]; simpl andb.
    - apply Ht; lia.
    - assert (x = 0) as -> by lia. simpl.
      symmetry. apply corner_sum_no_column.
    - rewrite andb_false_r. assert (y = 0) as -> by lia. simpl.
      symmetry. apply corner_sum_no_row. }
  destruct (Image.aget t ((y + h - 1) * width + (x + w - 1))) as [d|];
    [simpl in HD|done].
  destruct (if 0 <? x then _ else _) as [c|]; [simpl in HC|done].
  destruct (if 0 <? y then _ else _) as [b|]; [simpl in HB|done].
  destruct (if (0 <? x) && (0 <? y) then _ else _) as [a|];
    [simpl in HA|done].
  simpl. rewrite HD, HC, HB, HA. apply corner_sum_rect; lia.
Qed.

End Table.

(** ** The two tables of computeIntegralImage *)

Lemma column_step_tables (gray : list num) (width y : Z) (xs : list Z)
      (st : Image.IIState) :
  let st' := foldl (Image.column_step gray width y) st xs in
  (Image.rowSum st', Image.ii st')
  = foldl (table_step (Image.aget gray) width y)
          (Image.rowSum st, Image.ii st) xs
  /\ (Image.rowSum2 st', Image.ii2 st')
     = foldl (table_step (square_vals gray) width y)
             (Image.rowSum2 st, Image.ii2 st) xs.
Proof.
  cbv zeta. revert st. induction xs as [|x xs IH]; intros st; simpl.
  - done.
  - destruct (IH (Image.column_step gray width y st x)) as [-> ->]. done.
Qed.

Lemma row_step_tables (gray : list num) (width : Z) (ys : list Z)
      (st : Image.IIState) :
  let st' := foldl (Image.row_step gray width) st ys in
  Image.ii st' = foldl (table_row (Image.aget gray) width) (Image.ii st) ys
  /\ Image.ii2 st'
     = foldl (table_row (square_vals gray) width) (Image.ii2 st) ys.
Proof.
  cbv zeta. revert st. induction ys as [|y ys IH]; intros st; simpl.
  - done.
  - destruct (IH (Image.row_step gray width st y)) as [-> ->].
    unfold Image.row_step, table_row.
    destruct (column_step_tables gray width y (seqZ 0 width)
                (Image.mkII (fin 0) (fin 0) (Image.ii st) (Image.ii2 st)))
      as [H1 H2].
    simpl in H1, H2. rewrite <- H1, <- H2. done.
Qed.

(** ** Flat sums *)

Lemma sum_range_shift (f : Z -> Q) (d from len : Z) :
  sum_range (fun i => f (d + i)) from len = sum_range f (d + from) len.
Proof.
  unfold sum_range. rewrite <- fmap_add_seqZ.
  by rewrite (foldr_fmap (fun i acc => (f i + acc)%Q)).
Qed.

Lemma sum_range_total (l : list Q) :
  (sum_range (fun k => default 0 (l !! Z.to_nat k)) 0 (Z.of_nat (length l))
   == total l)%Q.
Proof.
  induction l as [|a l IH].
  - reflexivity.
  - cbn [length]. rewrite Nat2Z.inj_succ. unfold Z.succ.
    rewrite Z.add_comm. rewrite sum_range_app by lia.
    rewrite sum_range_one. simpl.
    apply Qplus_comp; [reflexivity|].
    rewrite <- IH. replace (0 + 1) with (1 + 0) by lia.
    rewrite <- sum_range_shift.
    apply sum_range_ext. intros i Hi.
    replace (Z.to_nat (1 + i)) with (S (Z.to_nat i)) by lia.
    reflexivity.
Qed.

Lemma pixel_sum_rows (gray : list Q) (width : Z) (m : nat) :
  0 <= width ->
  (pixel_sum gray width 0 0 width (Z.of_nat m)
   == sum_range (fun k => default 0 (gray !! Z.to_nat k)) 0
                (width * Z.of_nat m))%Q.
Proof.
  intros Hw. unfold pixel_sum. induction m as [|m IH].
  - simpl. rewrite !sum_range_nil by lia. reflexivity.
  - rewrite Nat2Z.inj_succ. unfold Z.succ.
    rewrite sum_range_snoc by lia. rewrite IH.
    replace (width * (Z.of_nat m + 1)) with (width * Z.of_nat m + width)
      by lia.
    rewrite (sum_range_app _ 0 (width * Z.of_nat m) width) by lia.
    apply Qplus_comp; [reflexivity|].
    unfold pixel.
    replace (0 + width * Z.of_nat m) with (width * Z.of_nat m + 0) by lia.
    rewrite <- (sum_range_shift _ (width * Z.of_nat m) 0 width).
    apply sum_range_ext. intros i _.
    replace ((0 + Z.of_nat m) * width + i)
      with (width * Z.of_nat m + i) by lia.
    reflexivity.
Qed.

Lemma pixel_sum_total (gray : list Q) (width height : Z) :
  0 <= width -> 0 <= height ->
  Z.of_nat (length gray) = width * height ->
  (pixel_sum gray width 0 0 width height == total gray)%Q.
Proof.
  intros Hw Hh Hlen.
  rewrite <- (Z2Nat.id height) by done.
  rewrite pixel_sum_rows by done.
  rewrite Z2Nat.id by done. rewrite <- Hlen.
  apply sum_range_total.
Qed.

(** ** computeIntegralImage on a finite image *)

Lemma aget_fin (pix : list Q) (i : Z) :
  0 <= i < Z.of_nat (length pix) ->
  Image.aget (fin <$> pix) i = Some (default 0%Q (pix !! Z.to_nat i)).
Proof.
  intros Hi. unfold Image.aget.
  destruct (Z.leb_spec 0 i); [|lia].
  rewrite list_lookup_fmap.
  destruct (lookup_lt_is_Some_2 pix (Z.to_nat i)) as [v ->]; [lia|done].
Qed.

Lemma square_vals_fin (pix : list Q) (i : Z) :
  0 <= i < Z.of_nat (length pix) ->
  square_vals (fin <$> pix) i
  = Some (default 0%Q ((square <$> pix) !! Z.to_nat i)).
Proof.
  intros Hi. unfold square_vals. rewrite aget_fin by done.
  rewrite list_lookup_fmap.
  destruct (lookup_lt_is_Some_2 pix (Z.to_nat i)) as [v ->]; [lia|done].
Qed.

(** Both tables hold the sums from the origin. *)
Lemma integral_tables (pix : list Q) (width height : Z) :
  0 <= width -> 0 <= height ->
  Z.of_nat (length pix) = width * height ->
  exists ii ii2,
    Image.computeIntegralImage (fin <$> pix) width height = Ret (ii, ii2)
    /\ Z.of_nat (length ii) = width * height
    /\ Z.of_nat (length ii2) = width * height
    /\ (forall x y, 0 <= x < width -> 0 <= y < height ->
          is_value (Image.aget ii (y * width + x))
                   (pixel_sum pix width 0 0 (x + 1) (y + 1)))
    /\ (forall x y, 0 <= x < width -> 0 <= y < height ->
          is_value (Image.aget ii2 (y * width + x))
                   (pixel_sum (square <$> pix) width 0 0 (x + 1) (y + 1))).
Proof.
  intros Hw Hh Hlen.
  unfold Image.computeIntegralImage, Image.new_Float32Array.
  destruct (Z.ltb_spec (width * height) 0) as [|_]; [nia|].
  simpl.
  set (zeros := replicate (Z.to_nat (width * height)) (fin 0)).
  assert (Hz : Z.of_nat (length zeros) = width * height).
  { unfold zeros. rewrite length_replicate. lia. }
  destruct (row_step_tables (fin <$> pix) width (seqZ 0 height)
              (Image.mkII (fin 0) (fin 0) zeros zeros)) as [H1 H2].
  cbv zeta in H1, H2. simpl in H1, H2.
  eexists _, _. split; [reflexivity|].
  rewrite H1, H2.
  rewrite <- (Z2Nat.id height) by done.
  destruct (table_rows (fun k => default 0%Q (pix !! Z.to_nat k))
              (Image.aget (fin <$> pix)) width height
              ltac:(intros i Hi; apply aget_fin; lia) Hw
              zeros (Z.to_nat height) Hz ltac:(lia)) as [Hl1 Hv1].
  destruct (table_rows (fun k => default 0%Q ((square <$> pix) !! Z.to_nat k))
              (square_vals (fin <$> pix)) width height
              ltac:(intros i Hi; apply square_vals_fin; lia) Hw
              zeros (Z.to_nat height) Hz ltac:(lia)) as [Hl2 Hv2].
  rewrite Z2Nat.id in * by done.
  split; [lia|]. split; [lia|]. split.
  - intros x y Hx Hy. apply (Hv1 x y Hx Hy).
  - intros x y Hx Hy. apply (Hv2 x y Hx Hy).
Qed.

(** On such tables [rectSum] is the sum of the covered pixels. *)
Lemma rectSum_pixels (pix : list Q) (t : list num) (width height x y w h : Z) :
  0 <= width ->
  Z.of_nat (length t) = width * height ->
  (forall x y, 0 <= x < width -> 0 <= y < height ->
     is_value (Image.aget t (y * width + x))
              (pixel_sum pix width 0 0 (x + 1) (y + 1))) ->
  inside width height x y w h ->
  is_value (Image.rectSum t width x y w h) (pixel_sum pix width x y w h).
Proof.
  intros Hw Hlen Ht Hin.
  apply (rectSum_table (fun k => default 0%Q (pix !! Z.to_nat k))
           width height t x y w h Hlen Ht Hin).
Qed.

Lemma is_value_equiv (a : num) (p q : Q) :
  is_value a p -> (p == q)%Q -> is_value a q.
Proof.
  destruct a as [s|]; simpl; [|done]. intros H1 H2. by rewrite H1.
Qed.

Lemma pixel_sum_single (pix : list Q) (width x y : Z) :
  (pixel_sum pix width x y 1 1 == pixel pix width x y)%Q.
Proof.
  unfold pixel_sum.
  etransitivity; [apply (sum_range_one _ y)|].
  apply (sum_range_one (fun i => pixel pix width i y) x).
Qed.



(** * Properties of js/haar.js *)

Lemma Qlt_bool_iff (p q : Q) : Qlt_bool p q = true <-> (p < q)%Q.
Proof.
  unfold Qlt_bool. rewrite negb_true_iff.
  destruct (Qle_bool q p) eqn:E.
  - apply Qle_bool_iff in E. split; [done|]. intros H. lra.
  - split; [|done]. intros _.
    destruct (Qlt_le_dec p q) as [|Hle]; [done|].
    apply Qle_bool_iff in Hle. congruence.
Qed.

Lemma Qlt_bool_false_iff (p q : Q) : Qlt_bool p q = false <-> (q <= p)%Q.
Proof.
  unfold Qlt_bool. rewrite negb_false_iff. apply Qle_bool_iff.
Qed.

Lemma sqrt_6dp_ge_1 (q : Q) : (1 <= q)%Q -> (1 <= sqrt_6dp q)%Q.
Proof.
  intros Hq. unfold sqrt_6dp.
  assert (H : 1000000 <= Z.sqrt (Qfloor (q * 1000000000000))).
  { change 1000000 with (Z.sqrt 1000000000000) at 1.
    apply Z.sqrt_le_mono.
    change 1000000000000 with (Qfloor (inject_Z 1000000000000)) at 1.
    apply Qfloor_resp_le.
    change (inject_Z 1000000000000) with (1000000000000)%Q. lra. }
  apply Qle_shift_div_l; [reflexivity|].
  rewrite Qmult_1_l.
  change 1000000%Q with (inject_Z 1000000).
  by rewrite <- Zle_Qle.
Qed.

(** ** evaluateStage *)

Lemma stage_sum_votes (features : list Haar.HaarFeature) (ii : list num)
      (imageWidth wx wy : Z) (scale : Q) (invArea stdDev : num)
      (wcs : list Haar.WeakClassifier) (sum : Q) :
  Forall (fun wc => is_Some (features !! Haar.featureIndex wc)) wcs ->
  exists sum',
    Haar.stage_sum features ii imageWidth wx wy scale invArea stdDev wcs sum
    = Ret sum'
    /\ (sum' == sum + total (vote features ii imageWidth wx wy scale
                                  invArea stdDev <$> wcs))%Q.
Proof.
  intros Hvalid. revert sum.
  induction Hvalid as [|wc wcs [feature Hf] _ IH]; intros sum;
    cbn [Haar.stage_sum].
  - exists sum. split; [done|]. rewrite fmap_nil. unfold total. simpl. ring.
  - rewrite Hf.
    edestruct IH as (sum' & -> & Hsum'). exists sum'. split; [done|].
    rewrite Hsum', fmap_cons.
    change (total (?a :: ?l)) with (a + total l)%Q.
    unfold vote at 2. rewrite Hf. ring.
Qed.

Lemma evaluateStage_threshold (stage : Haar.Stage)
      (features : list Haar.HaarFeature) (ii : list num)
      (imageWidth wx wy : Z) (scale : Q) (invArea stdDev : num) :
  indices_valid features stage ->
  exists pass,
    Haar.evaluateStage stage features ii imageWidth wx wy scale invArea stdDev
    = Ret pass
    /\ (pass = true <->
        (Haar.stageThreshold stage
         <= total (vote features ii imageWidth wx wy scale invArea stdDev
                   <$> Haar.weakClassifiers stage))%Q).
Proof.
  intros Hvalid. unfold Haar.evaluateStage.
  destruct (stage_sum_votes features ii imageWidth wx wy scale invArea stdDev
              (Haar.weakClassifiers stage) 0%Q Hvalid) as (sum & -> & Hsum).
  eexists. split; [reflexivity|].
  rewrite Qle_bool_iff, Hsum. rewrite Qplus_0_l. reflexivity.
Qed.

(** ** Window statistics *)

Lemma Qeq_bool_nonzero (q : Q) : ~ (q == 0)%Q -> Qeq_bool q 0 = false.
Proof.
  intros Hq. destruct (Qeq_bool q 0) eqn:E; [|done].
  by apply Qeq_bool_iff in E.
Qed.

Lemma inject_Z_nonzero (z : Z) : z <> 0 -> ~ (inject_Z z == 0)%Q.
Proof.
  intros Hz H. apply Hz. unfold Qeq in H. simpl in H. lia.
Qed.

Lemma aget_finite (t : list num) (i : Z) :
  Forall is_Some t -> 0 <= i < Z.of_nat (length t) -> is_Some (Image.aget t i).
Proof.
  intros Hfin Hi. rewrite aget_in_range by done.
  destruct (lookup_lt_is_Some_2 t (Z.to_nat i)) as [v Hv]; [lia|].
  rewrite (list_lookup_total_correct _ _ _ Hv).
  exact (Forall_lookup_1 is_Some t _ v Hfin Hv).
Qed.

Lemma rectSum_finite (t : list num) (width height x y w h : Z) :
  finite_table t width height ->
  inside width height x y w h ->
  is_Some (Image.rectSum t width x y w h).
Proof.
  intros [Hlen Hfin] Hin.
  pose proof (rectSum_reads_inside t width height x y w h Hlen Hin) as Hreads.
  destruct Hin as (Hx & Hy & Hw & Hh & Hxw & Hyh).
  unfold Image.rectSum, Image.rectSum_reads, Image.in_buffer in *.
  destruct (Z.ltb_spec x 0), (Z.ltb_spec y 0),
           (Z.leb_spec w 0), (Z.leb_spec h 0); simpl orb in *; try lia.
  destruct (Z.ltb_spec (x + w - 1) 0), (Z.ltb_spec (y + h - 1) 0);
    simpl orb in *; try lia.
  cbv zeta in *.
  assert (forall i, i ∈ [(y + h - 1) * width + (x + w - 1)]
                        ++ (if 0 <? x then [(y + h - 1) * width + (x - 1)]
                            else [])
                        ++ (if 0 <? y then [(y - 1) * width + (x + w - 1)]
                            else [])
                        ++ (if (0 <? x) && (0 <? y)
                            then [(y - 1) * width + (x - 1)] else []) ->
                    is_Some (Image.aget t i)) as Hget.
  { intros i Hi. apply aget_finite; [done|].
    rewrite Forall_forall in Hreads. by apply Hreads. }
  destruct (Hget ((y + h - 1) * width + (x + w - 1))) as [d ->];
    [set_solver|].
  destruct (0 <? x), (0 <? y); simpl andb in *.
  - destruct (Hget ((y + h - 1) * width + (x - 1))) as [c ->]; [set_solver|].
    destruct (Hget ((y - 1) * width + (x + w - 1))) as [b ->]; [set_solver|].
    destruct (Hget ((y - 1) * width + (x - 1))) as [a ->]; [set_solver|].
    simpl. eauto.
  - destruct (Hget ((y + h - 1) * width + (x - 1))) as [c ->]; [set_solver|].
    simpl. eauto.
  - destruct (Hget ((y - 1) * width + (x + w - 1))) as [b ->]; [set_solver|].
    simpl. eauto.
  - simpl. eauto.
Qed.

Lemma window_variance_finite (ii ii2 : list num) (width height : Z)
      (wx wy winW winH : Z) :
  finite_table ii width height ->
  finite_table ii2 width height ->
  inside width height wx wy winW winH ->
  is_Some (Haar.window_variance ii ii2 width wx wy winW winH).
Proof.
  intros Hii Hii2 Hin.
  destruct (rectSum_finite ii width height wx wy winW winH Hii Hin)
    as [s Hs].
  destruct (rectSum_finite ii2 width height wx wy winW winH Hii2 Hin)
    as [s2 Hs2].
  unfold Haar.window_variance, Haar.window_mean, Haar.window_area.
  rewrite Hs, Hs2. simpl.
  assert (Qeq_bool (inject_Z (winW * winH)) 0 = false) as ->.
  { apply Qeq_bool_nonzero. apply inject_Z_nonzero.
    unfold inside in Hin. nia. }
  simpl. eauto.
Qed.

(** ** evaluateCascade *)

Section CascadeLoop.

Variables (features : list Haar.HaarFeature) (ii : list num).
Variables (imageWidth wx wy : Z) (scale : Q) (invArea stdDev : num).

Let passes (stage : Haar.Stage) : Prop :=
  Haar.evaluateStage stage features ii imageWidth wx wy scale invArea stdDev
  = Ret true.

Let run (sts : list Haar.Stage) : list Haar.Stage * Run bool :=
  Haar.cascade_stages features ii imageWidth wx wy scale invArea stdDev sts.

Lemma cascade_stages_true (sts : list Haar.Stage) :
  snd (run sts) = Ret true <-> Forall passes sts.
Proof.
  unfold run, passes. induction sts as [|stage sts IH]; simpl.
  - split; [constructor|done].
  - destruct (Haar.evaluateStage stage features ii imageWidth wx wy scale
                                 invArea stdDev) as [[|]| |] eqn:E.
    + destruct (Haar.cascade_stages _ _ _ _ _ _ _ _ sts) as [seen r].
      simpl in *. rewrite IH. split.
      * intros H. by constructor.
      * intros H. by inversion H.
    + simpl. split; [done|]. intros H. inversion H. congruence.
    + simpl. split; [done|]. intros H. inversion H. congruence.
    + simpl. split; [done|]. intros H. inversion H. congruence.
Qed.

Lemma cascade_stages_all (sts : list Haar.Stage) :
  Forall passes sts -> run sts = (sts, Ret true).
Proof.
  unfold run, passes. induction 1 as [|stage sts Hp _ IH]; simpl.
  - done.
  - rewrite Hp, IH. done.
Qed.

Lemma cascade_stages_first_fail (sts : list Haar.Stage) (k : nat)
      (stage : Haar.Stage) :
  sts !! k = Some stage ->
  Forall passes (take k sts) ->
  Haar.evaluateStage stage features ii imageWidth wx wy scale invArea stdDev
  = Ret false ->
  run sts = (take (S k) sts, Ret false).
Proof.
  unfold run, passes. revert k.
  induction sts as [|st sts IH]; intros k Hk Hbefore Hfail.
  - done.
  - destruct k as [|k]; simpl in *.
    + injection Hk as ->. rewrite Hfail. by rewrite take_0.
    + inversion Hbefore as [|? ? Hp Hrest]; subst.
      rewrite Hp, (IH k Hk Hrest Hfail). done.
Qed.

End CascadeLoop.

Section CascadeContract.

Variable Math_sqrt : Q -> Q.
Hypothesis Math_sqrt_ge_1 : forall q, (1 <= q)%Q -> (1 <= Math_sqrt q)%Q.

Lemma stdDev_of_variance (v : Q) :
  exists s, Haar.nsqrt Math_sqrt (nmax (Some v) (fin 1)) = Some s
            /\ s = Math_sqrt (Qmax v 1)
            /\ (1 <= s)%Q
            /\ forall p, ndiv (fin p) (Some s) = fin (p / s).
Proof.
  exists (Math_sqrt (Qmax v 1)).
  assert (H1 : (1 <= Qmax v 1)%Q) by apply Q.le_max_r.
  assert (Hs : (1 <= Math_sqrt (Qmax v 1))%Q) by auto.
  split.
  - simpl. destruct (Qlt_bool (Qmax v 1) 0) eqn:E; [|done].
    apply Qlt_bool_iff in E. lra.
  - split; [done|]. split; [done|]. intros p. simpl.
    rewrite Qeq_bool_nonzero; [done|]. intros H0. rewrite H0 in Hs. lra.
Qed.

(** C4: [evaluateCascade] normalizes with
    [stdDev = sqrt(max(variance, 1))]; on a window inside an image with
    finite tables the variance is finite, [stdDev] is at least 1 and
    dividing by it is defined.  The cascade returns true exactly when
    every stage passes, and when stage [k] is the first to fail it returns
    false having evaluated the stages up to [k] only. *)
Theorem evaluateCascade_contract (cascade : Haar.Cascade)
        (features : list Haar.HaarFeature) (ii ii2 : list num)
        (imageWidth wx wy : Z) (scale : Q) (winW winH : Z) :
  let variance := Haar.window_variance ii ii2 imageWidth wx wy winW winH in
  let stdDev := Haar.window_stdDev Math_sqrt ii ii2 imageWidth wx wy
                                   winW winH in
  let invArea := Haar.window_invArea winW winH in
  let passes := fun stage =>
    Haar.evaluateStage stage features ii imageWidth wx wy scale invArea stdDev
    = Ret true in
  stdDev = Haar.nsqrt Math_sqrt (nmax variance (fin 1))
  /\ (forall v, variance = Some v ->
        exists s, stdDev = Some s /\ s = Math_sqrt (Qmax v 1)
                  /\ (1 <= s)%Q
                  /\ forall p, ndiv (fin p) stdDev = fin (p / s))
  /\ (forall height,
        finite_table ii imageWidth height ->
        finite_table ii2 imageWidth height ->
        inside imageWidth height wx wy winW winH ->
        is_Some variance)
  /\ (Haar.evaluateCascade Math_sqrt cascade features ii ii2 imageWidth
                           wx wy scale winW winH = Ret true
      <-> Forall passes (Haar.stages cascade))
  /\ (forall k stage,
        Haar.stages cascade !! k = Some stage ->
        Forall passes (take k (Haar.stages cascade)) ->
        Haar.evaluateStage stage features ii imageWidth wx wy scale
                           invArea stdDev = Ret false ->
        Haar.evaluateCascade_log Math_sqrt cascade features ii ii2 imageWidth
                                 wx wy scale winW winH
        = (take (S k) (Haar.stages cascade), Ret false)).
Proof.
  cbv zeta. split; [reflexivity|]. split.
  { intros v Hv. unfold Haar.window_stdDev. rewrite Hv.
    destruct (stdDev_of_variance v) as (s & Hs & Hrest).
    exists s. rewrite Hs. split; [done|]. exact Hrest. }
  split.
  { intros height. apply window_variance_finite. }
  split.
  - unfold Haar.evaluateCascade, Haar.evaluateCascade_log.
    apply cascade_stages_true.
  - intros k stage. unfold Haar.evaluateCascade_log.
    apply cascade_stages_first_fail.
Qed.

End CascadeContract.

Lemma evaluateCascade_contract_witness :
  let ii := [fin 1; fin 3; fin 4; fin 10] in
  let ii2 := [fin 1; fin 5; fin 10; fin 30] in
  (exists s, Haar.window_stdDev sqrt_6dp ii ii2 2 0 0 2 2 = Some s
             /\ (1 <= s)%Q)
  /\ Haar.evaluateCascade_log sqrt_6dp guarded_cascade [null_feature]
                              ii ii2 2 0 0 1 2 2
     = ([rejecting_stage], Ret false).
Proof.
  intros ii ii2.
  destruct (evaluateCascade_contract sqrt_6dp sqrt_6dp_ge_1 guarded_cascade
              [null_feature] ii ii2 2 0 0 1 2 2)
    as (_ & Hstd & Hfin & _ & Hfail).
  split.
  - destruct (Hfin 2) as [v Hv].
    + split; [reflexivity|]. repeat constructor; eauto.
    + split; [reflexivity|]. repeat constructor; eauto.
    + unfold inside. lia.
    + destruct (Hstd v Hv) as (s & Hs & _ & Hge & _). eauto.
  - apply (Hfail 0%nat rejecting_stage).
    + reflexivity.
    + constructor.
    + vm_compute. reflexivity.
Defined.

(** * Properties of non-maximum suppression (js/detector.js) *)

Import Detector.

(** ** computeIOU *)

Lemma computeIOU_sym (a b : Detection) : computeIOU a b = computeIOU b a.
Proof.
  unfold computeIOU.
  rewrite (Z.max_comm (det_x a)), (Z.max_comm (det_y a)).
  rewrite (Z.min_comm (det_x a + det_w a)), (Z.min_comm (det_y a + det_h a)).
  rewrite (Z.add_comm (det_w a * det_h a)). reflexivity.
Qed.

Lemma overlaps_sym (thr : Q) (a b : Detection) :
  overlaps thr a b = overlaps thr b a.
Proof. unfold overlaps. by rewrite computeIOU_sym. Qed.

(** ** The stable sort *)

Section Sort.

Context {A : Type} (key : A -> Z).

Let cmp (a b : A) : Z := key b - key a.
Let desc (a b : A) : Prop := key b <= key a.

Lemma sort_insert_Permutation (a : A) (l : list A) :
  sort_insert cmp a l ≡ₚ a :: l.
Proof.
  induction l as [|b l IH]; simpl; [done|].
  destruct (cmp a b <=? 0); [done|].
  rewrite IH. apply Permutation_swap.
Qed.

Lemma array_sort_Permutation (l : list A) : array_sort cmp l ≡ₚ l.
Proof.
  induction l as [|a l IH]; simpl; [done|].
  by rewrite sort_insert_Permutation, IH.
Qed.

Lemma sort_insert_sorted (a : A) (l : list A) :
  StronglySorted desc l -> StronglySorted desc (sort_insert cmp a l).
Proof.
  induction 1 as [|b l Hl IH Hb]; simpl.
  - repeat constructor.
  - unfold cmp at 1. destruct (Z.leb_spec (key b - key a) 0).
    + constructor; [by constructor|].
      constructor; [unfold desc; lia|].
      eapply Forall_impl; [exact Hb|]. unfold desc. intros; lia.
    + constructor; [done|].
      rewrite sort_insert_Permutation. constructor; [unfold desc; lia|done].
Qed.

Lemma array_sort_sorted (l : list A) : StronglySorted desc (array_sort cmp l).
Proof.
  induction l as [|a l IH]; simpl; [constructor|].
  by apply sort_insert_sorted.
Qed.

(** Elements with the same key keep their relative order. *)
Lemma sort_insert_filter (v : Z) (a : A) (l : list A) :
  StronglySorted desc l ->
  filter (fun d => key d = v) (sort_insert cmp a l)
  = filter (fun d => key d = v) (a :: l).
Proof.
  induction 1 as [|b l Hl IH Hb]; simpl; [done|].
  unfold cmp at 1. destruct (Z.leb_spec (key b - key a) 0); [done|].
  rewrite !filter_cons in *.
  destruct (decide (key b = v)), (decide (key a = v)); try lia;
    rewrite ?IH; done.
Qed.

Lemma array_sort_stable (v : Z) (l : list A) :
  filter (fun d => key d = v) (array_sort cmp l)
  = filter (fun d => key d = v) l.
Proof.
  induction l as [|a l IH]; simpl; [done|].
  rewrite sort_insert_filter by apply array_sort_sorted.
  rewrite !filter_cons. by rewrite IH.
Qed.

(** A list already in order is left as it is. *)
Lemma array_sort_sorted_id (l : list A) :
  StronglySorted desc l -> array_sort cmp l = l.
Proof.
  induction 1 as [|a l Hl IH Ha]; simpl; [done|].
  rewrite IH. destruct Ha as [|b l' Hab _]; simpl; [done|].
  unfold cmp. destruct (Z.leb_spec (key b - key a) 0); [done|].
  unfold desc in Hab. lia.
Qed.

End Sort.

(** ** The greedy walk *)

Lemma existsb_overlaps_false (thr : Q) (keep : list Detection) (d : Detection) :
  existsb (fun k => overlaps thr k d) keep = false
  <-> Forall (fun k => overlaps thr k d = false) keep.
Proof.
  induction keep as [|k keep IH]; simpl.
  - split; [constructor|done].
  - rewrite orb_false_iff, IH. split.
    + intros [? ?]. by constructor.
    + intros H. by inversion H.
Qed.

Lemma compatible_snoc (thr : Q) (l : list Detection) (d : Detection) :
  compatible thr (l ++ [d])
  <-> compatible thr l /\ Forall (fun k => overlaps thr k d = false) l.
Proof.
  induction l as [|a l IH]; simpl.
  - split; [intros _; split; [done|constructor]|done].
  - rewrite IH, Forall_app, !Forall_cons, Forall_nil. tauto.
Qed.

Lemma compatible_lookup (thr : Q) (l : list Detection) (i j : nat)
      (a b : Detection) :
  compatible thr l -> (i < j)%nat ->
  l !! i = Some a -> l !! j = Some b -> overlaps thr a b = false.
Proof.
  revert i j. induction l as [|c l IH]; intros i j Hcomp Hij Hi Hj.
  - done.
  - destruct Hcomp as [Hc Hl].
    destruct j as [|j]; [lia|]. destruct i as [|i]; simpl in *.
    + injection Hi as ->.
      exact (Forall_lookup_1 _ _ _ _ Hc Hj).
    + apply (IH i j); [done|lia|done|done].
Qed.

Lemma greedy_walk_extends (thr : Q) (ds keep : list Detection) :
  exists ks, greedy_walk thr keep ds = keep ++ ks /\ ks `sublist_of` ds.
Proof.
  revert keep. induction ds as [|d ds IH]; intros keep; simpl.
  - exists []. by rewrite app_nil_r.
  - destruct (existsb _ keep).
    + destruct (IH keep) as (ks & -> & Hks).
      exists ks. split; [done|]. by apply sublist_cons.
    + destruct (IH (keep ++ [d])) as (ks & -> & Hks).
      exists (d :: ks). rewrite <- app_assoc. split; [done|].
      by apply sublist_skip.
Qed.

Lemma greedy_walk_compatible (thr : Q) (ds keep : list Detection) :
  compatible thr keep -> compatible thr (greedy_walk thr keep ds).
Proof.
  revert keep. induction ds as [|d ds IH]; intros keep Hkeep; simpl.
  - done.
  - destruct (existsb _ keep) eqn:E.
    + by apply IH.
    + apply IH. apply compatible_snoc. split; [done|].
      by apply existsb_overlaps_false.
Qed.

(** Nothing is dropped from a list that is compatible already. *)
Lemma greedy_walk_fixpoint (thr : Q) (ds keep : list Detection) :
  compatible thr (keep ++ ds) -> greedy_walk thr keep ds = keep ++ ds.
Proof.
  revert keep. induction ds as [|d ds IH]; intros keep Hc; simpl.
  - by rewrite app_nil_r.
  - replace (keep ++ d :: ds) with ((keep ++ [d]) ++ ds) in *
      by (by rewrite <- app_assoc).
    assert (Hd : compatible thr (keep ++ [d])).
    { clear IH. revert Hc. generalize (keep ++ [d]). intros l.
      induction l as [|a l IHl]; simpl; [done|].
      rewrite Forall_app. intros [[? _] ?]. auto. }
    apply compatible_snoc in Hd as [_ Hd].
    apply existsb_overlaps_false in Hd. rewrite Hd. by apply IH.
Qed.

(** ** The loops of nonMaximumSuppression *)

Section Loops.

Variables (l : list Detection) (thr : Q).

Lemma suppress_loop (i : nat) (m a : nat) (suppressed : gset nat) (j : nat) :
  j ∈ foldl (suppress_step l thr i) suppressed (seq a m)
  <-> j ∈ suppressed
      \/ ((a <= j < a + m)%nat /\ overlaps thr (l !!! i) (l !!! j) = true).
Proof.
  revert a suppressed. induction m as [|m IH]; intros a suppressed; simpl.
  - split; [auto|]. intros [?|[? _]]; [done|lia].
  - rewrite IH. unfold suppress_step.
    fold (overlaps thr (l !!! i) (l !!! a)).
    destruct (decide (a ∈ suppressed)) as [Ha|Ha];
      [|destruct (overlaps thr (l !!! i) (l !!! a)) eqn:E;
        rewrite ?elem_of_union, ?elem_of_singleton];
      (destruct (decide (j = a)) as [->|Hja];
       [|intuition lia]); intuition (try lia; try congruence).
Qed.

Lemma keep_loop (m i : nat) (keep : list Detection) (suppressed : gset nat) :
  (i + m)%nat = length l ->
  (forall j, (i <= j < length l)%nat ->
             j ∈ suppressed
             <-> existsb (fun k => overlaps thr k (l !!! j)) keep = true) ->
  fst (foldl (keep_step l thr) (keep, suppressed) (seq i m))
  = greedy_walk thr keep (drop i l).
Proof.
  revert i keep suppressed.
  induction m as [|m IH]; intros i keep suppressed Hlen Hinv; simpl.
  - rewrite drop_ge by lia. done.
  - destruct (lookup_lt_is_Some_2 l i) as [d Hd]; [lia|].
    rewrite (drop_S _ _ _ Hd). simpl.
    rewrite (list_lookup_total_correct _ _ _ Hd) in *.
    pose proof (Hinv i ltac:(lia)) as Hi.
    rewrite (list_lookup_total_correct _ _ _ Hd) in Hi.
    destruct (decide (i ∈ suppressed)) as [Hs|Hs].
    + pose proof (proj1 Hi Hs) as ->. apply IH; [lia|].
      intros j Hj. apply Hinv. lia.
    + destruct (existsb _ keep) eqn:E; [by destruct Hs; apply Hi|].
      apply IH; [lia|].
      intros j Hj. rewrite suppress_loop.
      rewrite existsb_app. simpl. rewrite orb_false_r.
      rewrite orb_true_iff, <- Hinv by lia.
      rewrite (list_lookup_total_correct _ _ _ Hd).
      split; [intros [?|[_ ?]]; auto|].
      intros [?|?]; [auto|]. right. split; [lia|done].
Qed.

End Loops.

(** [nonMaximumSuppression] is the greedy walk over the sorted list. *)
Lemma nonMaximumSuppression_greedy (ds : list Detection) (thr : Q) :
  nonMaximumSuppression ds thr
  = greedy_walk thr [] (array_sort by_area_desc ds).
Proof.
  unfold nonMaximumSuppression.
  destruct (decide (length ds = 0%nat)) as [H0|Hn].
  - apply length_zero_iff_nil in H0 as ->. done.
  - rewrite (keep_loop _ thr (length (array_sort by_area_desc ds)) 0).
    + by rewrite drop_0.
    + done.
    + intros j _. simpl. split; [set_solver|done].
Qed.

(** ** The kept detections *)

Lemma StronglySorted_sublist {A} (R : relation A) (l1 l2 : list A) :
  l1 `sublist_of` l2 -> StronglySorted R l2 -> StronglySorted R l1.
Proof.
  induction 1 as [|x l1 l2 Hsub IH|x l1 l2 Hsub IH]; intros Hs.
  - constructor.
  - apply StronglySorted_inv in Hs as [Hs Hx]. constructor; [auto|].
    rewrite Forall_forall in *. intros y Hy. apply Hx.
    by apply (sublist_subseteq _ _ Hsub).
  - apply StronglySorted_inv in Hs as [Hs _]. auto.
Qed.

Lemma nonMaximumSuppression_sublist (ds : list Detection) (thr : Q) :
  nonMaximumSuppression ds thr `sublist_of` array_sort by_area_desc ds.
Proof.
  rewrite nonMaximumSuppression_greedy.
  destruct (greedy_walk_extends thr (array_sort by_area_desc ds) [])
    as (ks & -> & Hks). done.
Qed.

Lemma nonMaximumSuppression_compatible (ds : list Detection) (thr : Q) :
  compatible thr (nonMaximumSuppression ds thr).
Proof.
  rewrite nonMaximumSuppression_greedy. by apply greedy_walk_compatible.
Qed.

Lemma nonMaximumSuppression_subset (ds : list Detection) (thr : Q) :
  nonMaximumSuppression ds thr ⊆ ds.
Proof.
  intros d Hd.
  apply (sublist_subseteq _ _ (nonMaximumSuppression_sublist ds thr)) in Hd.
  by rewrite (array_sort_Permutation area ds : array_sort by_area_desc ds ≡ₚ ds)
    in Hd.
Qed.

(** C7: any two detections at different positions of the output of
    non-maximum suppression with threshold 0.3 have IoU at most 0.3; the
    output is the greedy walk over the input sorted by area, largest
    first, by a stable sort (a permutation of the input, in order, that
    keeps detections of the same area in their original order); of the two
    equal-area detections of scenario B, whose IoU is 81/119 (about
    0.68), exactly the first is kept. *)
Theorem nms_kept_overlap (ds : list Detection) :
  let kept := nonMaximumSuppression ds default_overlapThreshold in
  let sorted := array_sort by_area_desc ds in
  (forall i j a b, i <> j -> kept !! i = Some a -> kept !! j = Some b ->
                   (computeIOU a b <= 3 # 10)%Q)
  /\ kept = greedy_walk default_overlapThreshold [] sorted
  /\ sorted ≡ₚ ds
  /\ StronglySorted area_desc sorted
  /\ (forall v, filter (fun d => area d = v) sorted
                = filter (fun d => area d = v) ds)
  /\ (forall s1 s2,
        let first := mkDet 0 0 100 100 s1 in
        let second := mkDet 10 10 100 100 s2 in
        area first = area second
        /\ computeIOU first second = (8100 # 11900)%Q
        /\ nonMaximumSuppression [first; second] default_overlapThreshold
           = [first]).
Proof.
  cbv zeta. split; [|split; [|split; [|split; [|split]]]].
  - intros i j a b Hij Hi Hj.
    pose proof (nonMaximumSuppression_compatible ds default_overlapThreshold)
      as Hc.
    apply Qlt_bool_false_iff.
    destruct (decide (i < j)%nat) as [Hlt|Hge].
    + exact (compatible_lookup _ _ i j a b Hc Hlt Hi Hj).
    + rewrite computeIOU_sym.
      exact (compatible_lookup _ _ j i b a Hc ltac:(lia) Hj Hi).
  - apply nonMaximumSuppression_greedy.
  - apply (array_sort_Permutation area).
  - apply (array_sort_sorted area).
  - intros v. apply (array_sort_stable area).
  - intros s1 s2. split; [reflexivity|]. split; [reflexivity|].
    vm_compute. reflexivity.
Qed.

Lemma nms_kept_overlap_witness :
  (computeIOU (mkDet 0 0 100 100 1) (mkDet 200 200 50 50 2) <= 3 # 10)%Q.
Proof.
  destruct (nms_kept_overlap
              [mkDet 200 200 50 50 2; mkDet 0 0 100 100 1;
               mkDet 10 10 100 100 1]) as [H _].
  apply (H 0%nat 1%nat); [lia | reflexivity | reflexivity].
Defined.

(** C8: non-maximum suppression applied to its own output returns that
    output unchanged. *)
Theorem nms_idempotent (ds : list Detection) (thr : Q) :
  nonMaximumSuppression (nonMaximumSuppression ds thr) thr
  = nonMaximumSuppression ds thr.
Proof.
  set (kept := nonMaximumSuppression ds thr).
  rewrite nonMaximumSuppression_greedy.
  assert (Hsorted : StronglySorted area_desc kept).
  { eapply StronglySorted_sublist.
    - apply nonMaximumSuppression_sublist.
    - apply (array_sort_sorted area). }
  rewrite (array_sort_sorted_id area kept Hsorted
           : array_sort by_area_desc kept = kept).
  apply (greedy_walk_fixpoint thr kept []).
  apply nonMaximumSuppression_compatible.
Qed.

(** * Properties of the face selection (js/main.js) *)

Import Main.

Lemma pick_larger_fold (rest : list Detection) (first : Detection) :
  let d := foldl pick_larger first rest in
  d ∈ first :: rest /\ forall e, e ∈ first :: rest -> area e <= area d.
Proof.
  cbv zeta. revert first.
  induction rest as [|c rest IH]; intros first; simpl.
  - split; [set_solver|]. intros e He.
    apply list_elem_of_singleton in He as ->. lia.
  - destruct (IH (pick_larger first c)) as [Hin Hmax].
    assert (Hpick : pick_larger first c ∈ [first; c]
                    /\ area first <= area (pick_larger first c)
                    /\ area c <= area (pick_larger first c)).
    { unfold pick_larger, area.
      destruct (Z.ltb_spec (det_w first * det_h first)
                           (det_w c * det_h c));
        (split; [rewrite !elem_of_cons; auto|lia]). }
    destruct Hpick as (Hp & Hf & Hc). split.
    + apply elem_of_cons in Hin as [->|Hin]; [|by do 2 right].
      apply elem_of_cons in Hp as [->|Hp]; [left|right].
      by apply list_elem_of_singleton in Hp as ->; left.
    + intros e He.
      assert (Hm := Hmax (pick_larger first c) ltac:(left)).
      apply elem_of_cons in He as [->|He]; [lia|].
      apply elem_of_cons in He as [->|He]; [lia|].
      apply Hmax. by right.
Qed.

Lemma match_step_fold (previous : Detection) (ds : list Detection)
      (bestMatch : option Detection) (bestScore : Q) :
  let st := foldl (match_step previous) (bestMatch, bestScore) ds in
  (bestScore <= snd st)%Q
  /\ (forall d, d ∈ ds -> (calculateIoU previous d <= snd st)%Q)
  /\ (st = (bestMatch, bestScore)
      \/ exists d, d ∈ ds /\ st = (Some d, calculateIoU previous d)
                   /\ (bestScore < calculateIoU previous d)%Q).
Proof.
  cbv zeta. revert bestMatch bestScore.
  induction ds as [|c ds IH]; intros bestMatch bestScore; simpl.
  - split; [lra|]. split; [set_solver|]. by left.
  - destruct (Qlt_bool bestScore (calculateIoU previous c)) eqn:E.
    + apply Qlt_bool_iff in E.
      destruct (IH (Some c) (calculateIoU previous c)) as (Hle & Hall & Hst).
      split; [lra|]. split.
      * intros d Hd. apply elem_of_cons in Hd as [->|Hd]; auto.
      * right. destruct Hst as [->|(d & Hd & -> & Hlt)].
        -- exists c. split; [left|done].
        -- exists d. split; [by right|]. split; [done|lra].
    + apply Qlt_bool_false_iff in E.
      destruct (IH bestMatch bestScore) as (Hle & Hall & Hst).
      split; [done|]. split.
      * intros d Hd. apply elem_of_cons in Hd as [->|Hd]; [lra|auto].
      * destruct Hst as [->|(d & Hd & -> & Hlt)]; [by left|].
        right. exists d. split; [by right|done].
Qed.

(** C9: [selectBestFace] returns nothing exactly on an empty list;
    without a previous box it returns a candidate of largest area; with a
    previous box it returns a candidate of maximum IoU with it when some
    candidate reaches 0.1, and when every candidate is below 0.1 it
    returns what it returns without a previous box, a candidate of
    largest area. *)
Theorem selectBestFace_contract (detections : list Detection)
        (previousBox : option Detection) :
  let largest := fun d =>
    d ∈ detections /\ forall e, e ∈ detections -> area e <= area d in
  (selectBestFace detections previousBox = None <-> detections = [])
  /\ (detections <> [] -> previousBox = None ->
      exists d, selectBestFace detections previousBox = Some d /\ largest d)
  /\ (forall previous, detections <> [] -> previousBox = Some previous ->
      ((exists c, c ∈ detections /\ (1 # 10 <= calculateIoU previous c)%Q) ->
       exists d, selectBestFace detections previousBox = Some d
                 /\ d ∈ detections
                 /\ forall e, e ∈ detections ->
                      (calculateIoU previous e <= calculateIoU previous d)%Q)
      /\ ((forall c, c ∈ detections ->
                     (calculateIoU previous c < 1 # 10)%Q) ->
          exists d, selectBestFace detections previousBox = Some d
                    /\ largest d
                    /\ selectBestFace detections None = Some d)).
Proof.
  cbv zeta. destruct detections as [|first rest].
  - split; [done|]. split; [done|]. intros; done.
  - pose proof (pick_larger_fold rest first) as Hlargest.
    cbv zeta in Hlargest.
    split; [|split].
    + split; [|done]. unfold selectBestFace.
      destruct previousBox as [previous|]; [|done].
      destruct (foldl (match_step previous) _ _) as [[best|] score]; [|done].
      by destruct (Qlt_bool score (1 # 10)).
    + intros _ ->. eexists. split; [reflexivity|]. exact Hlargest.
    + intros previous _ ->. unfold selectBestFace.
      destruct (match_step_fold previous (first :: rest) None 0%Q)
        as (_ & Hall & Hst).
      cbv zeta in Hall, Hst.
      destruct (foldl (match_step previous) (None, 0%Q) (first :: rest))
        as [bestMatch bestScore] eqn:Efold.
      simpl in Hall. split.
      * intros (c & Hc & Hgood).
        pose proof (Hall c Hc) as Hcb.
        destruct Hst as [Hinit|(d & Hd & Heq & _)].
        -- injection Hinit as -> ->. lra.
        -- injection Heq as -> ->.
           destruct (Qlt_bool (calculateIoU previous d) (1 # 10)) eqn:E.
           ++ apply Qlt_bool_iff in E. lra.
           ++ exists d. split; [done|]. split; [done|]. exact Hall.
      * intros Hweak. eexists. split; [|split; [exact Hlargest|reflexivity]].
        destruct Hst as [Hinit|(d & Hd & Heq & _)].
        -- by injection Hinit as -> ->.
        -- injection Heq as -> ->.
           pose proof (Hweak d Hd) as Hlt.
           apply Qlt_bool_iff in Hlt. by rewrite Hlt.
Qed.

Lemma selectBestFace_contract_witness :
  let previous := mkDet 50 50 60 60 1 in
  let near := mkDet 52 51 58 59 1 in
  let far := mkDet 500 500 200 200 2 in
  exists d, selectBestFace [near; far] (Some previous) = Some d
            /\ d ∈ [near; far]
            /\ forall e, e ∈ [near; far] ->
                 (calculateIoU previous e <= calculateIoU previous d)%Q.
Proof.
  intros previous near far.
  destruct (selectBestFace_contract [near; far] (Some previous))
    as (_ & _ & H).
  destruct (H previous ltac:(done) eq_refl) as [Hbest _].
  apply Hbest. exists near. split; [left|].
  vm_compute. discriminate.
Defined.

(** * Properties of the multi-scale scan (js/detector.js) *)

(** ** What a finished scan has recorded *)

Section ScanInvariant.

Variable Math_sqrt : Q -> Q.
Variables (cascade : Haar.Cascade) (features : list Haar.HaarFeature).
Variables (ii ii2 : list num) (width height : Z).
Variable minSize : Q.

Local Abbreviation ok :=
  (recorded_ok Math_sqrt cascade features ii ii2 width height minSize).

Lemma for_x_recorded (fuel : nat) (scale : Q) (winW winH step y x : Z)
      (st st' : ScanState) :
  for_x Math_sqrt cascade features ii ii2 width fuel scale winW winH step y x st
  = Ret st' ->
  0 < step -> 0 <= x -> 0 <= y <= height - winH ->
  (minSize <= inject_Z winW)%Q -> (minSize <= inject_Z winH)%Q ->
  ok st -> ok st'.
Proof.
  intros Hrun Hstep Hx Hy HW HH. revert x st Hrun Hx.
  induction fuel as [|fuel IH]; intros x st Hrun Hx Hst; simpl in Hrun.
  - done.
  - destruct (Z.leb_spec x (width - winW)) as [Hle|Hgt].
    + destruct (Haar.evaluateCascade Math_sqrt cascade features ii ii2 width
                  x y scale winW winH) as [isFace| |] eqn:E;
        simpl in Hrun; try done.
      apply IH in Hrun; [done|lia|].
      intros d Hd. simpl in *.
      assert (Hold : d ∈ detections st ->
                     d ∈ evaluated st ++ [mkDet x y winW winH scale]
                     /\ passed Math_sqrt cascade features ii ii2 width d
                     /\ in_image width height d /\ at_least minSize d).
      { intros Hin. destruct (Hst d Hin) as (? & ? & ? & ?).
        split; [apply elem_of_app; by left|done]. }
      destruct isFace; [|auto].
      apply elem_of_app in Hd as [Hd|Hd]; [auto|].
      apply list_elem_of_singleton in Hd as ->.
      split; [apply elem_of_app; right; left|]. split; [exact E|].
      split; [unfold in_image; simpl; lia|]. by split.
    + by injection Hrun as <-.
Qed.

Lemma for_y_recorded (budget fuel : nat) (scale : Q) (winW winH step y : Z)
      (st st' : ScanState) :
  for_y Math_sqrt cascade features ii ii2 width height budget fuel scale
        winW winH step y st = Ret st' ->
  0 < step -> 0 <= y ->
  (minSize <= inject_Z winW)%Q -> (minSize <= inject_Z winH)%Q ->
  ok st -> ok st'.
Proof.
  intros Hrun Hstep Hy HW HH. revert y st Hrun Hy.
  induction fuel as [|fuel IH]; intros y st Hrun Hy Hst; simpl in Hrun.
  - done.
  - destruct (Z.leb_spec y (height - winH)) as [Hle|Hgt].
    + destruct (for_x Math_sqrt cascade features ii ii2 width budget scale
                      winW winH step y 0 st) as [st1| |] eqn:E;
        simpl in Hrun; try done.
      apply IH in Hrun; [done|lia|].
      eapply for_x_recorded; [exact E|done|lia|lia|done|done|done].
    + by injection Hrun as <-.
Qed.

Variables (baseW baseH scaleFactor maxSize : Q).

Lemma while_scale_recorded (budget fuel : nat) (scale : Q)
      (st st' : ScanState) :
  while_scale Math_sqrt cascade features ii ii2 width height
              baseW baseH scaleFactor minSize maxSize budget fuel scale st
  = Ret st' ->
  ok st -> ok st'.
Proof.
  revert scale st.
  induction fuel as [|fuel IH]; intros scale st Hrun Hst; simpl in Hrun.
  - done.
  - destruct (Qle_bool (baseW * scale) maxSize
              && Qle_bool (baseH * scale) maxSize); [|by injection Hrun as <-].
    destruct (Qlt_bool (inject_Z (Math_round (baseW * scale))) minSize)
      eqn:EW; simpl in Hrun; [by eapply IH|].
    destruct (Qlt_bool (inject_Z (Math_round (baseH * scale))) minSize)
      eqn:EH; simpl in Hrun; [by eapply IH|].
    apply Qlt_bool_false_iff in EW, EH.
    destruct (for_y _ _ _ _ _ _ _ _ _ _ _ _ _ _ _) as [st1| |] eqn:E;
      simpl in Hrun; try done.
    eapply IH; [exact Hrun|].
    eapply for_y_recorded; [exact E|lia|lia|done|done|done].
Qed.

End ScanInvariant.

(** The raw detections of a finished scan. *)
Lemma detectFaces_scan_recorded (Math_sqrt : Q -> Q) (fuel : nat)
      (gray : list num) (width height : Z) (cascade : Haar.Cascade)
      (features : list Haar.HaarFeature) (options : Options)
      (st : ScanState) :
  detectFaces_scan Math_sqrt fuel gray width height cascade features options
  = Ret st ->
  exists ii ii2,
    Image.computeIntegralImage gray width height = Ret (ii, ii2)
    /\ recorded_ok Math_sqrt cascade features ii ii2 width height
                   (opt_minSize cascade options) st.
Proof.
  unfold detectFaces_scan. intros Hrun.
  destruct (Image.computeIntegralImage gray width height)
    as [[ii ii2]| |]; simpl in Hrun; try done.
  exists ii, ii2. split; [done|].
  destruct (Qeq_bool (Haar.baseWindowWidth cascade) 0
            || Qeq_bool (Haar.baseWindowHeight cascade) 0).
  - injection Hrun as <-. intros d Hd. simpl in Hd. set_solver.
  - eapply while_scale_recorded; [exact Hrun|].
    intros d Hd. simpl in Hd. set_solver.
Qed.

(** C10: every detection returned by [detectFaces] is one of the raw
    detections of the scan (suppression only removes), was handed to the
    cascade and accepted by it, lies inside the image, and has width and
    height of at least [minSize]. *)
Theorem detectFaces_detections_inside (Math_sqrt : Q -> Q) (fuel : nat)
        (gray : list num) (width height : Z) (cascade : Haar.Cascade)
        (features : list Haar.HaarFeature) (options : Options)
        (dets : list Detection) :
  detectFaces Math_sqrt fuel gray width height cascade features options
  = Ret dets ->
  exists ii ii2 st,
    Image.computeIntegralImage gray width height = Ret (ii, ii2)
    /\ detectFaces_scan Math_sqrt fuel gray width height cascade features
                        options = Ret st
    /\ dets ⊆ detections st
    /\ forall d, d ∈ dets ->
         (0 <= det_x d /\ 0 <= det_y d
          /\ det_x d + det_w d <= width /\ det_y d + det_h d <= height)
         /\ (opt_minSize cascade options <= inject_Z (det_w d))%Q
         /\ (opt_minSize cascade options <= inject_Z (det_h d))%Q
         /\ d ∈ evaluated st
         /\ Haar.evaluateCascade Math_sqrt cascade features ii ii2 width
              (det_x d) (det_y d) (det_scale d) (det_w d) (det_h d)
            = Ret true.
Proof.
  unfold detectFaces. intros Hrun.
  destruct (detectFaces_scan Math_sqrt fuel gray width height cascade
              features options) as [st| |] eqn:Escan; simpl in Hrun;
    try done.
  injection Hrun as <-.
  destruct (detectFaces_scan_recorded _ _ _ _ _ _ _ _ _ Escan)
    as (ii & ii2 & Hii & Hok).
  exists ii, ii2, st. split; [done|]. split; [done|].
  split; [apply nonMaximumSuppression_subset|].
  intros d Hd. apply nonMaximumSuppression_subset in Hd.
  destruct (Hok d Hd) as (Hev & Hpass & Hin & Hw & Hh). done.
Qed.

Lemma detectFaces_detections_inside_witness :
  let gray := fin <$> [1; 2; 3; 4; 5; 6; 7; 8; 9]%Q in
  let options := mkOptions None None None in
  detectFaces sqrt_6dp 5 gray 3 3 accepting_cascade [] options
  = Ret [mkDet 0 0 3 3 (144 # 100)]
  /\ exists ii ii2 st,
       Image.computeIntegralImage gray 3 3 = Ret (ii, ii2)
       /\ detectFaces_scan sqrt_6dp 5 gray 3 3 accepting_cascade [] options
          = Ret st
       /\ [mkDet 0 0 3 3 (144 # 100)] ⊆ detections st
       /\ forall d, d ∈ [mkDet 0 0 3 3 (144 # 100)] ->
            (0 <= det_x d /\ 0 <= det_y d
             /\ det_x d + det_w d <= 3 /\ det_y d + det_h d <= 3)
            /\ (opt_minSize accepting_cascade options
                <= inject_Z (det_w d))%Q
            /\ (opt_minSize accepting_cascade options
                <= inject_Z (det_h d))%Q
            /\ d ∈ evaluated st
            /\ Haar.evaluateCascade sqrt_6dp accepting_cascade [] ii ii2 3
                 (det_x d) (det_y d) (det_scale d) (det_w d) (det_h d)
               = Ret true.
Proof.
  intros gray options.
  assert (Hrun : detectFaces sqrt_6dp 5 gray 3 3 accepting_cascade []
                             options = Ret [mkDet 0 0 3 3 (144 # 100)])
    by (vm_compute; reflexivity).
  split; [exact Hrun|].
  exact (detectFaces_detections_inside sqrt_6dp 5 gray 3 3 accepting_cascade
           [] options _ Hrun).
Defined.

(** ** Scenario A: a stage that rejects every window *)

Lemma rejecting_stage_fails (features : list Haar.HaarFeature)
      (k : nat) (feature : Haar.HaarFeature) (ii : list num)
      (imageWidth wx wy : Z) (scale : Q) (invArea stdDev : num) :
  features !! k = Some feature ->
  is_value (Haar.evaluateFeature feature ii imageWidth wx wy scale
                                 invArea stdDev) 0 ->
  Haar.evaluateStage (Haar.mkStage 1 [Haar.mkWC k (1 # 2) 0 1]) features
                     ii imageWidth wx wy scale invArea stdDev
  = Ret false.
Proof.
  intros Hk Hzero. unfold Haar.evaluateStage. simpl. rewrite Hk.
  destruct (Haar.evaluateFeature feature ii imageWidth wx wy scale
                                 invArea stdDev) as [q|]; [|done].
  simpl in Hzero. simpl.
  assert (Qlt_bool q (1 # 2) = true) as ->.
  { apply Qlt_bool_iff. rewrite Hzero. reflexivity. }
  simpl. reflexivity.
Qed.



(** * The windows of the scan in closed form *)

(** ** Grids of origins *)

Lemma grid_from_nil (from limit step : Z) :
  0 < step -> limit < from -> grid_from from limit step = [].
Proof.
  intros Hs Hl. unfold grid_from. rewrite seqZ_nil; [done|].
  assert ((limit - from) `div` step < 0); [|lia].
  apply Z.div_lt_upper_bound; lia.
Qed.

Lemma grid_from_cons (from limit step : Z) :
  0 < step -> from <= limit ->
  grid_from from limit step = from :: grid_from (from + step) limit step.
Proof.
  intros Hs Hl. unfold grid_from.
  replace (limit - from) with (limit - (from + step) + 1 * step) by lia.
  rewrite Z.div_add by lia.
  assert (0 <= (limit - (from + step)) `div` step + 1).
  { assert (-1 <= (limit - (from + step)) `div` step); [|lia].
    apply Z.div_le_lower_bound; lia. }
  rewrite seqZ_cons by lia.
  replace (Z.pred ((limit - (from + step)) `div` step + 1 + 1))
    with ((limit - (from + step)) `div` step + 1) by lia.
  rewrite fmap_cons. f_equal; [lia|].
  change (Z.succ 0) with (1 + 0). rewrite <- fmap_add_seqZ.
  rewrite <- list_fmap_compose. apply list_fmap_ext.
  intros _ k _. simpl. lia.
Qed.

Lemma grid_from_length (from limit step : Z) :
  0 < step ->
  (length (grid_from from limit step) <= Z.to_nat (limit - from + 1))%nat.
Proof.
  intros Hs. unfold grid_from. rewrite length_fmap, length_seqZ.
  destruct (decide (from <= limit)) as [Hle|Hgt].
  - assert ((limit - from) `div` step <= limit - from); [|lia].
    apply Z.div_le_upper_bound; nia.
  - assert ((limit - from) `div` step < 0); [|lia].
    apply Z.div_lt_upper_bound; lia.
Qed.

(** The origins of a grid are the multiples of the step up to the
    limit. *)
Lemma elem_of_grid (limit step x : Z) :
  0 < step ->
  x ∈ grid_from 0 limit step <-> 0 <= x <= limit /\ x `mod` step = 0.
Proof.
  intros Hs. unfold grid_from. rewrite list_elem_of_fmap.
  setoid_rewrite elem_of_seqZ. split.
  - intros (k & -> & Hk).
    assert (k <= limit `div` step) as Hkd by (rewrite Z.sub_0_r in Hk; lia).
    split.
    + split; [nia|].
      pose proof (Z.mul_div_le limit step Hs). nia.
    + rewrite Z.add_0_l. apply Z.mod_mul. lia.
  - intros [Hx Hmod]. exists (x `div` step). split.
    + pose proof (Z.div_mod x step ltac:(lia)). lia.
    + rewrite Z.sub_0_r. split; [apply Z.div_pos; lia|].
      assert (x `div` step <= limit `div` step); [|lia].
      apply Z.div_le_mono; lia.
Qed.

(** ** Visiting a list of windows *)

Section Visit.

Variable Math_sqrt : Q -> Q.
Variables (cascade : Haar.Cascade) (features : list Haar.HaarFeature).
Variables (ii ii2 : list num) (width height : Z).

Local Abbreviation visit' := (visit Math_sqrt cascade features ii ii2 width).

Lemma visit_app (wins1 wins2 : list Detection) (st : ScanState) :
  visit' (wins1 ++ wins2) st = st' ← visit' wins1 st; visit' wins2 st'.
Proof.
  revert st. induction wins1 as [|win wins1 IH]; intros st; simpl.
  - done.
  - destruct (Haar.evaluateCascade _ _ _ _ _ _ _ _ _ _ _); simpl; auto.
Qed.

Lemma visit_evaluated (wins : list Detection) (st st' : ScanState) :
  visit' wins st = Ret st' -> evaluated st' = evaluated st ++ wins.
Proof.
  revert st. induction wins as [|win wins IH]; intros st; simpl.
  - intros [= <-]. by rewrite app_nil_r.
  - destruct (Haar.evaluateCascade _ _ _ _ _ _ _ _ _ _ _); simpl; try done.
    intros Hrun. apply IH in Hrun. rewrite Hrun. simpl.
    by rewrite <- app_assoc.
Qed.

Lemma visit_not_out_of_fuel (wins : list Detection) (st : ScanState) :
  visit' wins st <> Fuel.
Proof.
  revert st. induction wins as [|win wins IH]; intros st; simpl; [done|].
  unfold Haar.evaluateCascade, Haar.evaluateCascade_log.
  assert (Hc : forall sts invArea stdDev x y s,
             snd (Haar.cascade_stages features ii width x y s invArea stdDev
                                      sts) <> Fuel).
  { clear. intros sts invArea stdDev x y s.
    induction sts as [|stage sts IHs]; simpl; [done|].
    destruct (Haar.evaluateStage stage features ii width x y s invArea stdDev)
      as [[|]| |] eqn:E; simpl; try done.
    - by destruct (Haar.cascade_stages _ _ _ _ _ _ _ _ sts).
    - unfold Haar.evaluateStage in E.
      destruct (Haar.stage_sum _ _ _ _ _ _ _ _ _ _) eqn:E'; try done.
      clear E. revert E'. generalize 0%Q.
      induction (Haar.weakClassifiers stage) as [|wc wcs IHw]; simpl;
        intros q; [done|].
      destruct (features !! Haar.featureIndex wc); [apply IHw|done]. }
  destruct (snd (Haar.cascade_stages _ _ _ _ _ _ _ _ _)) eqn:E; simpl;
    [apply IH|done|by apply Hc in E].
Qed.

(** ** The inner loops *)

Lemma for_x_windows (fuel : nat) (scale : Q) (winW winH step y x : Z)
      (st : ScanState) :
  0 < step ->
  (length (grid_from x (width - winW) step) < fuel)%nat ->
  for_x Math_sqrt cascade features ii ii2 width fuel scale winW winH step y x st
  = visit' ((fun x' => mkDet x' y winW winH scale)
              <$> grid_from x (width - winW) step) st.
Proof.
  intros Hs. revert x st.
  induction fuel as [|fuel IH]; intros x st Hfuel; [lia|]. simpl.
  destruct (Z.leb_spec x (width - winW)) as [Hle|Hgt].
  - rewrite grid_from_cons in * by done. simpl in *.
    destruct (Haar.evaluateCascade _ _ _ _ _ _ _ _ _ _ _); simpl; try done.
    apply IH. lia.
  - by rewrite grid_from_nil by done.
Qed.

Lemma for_y_windows (budget fuel : nat) (scale : Q) (winW winH step y : Z)
      (st : ScanState) :
  0 < step ->
  (length (grid_from 0 (width - winW) step) < budget)%nat ->
  (length (grid_from y (height - winH) step) < fuel)%nat ->
  for_y Math_sqrt cascade features ii ii2 width height budget fuel scale
        winW winH step y st
  = visit' (y' ← grid_from y (height - winH) step;
            (fun x => mkDet x y' winW winH scale)
              <$> grid_from 0 (width - winW) step) st.
Proof.
  intros Hs Hb. revert y st.
  induction fuel as [|fuel IH]; intros y st Hfuel; [lia|]. simpl.
  destruct (Z.leb_spec y (height - winH)) as [Hle|Hgt].
  - rewrite (grid_from_cons y) by done.
    rewrite (grid_from_cons y) in Hfuel by done.
    rewrite bind_cons. simpl in Hfuel.
    rewrite visit_app, for_x_windows by done.
    destruct (visit _ _ _ _ _ _ _ st) as [st1| |]; simpl; [|done|done].
    apply IH. lia.
  - by rewrite (grid_from_nil y) by done.
Qed.

End Visit.

(** ** No exception with a well-formed cascade *)

Lemma evaluateCascade_returns (Math_sqrt : Q -> Q) (cascade : Haar.Cascade)
      (features : list Haar.HaarFeature) (ii ii2 : list num)
      (imageWidth wx wy : Z) (scale : Q) (winW winH : Z) :
  Forall (indices_valid features) (Haar.stages cascade) ->
  exists isFace,
    Haar.evaluateCascade Math_sqrt cascade features ii ii2 imageWidth
                         wx wy scale winW winH = Ret isFace.
Proof.
  unfold Haar.evaluateCascade, Haar.evaluateCascade_log.
  generalize (Haar.window_invArea winW winH).
  generalize (Haar.window_stdDev Math_sqrt ii ii2 imageWidth wx wy winW winH).
  intros stdDev invArea.
  induction 1 as [|stage sts Hstage _ IH]; simpl; [eauto|].
  destruct (evaluateStage_threshold stage features ii imageWidth wx wy scale
              invArea stdDev Hstage) as (pass & -> & _).
  destruct pass; [|eauto].
  destruct (Haar.cascade_stages _ _ _ _ _ _ _ _ sts). simpl in *. done.
Qed.

Lemma visit_returns (Math_sqrt : Q -> Q) (cascade : Haar.Cascade)
      (features : list Haar.HaarFeature) (ii ii2 : list num) (width : Z)
      (wins : list Detection) (st : ScanState) :
  Forall (indices_valid features) (Haar.stages cascade) ->
  exists st', visit Math_sqrt cascade features ii ii2 width wins st = Ret st'.
Proof.
  intros Hvalid. revert st.
  induction wins as [|win wins IH]; intros st; simpl; [eauto|].
  destruct (evaluateCascade_returns Math_sqrt cascade features ii ii2 width
              (det_x win) (det_y win) (det_scale win) (det_w win) (det_h win)
              Hvalid) as [isFace ->].
  simpl. apply IH.
Qed.

(** ** The loop over the scales *)

Lemma bind_seq_S {A} (F : nat -> list A) (a n : nat) :
  (k ← seq (S a) n; F k) = (k ← seq a n; F (S k)).
Proof.
  revert a. induction n as [|n IH]; intros a; simpl; [done|].
  by rewrite IH.
Qed.

Lemma window_step_pos (winW : Z) : 0 < window_step winW.
Proof. unfold window_step. lia. Qed.

Section While.

Variable Math_sqrt : Q -> Q.
Variables (cascade : Haar.Cascade) (features : list Haar.HaarFeature).
Variables (ii ii2 : list num) (width height : Z).
Variables (baseW baseH scaleFactor minSize maxSize : Q).

Lemma within_maxSize_bool (scale : Q) :
  Qle_bool (baseW * scale) maxSize && Qle_bool (baseH * scale) maxSize = true
  <-> within_maxSize baseW baseH maxSize scale.
Proof.
  unfold within_maxSize. by rewrite andb_true_iff, !Qle_bool_iff.
Qed.

Lemma while_scale_windows (n budget fuel : nat) (scale : Q) (st : ScanState) :
  (forall k, (k < n)%nat ->
             within_maxSize baseW baseH maxSize (scale_at scaleFactor scale k)) ->
  ~ within_maxSize baseW baseH maxSize (scale_at scaleFactor scale n) ->
  (n < fuel)%nat ->
  (forall k, (k < n)%nat ->
             budget_covers width height baseW baseH budget (scale_at scaleFactor scale k)) ->
  while_scale Math_sqrt cascade features ii ii2 width height
              baseW baseH scaleFactor minSize maxSize budget fuel scale st
  = visit Math_sqrt cascade features ii ii2 width
          (k ← seq 0 n;
           windows_at width height baseW baseH minSize
                      (scale_at scaleFactor scale k)) st.
Proof.
  revert fuel scale st.
  induction n as [|n IH]; intros fuel scale st Hin Hout Hfuel Hbudget;
    (destruct fuel as [|fuel]; [lia|]); cbn [while_scale].
  - destruct (Qle_bool (baseW * scale) maxSize
              && Qle_bool (baseH * scale) maxSize) eqn:E; [|done].
    apply within_maxSize_bool in E. by destruct Hout.
  - pose proof (Hin 0%nat ltac:(lia)) as H0. cbn [scale_at] in H0.
    apply within_maxSize_bool in H0. rewrite H0.
    cbn [seq]. rewrite bind_cons, visit_app, bind_seq_S. cbn [scale_at].
    assert (Hrest : forall st1,
      while_scale Math_sqrt cascade features ii ii2 width height
                  baseW baseH scaleFactor minSize maxSize budget fuel
                  (scale * scaleFactor)%Q st1
      = visit Math_sqrt cascade features ii ii2 width
              (k ← seq 0 n;
               windows_at width height baseW baseH minSize
                          (scale_at scaleFactor (scale * scaleFactor) k)) st1).
    { intros st1. apply IH.
      - intros k Hk. apply (Hin (S k)). lia.
      - exact Hout.
      - lia.
      - intros k Hk. apply (Hbudget (S k)). lia. }
    assert (Hhere :
      windows_at width height baseW baseH minSize scale
      = if Qlt_bool (inject_Z (Math_round (baseW * scale))) minSize
           || Qlt_bool (inject_Z (Math_round (baseH * scale))) minSize
        then []
        else windows_of_size width height scale
                             (Math_round (baseW * scale))
                             (Math_round (baseH * scale))) by reflexivity.
    rewrite Hhere. clear Hhere.
    destruct (Qlt_bool (inject_Z (Math_round (baseW * scale))) minSize
              || Qlt_bool (inject_Z (Math_round (baseH * scale))) minSize).
    + exact (Hrest st).
    + destruct (Hbudget 0%nat ltac:(lia)) as [Hbx Hby].
      cbn [scale_at] in Hbx, Hby.
      rewrite for_y_windows by (done || apply window_step_pos).
      fold (window_step (Math_round (baseW * scale))).
      unfold windows_of_size.
      destruct (visit _ _ _ _ _ _ _ st) as [st1| |]; [|done|done].
      exact (Hrest st1).
Qed.

End While.

(** ** Growth of the scale *)

Lemma scale_at_lower (scaleFactor scale : Q) (k : nat) :
  (1 < scaleFactor)%Q -> (0 < scale)%Q ->
  (scale * (1 + inject_Z (Z.of_nat k) * (scaleFactor - 1))
   <= scale_at scaleFactor scale k)%Q.
Proof.
  intros Hsf. revert scale. induction k as [|k IH]; intros scale Hs.
  - cbn [scale_at]. change (inject_Z (Z.of_nat 0)) with 0%Q. lra.
  - cbn [scale_at].
    assert (Hs' : (0 < scale * scaleFactor)%Q) by nra.
    specialize (IH _ Hs').
    rewrite Nat2Z.inj_succ. unfold Z.succ. rewrite inject_Z_plus.
    change (inject_Z 1) with 1%Q.
    assert (Hk : (0 <= inject_Z (Z.of_nat k))%Q).
    { change 0%Q with (inject_Z 0). rewrite <- Zle_Qle. lia. }
    set (kq := inject_Z (Z.of_nat k)) in *.
    eapply Qle_trans; [|exact IH].
    assert (0 <= scale * kq * ((scaleFactor - 1) * (scaleFactor - 1)))%Q.
    { apply Qmult_le_0_compat; [apply Qmult_le_0_compat; lra|].
      apply Qmult_le_0_compat; lra. }
    lra.
Qed.

Lemma scale_at_pos (scaleFactor : Q) (k : nat) :
  (1 < scaleFactor)%Q -> (1 <= scale_at scaleFactor 1 k)%Q.
Proof.
  intros Hsf.
  pose proof (scale_at_lower scaleFactor 1 k Hsf ltac:(lra)) as H.
  assert (Hk : (0 <= inject_Z (Z.of_nat k))%Q).
  { change 0%Q with (inject_Z 0). rewrite <- Zle_Qle. lia. }
  assert (0 <= inject_Z (Z.of_nat k) * (scaleFactor - 1))%Q
    by (apply Qmult_le_0_compat; lra).
  lra.
Qed.

(** With a factor above 1 the scaled window outgrows any [maxSize]. *)
Lemma scale_exceeds (baseW baseH scaleFactor maxSize : Q) :
  (0 < baseW)%Q -> (1 < scaleFactor)%Q ->
  exists N, ~ within_maxSize baseW baseH maxSize (scale_at scaleFactor 1 N).
Proof.
  intros Hb Hsf.
  set (q := (maxSize / (baseW * (scaleFactor - 1)))%Q).
  exists (Z.to_nat (Qfloor q + 1)).
  intros [Hw _].
  pose proof (scale_at_lower scaleFactor 1 (Z.to_nat (Qfloor q + 1)) Hsf
                ltac:(lra)) as Hlow.
  assert (HN : (q < inject_Z (Z.of_nat (Z.to_nat (Qfloor q + 1))))%Q).
  { eapply Qlt_le_trans; [apply Qlt_floor|].
    rewrite <- Zle_Qle. lia. }
  set (Nq := inject_Z (Z.of_nat (Z.to_nat (Qfloor q + 1)))) in *.
  assert (Hd : (0 < baseW * (scaleFactor - 1))%Q) by nra.
  assert (Hq : (q * (baseW * (scaleFactor - 1)) == maxSize)%Q).
  { unfold q. field. lra. }
  assert (Hlt : (maxSize < Nq * (baseW * (scaleFactor - 1)))%Q).
  { rewrite <- Hq. apply Qmult_lt_compat_r; done. }
  assert (Hmul : (baseW * (1 * (1 + Nq * (scaleFactor - 1)))
                  <= baseW * scale_at scaleFactor 1
                                      (Z.to_nat (Qfloor q + 1)))%Q).
  { apply Qmult_le_l; done. }
  lra.
Qed.

(** The first index at which a decidable property fails. *)
Lemma first_failure (P : nat -> Prop) (N : nat) :
  (forall k, Decision (P k)) -> ~ P N ->
  exists n, (n <= N)%nat /\ (forall k, (k < n)%nat -> P k) /\ ~ P n.
Proof.
  intros Hdec HN.
  assert (Hsearch : forall m,
    (forall k, (k < m)%nat -> P k)
    \/ exists n, (n < m)%nat /\ (forall k, (k < n)%nat -> P k) /\ ~ P n).
  { induction m as [|m [Hall|(n & Hn & Hbefore & Hfail)]].
    - left. intros k Hk. lia.
    - destruct (Hdec m) as [Hm|Hm].
      + left. intros k Hk.
        destruct (decide (k = m)) as [->|]; [done|]. apply Hall. lia.
      + right. exists m. split; [lia|]. by split.
    - right. exists n. split; [lia|]. by split. }
  destruct (Hsearch (S N)) as [Hall|(n & Hn & Hbefore & Hfail)].
  - destruct HN. apply Hall. lia.
  - exists n. split; [lia|]. by split.
Qed.

Lemma within_maxSize_decidable (baseW baseH maxSize scale : Q) :
  Decision (within_maxSize baseW baseH maxSize scale).
Proof.
  destruct (Qle_bool (baseW * scale) maxSize
            && Qle_bool (baseH * scale) maxSize) eqn:E.
  - left. by apply within_maxSize_bool.
  - right. intros H. apply within_maxSize_bool in H. congruence.
Qed.

Lemma Math_round_nonneg (q : Q) : (0 <= q)%Q -> 0 <= Math_round q.
Proof.
  intros Hq. unfold Math_round.
  change 0 with (Qfloor 0). apply Qfloor_resp_le. lra.
Qed.

Lemma Math_round_upper (q : Q) : (inject_Z (Math_round q) <= q + (1 # 2))%Q.
Proof. unfold Math_round. apply Qfloor_le. Qed.

Lemma elem_of_windows_of_size (width height : Z) (scale : Q) (winW winH : Z)
      (win : Detection) :
  win ∈ windows_of_size width height scale winW winH
  <-> det_w win = winW /\ det_h win = winH /\ det_scale win = scale
      /\ (0 <= det_x win <= width - winW
          /\ det_x win `mod` window_step winW = 0)
      /\ (0 <= det_y win <= height - winH
          /\ det_y win `mod` window_step winW = 0).
Proof.
  unfold windows_of_size. rewrite list_elem_of_bind.
  pose proof (window_step_pos winW) as Hs.
  split.
  - intros (y & Hwin & Hy).
    apply list_elem_of_fmap in Hwin as (x & -> & Hx).
    apply elem_of_grid in Hx, Hy; try done.
  - intros (<- & <- & <- & Hx & Hy).
    exists (det_y win). split; [|by apply elem_of_grid].
    apply list_elem_of_fmap. exists (det_x win).
    split; [by destruct win|by apply elem_of_grid].
Qed.

Lemma computeIntegralImage_outcome (gray : list num) (width height : Z) :
  Image.computeIntegralImage gray width height <> Fuel
  /\ (0 <= width * height ->
      exists ii ii2,
        Image.computeIntegralImage gray width height = Ret (ii, ii2)).
Proof.
  unfold Image.computeIntegralImage, Image.new_Float32Array.
  destruct (Z.ltb_spec (width * height) 0); simpl.
  - split; [done|lia].
  - split; [done|eauto].
Qed.

(** With a factor above 1 and a positive base window, a sufficient budget
    makes the scan the visit of the windows of the scales before the first
    one that exceeds [maxSize]. *)
Lemma detectFaces_scan_closed_form (Math_sqrt : Q -> Q) (gray : list num)
      (width height : Z) (cascade : Haar.Cascade)
      (features : list Haar.HaarFeature) (options : Options) :
  let baseW := Haar.baseWindowWidth cascade in
  let baseH := Haar.baseWindowHeight cascade in
  let factor := opt_scaleFactor options in
  let minS := opt_minSize cascade options in
  let maxS := opt_maxSize width height options in
  (0 < baseW)%Q -> (0 < baseH)%Q -> (1 < factor)%Q ->
  exists n fuel0,
    (forall k, (k < n)%nat ->
               within_maxSize baseW baseH maxS (scale_at factor 1 k))
    /\ ~ within_maxSize baseW baseH maxS (scale_at factor 1 n)
    /\ (forall fuel, (fuel0 <= fuel)%nat ->
          detectFaces_scan Math_sqrt fuel gray width height cascade features
                           options
          = '(ii, ii2) ← Image.computeIntegralImage gray width height;
            visit Math_sqrt cascade features ii ii2 width
                  (windows_upto width height baseW baseH factor minS n)
                  (mkScan [] [])).
Proof.
  intros baseW baseH factor minS maxS HbW HbH Hf.
  destruct (scale_exceeds baseW baseH factor maxS HbW Hf) as [N HN].
  destruct (first_failure
              (fun k => within_maxSize baseW baseH maxS (scale_at factor 1 k))
              N (fun k => within_maxSize_decidable _ _ _ _) HN)
    as (n & _ & Hin & Hout).
  exists n, (S n `max` (S (Z.to_nat (width + 1))
                        `max` S (Z.to_nat (height + 1))))%nat.
  split; [exact Hin|]. split; [exact Hout|].
  intros fuel Hfuel. unfold detectFaces_scan.
  destruct (Image.computeIntegralImage gray width height)
    as [[ii ii2]| |] eqn:Eii; [|done|done].
  cbn [mbind Run_bind].
  fold baseW baseH factor minS maxS.
  rewrite (Qeq_bool_nonzero baseW), (Qeq_bool_nonzero baseH) by lra.
  cbn [orb].
  apply (while_scale_windows Math_sqrt cascade features ii ii2
           width height baseW baseH factor minS maxS n fuel fuel 1%Q
           (mkScan [] []) Hin Hout ltac:(lia)).
  intros k Hk. unfold budget_covers. cbv zeta.
  pose proof (scale_at_pos factor k Hf) as Hs.
  assert (0 <= Math_round (baseW * scale_at factor 1 k)).
  { apply Math_round_nonneg. nra. }
  assert (0 <= Math_round (baseH * scale_at factor 1 k)).
  { apply Math_round_nonneg. nra. }
  split.
  - eapply Nat.le_lt_trans; [apply grid_from_length, window_step_pos|]. lia.
  - eapply Nat.le_lt_trans; [apply grid_from_length, window_step_pos|]. lia.
Qed.



(** * The scan configuration is not validated (js/detector.js) *)

(** Within [maxSize], a window cannot reach a [minSize] that exceeds
    [maxSize] by more than the rounding of [Math.round]. *)
Lemma windows_at_too_small (width height : Z)
      (baseW baseH minSize maxSize scale : Q) :
  (maxSize + (1 # 2) < minSize)%Q ->
  within_maxSize baseW baseH maxSize scale ->
  windows_at width height baseW baseH minSize scale = [].
Proof.
  intros Hgap [HW _]. unfold windows_at.
  assert (Qlt_bool (inject_Z (Math_round (baseW * scale))) minSize = true)
    as ->; [|done].
  apply Qlt_bool_iff.
  pose proof (Math_round_upper (baseW * scale)). lra.
Qed.

Lemma windows_upto_too_small (width height : Z)
      (baseW baseH scaleFactor minSize maxSize : Q) (n : nat) :
  (maxSize + (1 # 2) < minSize)%Q ->
  (forall k, (k < n)%nat ->
             within_maxSize baseW baseH maxSize (scale_at scaleFactor 1 k)) ->
  windows_upto width height baseW baseH scaleFactor minSize n = [].
Proof.
  intros Hgap Hin. unfold windows_upto.
  assert (Hseq : forall k, k ∈ seq 0 n -> (k < n)%nat).
  { intros k Hk. apply elem_of_seq in Hk. lia. }
  induction (seq 0 n) as [|k ks IH]; [done|].
  rewrite bind_cons.
  rewrite (windows_at_too_small _ _ _ _ _ maxSize) ; [|done|].
  - apply IH. intros j Hj. apply Hseq. set_solver.
  - apply Hin, Hseq. set_solver.
Qed.

Section NoExit.

Variable Math_sqrt : Q -> Q.
Variables (cascade : Haar.Cascade) (features : list Haar.HaarFeature).
Variables (ii ii2 : list num) (width height : Z).
Variables (baseW baseH scaleFactor minSize maxSize : Q).

Hypothesis factor_small : (-1 <= scaleFactor <= 1)%Q.
Hypothesis baseW_fits : (0 < baseW <= maxSize)%Q.
Hypothesis baseH_fits : (0 < baseH <= maxSize)%Q.

(** With a factor of absolute value at most 1 the scale stays in
    [-1, 1], the loop condition stays true and the loop never exits. *)
Lemma while_scale_no_exit (budget fuel : nat) (scale : Q)
      (st st' : ScanState) :
  (-1 <= scale <= 1)%Q ->
  while_scale Math_sqrt cascade features ii ii2 width height
              baseW baseH scaleFactor minSize maxSize budget fuel scale st
  <> Ret st'.
Proof.
  revert scale st. induction fuel as [|fuel IH]; intros scale st Hs;
    cbn [while_scale]; [done|].
  assert (Qle_bool (baseW * scale) maxSize
          && Qle_bool (baseH * scale) maxSize = true) as ->.
  { apply within_maxSize_bool. split; nra. }
  assert (Hnext : (-1 <= scale * scaleFactor <= 1)%Q) by (split; nra).
  destruct (Qlt_bool (inject_Z (Math_round (baseW * scale))) minSize
            || Qlt_bool (inject_Z (Math_round (baseH * scale))) minSize).
  - by apply IH.
  - destruct (for_y _ _ _ _ _ _ _ _ _ _ _ _ _ _ _) as [st1| |];
      cbn [mbind Run_bind]; [by apply IH|done|done].
Qed.

End NoExit.


(** The margin of 1/2 is needed: [maxSize] bounds the unrounded size of
    the window and [minSize] its rounded size, so that with
    [minSize = 25 > maxSize = 24.7] a base window of 24 is scanned at the
    scale 1.025, rounded from 24.6 to 25. *)
Example detectFaces_scans_between_sizes :
  let gray := replicate 900 (fin 1) in
  let options := mkOptions (Some (1025 # 1000)) (Some 25%Q) (Some (247 # 10)) in
  (opt_maxSize 30 30 options
   < opt_minSize (Haar.mkCascade 24 24 []) options)%Q
  /\ detectFaces sqrt_6dp 10 gray 30 30 (Haar.mkCascade 24 24 []) [] options
     = Ret [mkDet 0 0 25 25 (1025 # 1000)].
Proof. split; [reflexivity|]. vm_compute. reflexivity. Qed.



(** * Further properties: overlap of boxes *)

Lemma computeIOU_unfold (a b : Detection) :
  computeIOU a b
  = if intersection_area a b =? 0 then 0%Q
    else (inject_Z (intersection_area a b)
          / inject_Z (area a + area b - intersection_area a b))%Q.
Proof. reflexivity. Qed.

Lemma intersection_area_nonneg (a b : Detection) : 0 <= intersection_area a b.
Proof. unfold intersection_area. nia. Qed.

(** A non-empty intersection lies in both boxes, which then have
    positive sides. *)
Lemma intersection_area_bounds (a b : Detection) :
  intersection_area a b <> 0 ->
  0 < det_w a /\ 0 < det_h a /\ 0 < det_w b /\ 0 < det_h b
  /\ 0 < intersection_area a b
  /\ intersection_area a b <= area a
  /\ intersection_area a b <= area b.
Proof.
  unfold intersection_area, area.
  set (dx := Z.min (det_x a + det_w a) (det_x b + det_w b)
             - Z.max (det_x a) (det_x b)).
  set (dy := Z.min (det_y a + det_h a) (det_y b + det_h b)
             - Z.max (det_y a) (det_y b)).
  intros Hne.
  assert (Hdx : 0 < dx) by (destruct (decide (0 < dx)); [done|nia]).
  assert (Hdy : 0 < dy) by (destruct (decide (0 < dy)); [done|nia]).
  assert (dx <= det_w a /\ dx <= det_w b) as [? ?] by (unfold dx; lia).
  assert (dy <= det_h a /\ dy <= det_h b) as [? ?] by (unfold dy; lia).
  rewrite !Z.max_r by lia.
  repeat split; nia.
Qed.

Lemma iou_range (a b : Detection) : (0 <= computeIOU a b <= 1)%Q.
Proof.
  rewrite computeIOU_unfold.
  destruct (Z.eqb_spec (intersection_area a b) 0) as [|Hne]; [split; lra|].
  destruct (intersection_area_bounds a b Hne) as (_ & _ & _ & _ & Hpos & Ha & Hb).
  assert (Hu : (0 < inject_Z (area a + area b - intersection_area a b))%Q).
  { change 0%Q with (inject_Z 0). rewrite <- Zlt_Qlt. lia. }
  split.
  - apply Qle_shift_div_l; [done|]. rewrite Qmult_0_l.
    change 0%Q with (inject_Z 0). rewrite <- Zle_Qle. lia.
  - apply Qle_shift_div_r; [done|]. rewrite Qmult_1_l.
    rewrite <- Zle_Qle. lia.
Qed.

Lemma iou_zero_iff (a b : Detection) :
  (computeIOU a b == 0)%Q <-> intersection_area a b = 0.
Proof.
  rewrite computeIOU_unfold.
  destruct (Z.eqb_spec (intersection_area a b) 0) as [|Hne]; [done|].
  destruct (intersection_area_bounds a b Hne)
    as (_ & _ & _ & _ & Hpos & Ha & Hb).
  split; [|done]. intros H0. exfalso.
  assert (Hu : (0 < inject_Z (area a + area b - intersection_area a b))%Q).
  { change 0%Q with (inject_Z 0). rewrite <- Zlt_Qlt. lia. }
  assert (Hi : (0 < inject_Z (intersection_area a b))%Q).
  { change 0%Q with (inject_Z 0). rewrite <- Zlt_Qlt. lia. }
  assert (0 < inject_Z (intersection_area a b)
              / inject_Z (area a + area b - intersection_area a b))%Q.
  { apply Qlt_shift_div_l; [done|]. by rewrite Qmult_0_l. }
  lra.
Qed.

Lemma iou_one_iff (a b : Detection) :
  (computeIOU a b == 1)%Q
  <-> same_box a b /\ 0 < det_w a /\ 0 < det_h a.
Proof.
  rewrite computeIOU_unfold. split.
  - destruct (Z.eqb_spec (intersection_area a b) 0) as [|Hne];
      [intros H; lra|].
    destruct (intersection_area_bounds a b Hne)
      as (Hwa & Hha & Hwb & Hhb & Hpos & Ha & Hb).
    intros H1.
    assert (Hu : 0 < area a + area b - intersection_area a b) by lia.
    assert (Heq : intersection_area a b
                  = area a + area b - intersection_area a b).
    { apply inject_Z_injective.
      assert (~ inject_Z (area a + area b - intersection_area a b) == 0)%Q.
      { apply inject_Z_nonzero. lia. }
      rewrite <- (Qmult_1_l (inject_Z (area a + area b - _))).
      rewrite <- H1. field. done. }
    assert (HA : intersection_area a b = area a) by lia.
    assert (HB : intersection_area a b = area b) by lia.
    clear H1 Heq Hu Ha Hb Hne.
    unfold intersection_area, area, same_box in *.
    set (dx := Z.min (det_x a + det_w a) (det_x b + det_w b)
               - Z.max (det_x a) (det_x b)) in *.
    set (dy := Z.min (det_y a + det_h a) (det_y b + det_h b)
               - Z.max (det_y a) (det_y b)) in *.
    assert (Hdx : 0 < dx) by (destruct (decide (0 < dx)); [done|nia]).
    assert (Hdy : 0 < dy) by (destruct (decide (0 < dy)); [done|nia]).
    assert (dx <= det_w a /\ dx <= det_w b) as [? ?] by (unfold dx; lia).
    assert (dy <= det_h a /\ dy <= det_h b) as [? ?] by (unfold dy; lia).
    rewrite !Z.max_r in HA, HB by lia.
    assert (dx = det_w a) by nia. assert (dy = det_h a) by nia.
    assert (dx = det_w b) by nia. assert (dy = det_h b) by nia.
    split; [|done]. unfold dx, dy in *. lia.
  - intros ((Hx & Hy & Hw & Hh) & Hwa & Hha).
    assert (Hi : intersection_area a b = det_w a * det_h a).
    { unfold intersection_area. rewrite <- Hx, <- Hy, <- Hw, <- Hh.
      rewrite !Z.min_id, !Z.max_id.
      replace (det_x a + det_w a - det_x a) with (det_w a) by lia.
      replace (det_y a + det_h a - det_y a) with (det_h a) by lia.
      rewrite !Z.max_r by lia. done. }
    assert (Hb : area b = det_w a * det_h a).
    { unfold area. by rewrite <- Hw, <- Hh. }
    rewrite Hi, Hb. unfold area.
    destruct (Z.eqb_spec (det_w a * det_h a) 0) as [|Hne]; [nia|].
    replace (det_w a * det_h a + det_w a * det_h a - det_w a * det_h a)
      with (det_w a * det_h a) by lia.
    field. by apply inject_Z_nonzero.
Qed.

Lemma calculateIoU_computeIOU (a b : Detection) :
  calculateIoU a b = computeIOU a b.
Proof.
  rewrite computeIOU_unfold. unfold calculateIoU.
  fold (intersection_area a b). fold (area a) (area b).
  pose proof (intersection_area_nonneg a b).
  destruct (Z.leb_spec (intersection_area a b) 0),
           (Z.eqb_spec (intersection_area a b) 0); (done || lia).
Qed.

(** X1: the IoU of [computeIOU] lies between 0 and 1 for all boxes, also
    those with zero or negative sides; it is 0 exactly when the
    intersection has no area, and whenever the function divides, the
    divisor (the area of the union) is positive. *)
Theorem computeIOU_bounded (a b : Detection) :
  (0 <= computeIOU a b <= 1)%Q
  /\ ((computeIOU a b == 0)%Q <-> intersection_area a b = 0)
  /\ (intersection_area a b <> 0 ->
      0 < area a + area b - intersection_area a b
      /\ (computeIOU a b
          == inject_Z (intersection_area a b)
             / inject_Z (area a + area b - intersection_area a b))%Q).
Proof.
  split; [apply iou_range|]. split; [apply iou_zero_iff|].
  intros Hne.
  destruct (intersection_area_bounds a b Hne)
    as (_ & _ & _ & _ & Hpos & Ha & Hb).
  split; [lia|]. rewrite computeIOU_unfold.
  destruct (Z.eqb_spec (intersection_area a b) 0); [done|reflexivity].
Qed.

Lemma computeIOU_bounded_witness :
  let a := mkDet 0 0 100 100 1 in
  let b := mkDet 10 10 100 100 1 in
  0 < area a + area b - intersection_area a b
  /\ (computeIOU a b == 8100 # 11900)%Q.
Proof.
  intros a b.
  destruct (computeIOU_bounded a b) as (_ & _ & H).
  destruct H as [Hpos Heq]; [discriminate|].
  split; [exact Hpos|]. rewrite Heq. reflexivity.
Defined.

(** X2: [computeIOU] does not depend on the order of its arguments, and
    it is 1 exactly for two boxes of the same origin and size whose sides
    are positive. *)
Theorem computeIOU_symmetric_one (a b : Detection) :
  computeIOU a b = computeIOU b a
  /\ ((computeIOU a b == 1)%Q
      <-> same_box a b /\ 0 < det_w a /\ 0 < det_h a).
Proof. split; [apply computeIOU_sym | apply iou_one_iff]. Qed.

Lemma computeIOU_symmetric_one_witness :
  (computeIOU (mkDet 3 4 20 30 1) (mkDet 3 4 20 30 2) == 1)%Q.
Proof.
  apply (computeIOU_symmetric_one (mkDet 3 4 20 30 1) (mkDet 3 4 20 30 2)).
  unfold same_box. simpl. lia.
Defined.

(** X3: the IoU of js/main.js and the IoU of js/detector.js are the same
    function: the test [intersectionArea <= 0] of the one and the test
    [interArea === 0] of the other agree, because the area of an
    intersection is never negative. *)
Theorem calculateIoU_agrees (a b : Detection) :
  calculateIoU a b = computeIOU a b /\ 0 <= intersection_area a b.
Proof.
  split; [apply calculateIoU_computeIOU | apply intersection_area_nonneg].
Qed.

(** * Further properties: non-maximum suppression and selection *)

Lemma existsb_overlaps_true (thr : Q) (keep : list Detection) (d : Detection) :
  existsb (fun k => overlaps thr k d) keep = true
  -> exists k, k ∈ keep /\ overlaps thr k d = true.
Proof.
  induction keep as [|k keep IH]; simpl; [done|].
  rewrite orb_true_iff. intros [Hk|Hrest].
  - exists k. split; [left|done].
  - destruct (IH Hrest) as (k' & Hin & Ho). exists k'. split; [by right|done].
Qed.

Lemma greedy_walk_keeps (thr : Q) (ds keep : list Detection) (k : Detection) :
  k ∈ keep -> k ∈ greedy_walk thr keep ds.
Proof.
  intros Hk. destruct (greedy_walk_extends thr ds keep) as (ks & -> & _).
  apply elem_of_app. by left.
Qed.

(** Every detection of the walk is kept or overlapped by a kept
    detection that is not smaller. *)
Lemma greedy_walk_covers (thr : Q) (ds keep : list Detection) :
  StronglySorted area_desc ds ->
  Forall (fun k => Forall (fun d => area d <= area k) ds) keep ->
  forall d, d ∈ ds ->
    d ∈ greedy_walk thr keep ds
    \/ exists k, k ∈ greedy_walk thr keep ds
                 /\ overlaps thr k d = true /\ area d <= area k.
Proof.
  revert keep. induction ds as [|d0 ds IH]; intros keep Hsorted Hkeep d Hd.
  - by apply elem_of_nil in Hd.
  - apply StronglySorted_inv in Hsorted as [Hsorted Hd0].
    assert (Hkeep' : Forall (fun k => Forall (fun d => area d <= area k) ds)
                            keep).
    { eapply Forall_impl; [exact Hkeep|]. intros k Hk.
      by apply Forall_cons in Hk as [_ ?]. }
    simpl. destruct (existsb _ keep) eqn:E.
    + apply elem_of_cons in Hd as [->|Hd]; [|by apply IH].
      right. apply existsb_overlaps_true in E as (k & Hk & Ho).
      exists k. split; [by apply greedy_walk_keeps|]. split; [done|].
      rewrite Forall_forall in Hkeep. specialize (Hkeep k Hk).
      by apply Forall_cons in Hkeep as [? _].
    + assert (Hkeep'' : Forall (fun k => Forall (fun d => area d <= area k) ds)
                               (keep ++ [d0])).
      { apply Forall_app. split; [done|]. apply Forall_singleton.
        exact Hd0. }
      apply elem_of_cons in Hd as [->|Hd]; [|by apply IH].
      left. apply greedy_walk_keeps. apply elem_of_app. right. left.
Qed.

Lemma sorted_head_largest (d : Detection) (l ds : list Detection) :
  StronglySorted area_desc (d :: l) -> d :: l ≡ₚ ds ->
  d ∈ ds /\ forall e, e ∈ ds -> area e <= area d.
Proof.
  intros Hs Hp. apply StronglySorted_inv in Hs as [_ Hd].
  split; [rewrite <- Hp; left|].
  intros e He. rewrite <- Hp in He.
  apply elem_of_cons in He as [->|He]; [lia|].
  rewrite Forall_forall in Hd. by apply Hd.
Qed.

(** X4: on an empty list non-maximum suppression returns the empty list;
    on a non-empty list it returns a non-empty list whose first element is
    a detection of largest area of the input. *)
Theorem nms_first_is_largest (ds : list Detection) (thr : Q) :
  nonMaximumSuppression [] thr = []
  /\ (ds <> [] ->
      exists d rest,
        nonMaximumSuppression ds thr = d :: rest
        /\ d ∈ ds /\ forall e, e ∈ ds -> area e <= area d).
Proof.
  split; [reflexivity|]. intros Hne.
  rewrite nonMaximumSuppression_greedy.
  pose proof (array_sort_Permutation area ds
              : array_sort by_area_desc ds ≡ₚ ds) as Hperm.
  pose proof (array_sort_sorted area ds
              : StronglySorted area_desc (array_sort by_area_desc ds))
    as Hsorted.
  destruct (array_sort by_area_desc ds) as [|d l] eqn:E.
  - apply Permutation_nil_l in Hperm. done.
  - simpl.
    destruct (greedy_walk_extends thr l [d]) as (ks & -> & _).
    exists d, ks. split; [done|].
    by apply (sorted_head_largest d l).
Qed.

Lemma nms_first_is_largest_witness :
  exists d rest,
    nonMaximumSuppression [mkDet 5 5 10 10 1; mkDet 0 0 40 40 2] (3 # 10)
    = d :: rest
    /\ d ∈ [mkDet 5 5 10 10 1; mkDet 0 0 40 40 2]
    /\ forall e, e ∈ [mkDet 5 5 10 10 1; mkDet 0 0 40 40 2] ->
                 area e <= area d.
Proof.
  apply (nms_first_is_largest [mkDet 5 5 10 10 1; mkDet 0 0 40 40 2]).
  discriminate.
Defined.

(** X5: non-maximum suppression drops a detection only when a kept
    detection of at least its area overlaps it by more than the
    threshold. *)
Theorem nms_dropped_is_overlapped (ds : list Detection) (thr : Q)
        (d : Detection) :
  d ∈ ds ->
  d ∈ nonMaximumSuppression ds thr
  \/ exists k, k ∈ nonMaximumSuppression ds thr
               /\ (thr < computeIOU k d)%Q /\ area d <= area k.
Proof.
  intros Hd. rewrite nonMaximumSuppression_greedy.
  destruct (greedy_walk_covers thr (array_sort by_area_desc ds) []
              (array_sort_sorted area ds) ltac:(constructor) d)
    as [Hkept|(k & Hk & Ho & Ha)].
  - by rewrite (array_sort_Permutation area ds
                : array_sort by_area_desc ds ≡ₚ ds).
  - by left.
  - right. exists k. split; [done|]. split; [|done].
    by apply Qlt_bool_iff.
Qed.

Lemma nms_dropped_is_overlapped_witness :
  let first := mkDet 0 0 100 100 1 in
  let second := mkDet 10 10 100 100 1 in
  second ∈ nonMaximumSuppression [first; second] (3 # 10)
  \/ exists k, k ∈ nonMaximumSuppression [first; second] (3 # 10)
               /\ (3 # 10 < computeIOU k second)%Q /\ area second <= area k.
Proof.
  intros first second.
  apply (nms_dropped_is_overlapped [first; second] (3 # 10) second).
  right. left.
Defined.

(** X6: the output of non-maximum suppression is ordered by area, largest
    first, is not longer than the input, and contains no detection twice
    when the input does not. *)
Theorem nms_output_ordered (ds : list Detection) (thr : Q) :
  StronglySorted area_desc (nonMaximumSuppression ds thr)
  /\ (length (nonMaximumSuppression ds thr) <= length ds)%nat
  /\ (NoDup ds -> NoDup (nonMaximumSuppression ds thr)).
Proof.
  pose proof (nonMaximumSuppression_sublist ds thr) as Hsub.
  pose proof (array_sort_Permutation area ds
              : array_sort by_area_desc ds ≡ₚ ds) as Hperm.
  split; [|split].
  - eapply StronglySorted_sublist; [exact Hsub|].
    apply (array_sort_sorted area).
  - apply sublist_length in Hsub. by rewrite Hperm in Hsub.
  - intros Hnd. eapply sublist_NoDup; [|exact Hsub]. by rewrite Hperm.
Qed.

Lemma nms_output_ordered_witness :
  NoDup (nonMaximumSuppression [mkDet 5 5 10 10 1; mkDet 0 0 40 40 2]
                               (3 # 10)).
Proof.
  apply (nms_output_ordered [mkDet 5 5 10 10 1; mkDet 0 0 40 40 2] (3 # 10)).
  apply NoDup_cons. split; [|apply NoDup_singleton].
  intros H. apply list_elem_of_singleton in H. discriminate.
Defined.

(** ** selectBestFace *)

Lemma selectBestFace_member (detections : list Detection)
      (previousBox : option Detection) (d : Detection) :
  selectBestFace detections previousBox = Some d -> d ∈ detections.
Proof.
  destruct detections as [|first rest]; [done|].
  pose proof (pick_larger_fold rest first) as [Hlargest _].
  unfold selectBestFace.
  destruct previousBox as [previous|]; [|by intros [= <-]].
  destruct (match_step_fold previous (first :: rest) None 0%Q)
    as (_ & _ & Hst).
  cbv zeta in Hst.
  destruct (foldl (match_step previous) (None, 0%Q) (first :: rest))
    as [bestMatch bestScore].
  destruct Hst as [Hinit|(c & Hc & Heq & _)].
  - injection Hinit as -> ->. by intros [= <-].
  - injection Heq as -> ->.
    destruct (Qlt_bool (calculateIoU previous c) (1 # 10));
      by intros [= <-].
Qed.

(** X7: when the list of candidates contains a box with the origin and
    size of the previous one (of positive sides), [selectBestFace] returns
    a candidate with that origin and size: a face detected again at the
    same place is selected again, whatever larger candidates there are. *)
Theorem selectBestFace_keeps_previous (detections : list Detection)
        (previous c : Detection) :
  c ∈ detections -> same_box previous c ->
  0 < det_w previous -> 0 < det_h previous ->
  exists d, selectBestFace detections (Some previous) = Some d
            /\ d ∈ detections /\ same_box previous d.
Proof.
  intros Hc Hsame Hw Hh.
  assert (Hone : (calculateIoU previous c == 1)%Q).
  { rewrite calculateIoU_computeIOU. by apply iou_one_iff. }
  destruct detections as [|first rest]; [by apply elem_of_nil in Hc|].
  unfold selectBestFace.
  destruct (match_step_fold previous (first :: rest) None 0%Q)
    as (_ & Hall & Hst).
  cbv zeta in Hall, Hst.
  destruct (foldl (match_step previous) (None, 0%Q) (first :: rest))
    as [bestMatch bestScore].
  simpl in Hall. pose proof (Hall c Hc) as Hcb.
  destruct Hst as [Hinit|(d & Hd & Heq & _)].
  - injection Hinit as -> ->. lra.
  - injection Heq as -> ->.
    destruct (Qlt_bool (calculateIoU previous d) (1 # 10)) eqn:E.
    + apply Qlt_bool_iff in E. lra.
    + exists d. split; [done|]. split; [done|].
      rewrite !calculateIoU_computeIOU in Hcb.
      rewrite calculateIoU_computeIOU in Hone.
      pose proof (iou_range previous d) as [_ Hle].
      apply (iou_one_iff previous d). apply Qle_antisym; lra.
Qed.

Lemma selectBestFace_keeps_previous_witness :
  let previous := mkDet 50 50 60 60 1 in
  let again := mkDet 50 50 60 60 (12 # 10) in
  let larger := mkDet 40 40 200 200 2 in
  exists d, selectBestFace [larger; again] (Some previous) = Some d
            /\ d ∈ [larger; again] /\ same_box previous d.
Proof.
  intros previous again larger.
  apply (selectBestFace_keeps_previous [larger; again] previous again).
  - right. left.
  - unfold same_box. simpl. lia.
  - simpl. lia.
  - simpl. lia.
Defined.

(** X8: [selectBestFace] returns one of its candidates; applied to what
    [detectFaces] returns, as in the frame loop, the selected box lies
    inside the image and has sides of at least [minSize]. *)
Theorem selected_face_inside (Math_sqrt : Q -> Q) (fuel : nat)
        (gray : list num) (width height : Z) (cascade : Haar.Cascade)
        (features : list Haar.HaarFeature) (options : Options)
        (dets : list Detection) (previousBox : option Detection)
        (d : Detection) :
  detectFaces Math_sqrt fuel gray width height cascade features options
  = Ret dets ->
  selectBestFace dets previousBox = Some d ->
  d ∈ dets
  /\ in_image width height d
  /\ at_least (opt_minSize cascade options) d.
Proof.
  intros Hrun Hsel.
  pose proof (selectBestFace_member dets previousBox d Hsel) as Hd.
  split; [exact Hd|].
  unfold detectFaces in Hrun.
  destruct (detectFaces_scan Math_sqrt fuel gray width height cascade
              features options) as [st| |] eqn:Escan; simpl in Hrun;
    try done.
  injection Hrun as <-.
  destruct (detectFaces_scan_recorded _ _ _ _ _ _ _ _ _ Escan)
    as (ii & ii2 & _ & Hok).
  apply nonMaximumSuppression_subset in Hd.
  destruct (Hok d Hd) as (_ & _ & Hin & Hmin). done.
Qed.

Lemma selected_face_inside_witness :
  let gray := fin <$> [1; 2; 3; 4; 5; 6; 7; 8; 9]%Q in
  let options := mkOptions None None None in
  let d := mkDet 0 0 3 3 (144 # 100) in
  d ∈ [d] /\ in_image 3 3 d /\ at_least (opt_minSize accepting_cascade options) d.
Proof.
  intros gray options d.
  apply (selected_face_inside sqrt_6dp 5 gray 3 3 accepting_cascade []
           options [d] None d).
  - vm_compute. reflexivity.
  - reflexivity.
Defined.

(** * Further properties: js/image.js *)

(** ** Shape of the integral tables *)

Lemma column_step_lengths (gray : list num) (width y : Z) (xs : list Z)
      (st : Image.IIState) :
  let st' := foldl (Image.column_step gray width y) st xs in
  length (Image.ii st') = length (Image.ii st)
  /\ length (Image.ii2 st') = length (Image.ii2 st).
Proof.
  cbv zeta. revert st. induction xs as [|x xs IH]; intros st; simpl; [done|].
  destruct (IH (Image.column_step gray width y st x)) as [-> ->].
  simpl. by rewrite !length_aset.
Qed.

Lemma row_step_lengths (gray : list num) (width : Z) (ys : list Z)
      (st : Image.IIState) :
  let st' := foldl (Image.row_step gray width) st ys in
  length (Image.ii st') = length (Image.ii st)
  /\ length (Image.ii2 st') = length (Image.ii2 st).
Proof.
  cbv zeta. revert st. induction ys as [|y ys IH]; intros st; simpl; [done|].
  destruct (IH (Image.row_step gray width st y)) as [-> ->].
  unfold Image.row_step.
  destruct (column_step_lengths gray width y (seqZ 0 width)
              (Image.mkII (fin 0) (fin 0) (Image.ii st) (Image.ii2 st)))
    as [H1 H2].
  done.
Qed.



(** ** Finite tables *)

Lemma integral_tables_finite (pix : list Q) (width height : Z) :
  0 <= width -> 0 <= height ->
  Z.of_nat (length pix) = width * height ->
  exists ii ii2,
    Image.computeIntegralImage (fin <$> pix) width height = Ret (ii, ii2)
    /\ finite_table ii width height /\ finite_table ii2 width height.
Proof.
  intros Hw Hh Hlen.
  destruct (integral_tables pix width height Hw Hh Hlen)
    as (ii & ii2 & Hrun & Hl1 & Hl2 & Hv1 & Hv2).
  exists ii, ii2. split; [done|].
  assert (Hfin : forall (t : list num) (g : Z -> Z -> Q),
            Z.of_nat (length t) = width * height ->
            (forall x y, 0 <= x < width -> 0 <= y < height ->
                         is_value (Image.aget t (y * width + x)) (g x y)) ->
            Forall is_Some t).
  { intros t g Hl Hv. apply Forall_lookup. intros i v Hi.
    assert (Hlt : (i < length t)%nat) by (by eapply lookup_lt_Some).
    assert (0 < width) by nia.
    pose proof (Z.div_mod (Z.of_nat i) width ltac:(lia)) as Hdm.
    pose proof (Z.mod_pos_bound (Z.of_nat i) width ltac:(lia)) as Hm.
    assert (0 <= Z.of_nat i `div` width < height).
    { split; [apply Z.div_pos; lia|].
      apply Z.div_lt_upper_bound; nia. }
    specialize (Hv (Z.of_nat i `mod` width) (Z.of_nat i `div` width)
                   ltac:(lia) ltac:(lia)).
    replace (Z.of_nat i `div` width * width + Z.of_nat i `mod` width)
      with (Z.of_nat i) in Hv by lia.
    rewrite aget_in_range in Hv by lia.
    rewrite Nat2Z.id in Hv.
    rewrite (list_lookup_total_correct _ _ _ Hi) in Hv.
    destruct v; [eauto|done]. }
  split; (split; [done|]).
  - exact (Hfin ii _ Hl1 Hv1).
  - exact (Hfin ii2 _ Hl2 Hv2).
Qed.

(** X10: on a table of the size of the image without [NaN], [rectSum]
    over a rectangle of positive extent inside the image reads only
    indices of the buffer and returns a finite value. *)
Theorem rectSum_safe_inside (t : list num) (width height x y w h : Z) :
  finite_table t width height ->
  inside width height x y w h ->
  Forall (Image.in_buffer t) (Image.rectSum_reads width x y w h)
  /\ Image.rectSum_reads width x y w h <> []
  /\ is_Some (Image.rectSum t width x y w h).
Proof.
  intros Hfin Hin. split; [|split].
  - destruct Hfin as [Hlen _]. by apply (rectSum_reads_inside t width height).
  - destruct Hin as (Hx & Hy & Hw & Hh & _).
    unfold Image.rectSum_reads.
    destruct (Z.ltb_spec x 0), (Z.ltb_spec y 0),
             (Z.leb_spec w 0), (Z.leb_spec h 0); simpl orb; try lia.
    destruct (Z.ltb_spec (x + w - 1) 0), (Z.ltb_spec (y + h - 1) 0);
      simpl orb; try lia. done.
  - by apply (rectSum_finite t width height).
Qed.

Lemma rectSum_safe_inside_witness :
  let t := [fin 1; fin 3; fin 4; fin 10] in
  Forall (Image.in_buffer t) (Image.rectSum_reads 2 1 1 1 1)
  /\ Image.rectSum_reads 2 1 1 1 1 <> []
  /\ is_Some (Image.rectSum t 2 1 1 1 1).
Proof.
  intros t. apply (rectSum_safe_inside t 2 2 1 1 1 1).
  - split; [reflexivity|]. repeat constructor; eauto.
  - unfold inside. lia.
Defined.

(** ** Additivity *)

Lemma pixel_sum_split_columns (pix : list Q) (width x y w1 w2 h : Z) :
  0 <= w1 -> 0 <= w2 ->
  (pixel_sum pix width x y (w1 + w2) h
   == pixel_sum pix width x y w1 h + pixel_sum pix width (x + w1) y w2 h)%Q.
Proof.
  intros H1 H2. unfold pixel_sum.
  rewrite <- sum_range_plus. apply sum_range_ext. intros j _.
  by apply sum_range_app.
Qed.

Lemma pixel_sum_split_rows (pix : list Q) (width x y w h1 h2 : Z) :
  0 <= h1 -> 0 <= h2 ->
  (pixel_sum pix width x y w (h1 + h2)
   == pixel_sum pix width x y w h1 + pixel_sum pix width x (y + h1) w h2)%Q.
Proof. intros H1 H2. unfold pixel_sum. by apply sum_range_app. Qed.



(** ** Grayscale conversion *)

Lemma byte_at_in_range (data : list Z) (k : Z) :
  0 <= k < Z.of_nat (length data) ->
  Image.byte_at data k = Some (inject_Z (byte data k)).
Proof.
  intros Hk. unfold Image.byte_at, byte.
  destruct (Z.leb_spec 0 k); [|lia].
  destruct (lookup_lt_is_Some_2 data (Z.to_nat k)) as [v ->]; [lia|done].
Qed.

Lemma luma_image_snoc (data : list Z) (n : nat) :
  luma_image data (Z.of_nat (S n))
  = luma_image data (Z.of_nat n)
    ++ [luma (byte data (Z.of_nat n * 4)) (byte data (Z.of_nat n * 4 + 1))
             (byte data (Z.of_nat n * 4 + 2))].
Proof. unfold luma_image. by rewrite seqZ_S, fmap_app. Qed.

Lemma luma_image_length (data : list Z) (n : Z) :
  length (luma_image data n) = Z.to_nat n.
Proof. unfold luma_image. by rewrite length_fmap, length_seqZ. Qed.

(** The loop after [n] pixels, on the zero-filled array of [N]
    entries. *)
Lemma luma_loop (data : list Z) (N n : nat) :
  4 * Z.of_nat N <= Z.of_nat (length data) -> (n <= N)%nat ->
  foldl (Image.luma_step data) (replicate N (fin 0)) (seqZ 0 (Z.of_nat n))
  = (fin <$> luma_image data (Z.of_nat n)) ++ replicate (N - n) (fin 0).
Proof.
  intros Hdata. induction n as [|n IH]; intros Hn.
  - change (Z.of_nat 0) with 0. rewrite seqZ_nil by lia.
    simpl. by rewrite Nat.sub_0_r.
  - rewrite seqZ_S, foldl_app, IH by lia. simpl foldl.
    rewrite Z.add_0_l. unfold Image.luma_step.
    rewrite !byte_at_in_range by lia. simpl nadd.
    unfold Image.aset. destruct (Z.leb_spec 0 (Z.of_nat n)); [|lia].
    rewrite Nat2Z.id.
    rewrite insert_app_r_alt
      by (rewrite length_fmap, luma_image_length; lia).
    rewrite length_fmap, luma_image_length, Nat2Z.id, Nat.sub_diag.
    replace (N - n)%nat with (S (N - S n)) by lia.
    rewrite luma_image_snoc, fmap_app, <- app_assoc. done.
Qed.

Lemma luma_bounds (r g b : Z) :
  0 <= r <= 255 -> 0 <= g <= 255 -> 0 <= b <= 255 ->
  (0 <= luma r g b <= 255)%Q.
Proof.
  intros Hr Hg Hb. unfold luma.
  assert (0 <= inject_Z r <= 255)%Q.
  { change 0%Q with (inject_Z 0). change 255%Q with (inject_Z 255).
    rewrite <- !Zle_Qle. lia. }
  assert (0 <= inject_Z g <= 255)%Q.
  { change 0%Q with (inject_Z 0). change 255%Q with (inject_Z 255).
    rewrite <- !Zle_Qle. lia. }
  assert (0 <= inject_Z b <= 255)%Q.
  { change 0%Q with (inject_Z 0). change 255%Q with (inject_Z 255).
    rewrite <- !Zle_Qle. lia. }
  lra.
Qed.

Lemma byte_bounds (data : list Z) (k : Z) :
  Forall (fun v => 0 <= v <= 255) data -> 0 <= byte data k <= 255.
Proof.
  intros Hdata. unfold byte.
  destruct (data !! Z.to_nat k) as [v|] eqn:E; simpl; [|lia].
  exact (Forall_lookup_1 _ _ _ _ Hdata E).
Qed.

(** The conversion in closed form. *)
Lemma grayscale_closed_form (canvas : Image.Canvas) :
  let width := Image.canvas_width canvas in
  let height := Image.canvas_height canvas in
  let data := Image.canvas_data canvas in
  canvas_ok canvas ->
  Image.getGrayscaleFromCanvas canvas
  = Ret (fin <$> luma_image data (width * height), width, height)
  /\ Z.of_nat (length (luma_image data (width * height))) = width * height.
Proof.
  intros width height data (Hw & Hh & Hlen & Hbytes).
  fold width height data in Hlen, Hbytes.
  split.
  - unfold Image.getGrayscaleFromCanvas, Image.new_Float32Array.
    fold width height data.
    destruct (Z.eqb_spec width 0); [lia|].
    destruct (Z.eqb_spec height 0); [lia|]. simpl orb. cbv iota.
    destruct (Z.ltb_spec (width * height) 0); [nia|].
    cbn [mbind Run_bind].
    rewrite <- (Z2Nat.id (width * height)) at 2 by nia.
    rewrite luma_loop by lia.
    rewrite Z2Nat.id by nia. rewrite Nat.sub_diag. simpl.
    by rewrite app_nil_r.
  - rewrite luma_image_length. nia.
Qed.



(** * Further properties: from the canvas to the scan *)

(** X13: for a canvas with four bytes of RGBA data per pixel, the
    grayscale conversion followed by [computeIntegralImage] yields two
    tables of the size of the image without [NaN]; hence the standard
    deviation that [evaluateCascade] computes for a window of positive
    extent inside the image is a number, and at least 1 (for a square
    root that maps values from 1 on to values from 1 on). *)
Theorem frame_statistics_finite (Math_sqrt : Q -> Q) (canvas : Image.Canvas) :
  (forall q, (1 <= q)%Q -> (1 <= Math_sqrt q)%Q) ->
  canvas_ok canvas ->
  let width := Image.canvas_width canvas in
  let height := Image.canvas_height canvas in
  exists gray ii ii2,
    Image.getGrayscaleFromCanvas canvas = Ret (gray, width, height)
    /\ Image.computeIntegralImage gray width height = Ret (ii, ii2)
    /\ finite_table ii width height
    /\ finite_table ii2 width height
    /\ (forall wx wy winW winH,
          inside width height wx wy winW winH ->
          exists s,
            Haar.window_stdDev Math_sqrt ii ii2 width wx wy winW winH
            = Some s
            /\ (1 <= s)%Q).
Proof.
  intros Hsqrt Hok width height.
  destruct (grayscale_closed_form canvas Hok) as (Hgray & Hlen).
  fold width height in Hgray, Hlen.
  pose proof Hok as (Hw & Hh & _). fold width height in Hw, Hh.
  destruct (integral_tables_finite
              (luma_image (Image.canvas_data canvas) (width * height))
              width height ltac:(lia) ltac:(lia) Hlen)
    as (ii & ii2 & Hrun & Hf1 & Hf2).
  eexists _, ii, ii2. split; [exact Hgray|]. split; [exact Hrun|].
  split; [exact Hf1|]. split; [exact Hf2|].
  intros wx wy winW winH Hin.
  destruct (window_variance_finite ii ii2 width height wx wy winW winH
              Hf1 Hf2 Hin) as [v Hv].
  unfold Haar.window_stdDev. rewrite Hv.
  destruct (stdDev_of_variance Math_sqrt Hsqrt v) as (s & -> & _ & Hs & _).
  eauto.
Qed.

Lemma frame_statistics_finite_witness :
  let canvas :=
    Image.mkCanvas 2 2 [10; 20; 30; 255; 40; 50; 60; 255;
                        70; 80; 90; 255; 100; 110; 120; 255] in
  exists gray ii ii2,
    Image.getGrayscaleFromCanvas canvas = Ret (gray, 2, 2)
    /\ Image.computeIntegralImage gray 2 2 = Ret (ii, ii2)
    /\ finite_table ii 2 2
    /\ finite_table ii2 2 2
    /\ (forall wx wy winW winH,
          inside 2 2 wx wy winW winH ->
          exists s,
            Haar.window_stdDev sqrt_6dp ii ii2 2 wx wy winW winH = Some s
            /\ (1 <= s)%Q).
Proof.
  intros canvas.
  apply (frame_statistics_finite sqrt_6dp canvas sqrt_6dp_ge_1).
  split; [simpl; lia|]. split; [simpl; lia|]. split; [reflexivity|].
  simpl. repeat constructor; lia.
Defined.

(** ** The windows that a scan evaluates *)

Section Evaluated.

Variable Math_sqrt : Q -> Q.
Variables (cascade : Haar.Cascade) (features : list Haar.HaarFeature).
Variables (ii ii2 : list num) (width height : Z).
Variable good : Detection -> Prop.

Lemma for_x_evaluated (fuel : nat) (scale : Q) (winW winH step y x : Z)
      (st st' : ScanState) :
  for_x Math_sqrt cascade features ii ii2 width fuel scale winW winH step y x st
  = Ret st' ->
  0 < step -> 0 <= x ->
  (forall x', 0 <= x' <= width - winW -> good (mkDet x' y winW winH scale)) ->
  Forall good (evaluated st) -> Forall good (evaluated st').
Proof.
  intros Hrun Hstep Hx Hgood. revert x st Hrun Hx.
  induction fuel as [|fuel IH]; intros x st Hrun Hx Hst; simpl in Hrun.
  - done.
  - destruct (Z.leb_spec x (width - winW)) as [Hle|Hgt].
    + destruct (Haar.evaluateCascade Math_sqrt cascade features ii ii2 width
                  x y scale winW winH) as [isFace| |];
        simpl in Hrun; try done.
      apply IH in Hrun; [done|lia|]. simpl.
      apply Forall_app. split; [done|].
      apply Forall_singleton. apply Hgood. lia.
    + by injection Hrun as <-.
Qed.

Lemma for_y_evaluated (budget fuel : nat) (scale : Q) (winW winH step y : Z)
      (st st' : ScanState) :
  for_y Math_sqrt cascade features ii ii2 width height budget fuel scale
        winW winH step y st = Ret st' ->
  0 < step -> 0 <= y ->
  (forall x' y', 0 <= x' <= width - winW -> 0 <= y' <= height - winH ->
                 good (mkDet x' y' winW winH scale)) ->
  Forall good (evaluated st) -> Forall good (evaluated st').
Proof.
  intros Hrun Hstep Hy Hgood. revert y st Hrun Hy.
  induction fuel as [|fuel IH]; intros y st Hrun Hy Hst; simpl in Hrun.
  - done.
  - destruct (Z.leb_spec y (height - winH)) as [Hle|Hgt].
    + destruct (for_x Math_sqrt cascade features ii ii2 width budget scale
                      winW winH step y 0 st) as [st1| |] eqn:E;
        simpl in Hrun; try done.
      apply IH in Hrun; [done|lia|].
      eapply for_x_evaluated; [exact E|done|lia| |done].
      intros x' Hx'. apply Hgood; lia.
    + by injection Hrun as <-.
Qed.

End Evaluated.

Lemma while_scale_evaluated (Math_sqrt : Q -> Q) (cascade : Haar.Cascade)
      (features : list Haar.HaarFeature) (ii ii2 : list num)
      (width height : Z) (baseW baseH scaleFactor minSize maxSize : Q)
      (budget fuel : nat) (scale : Q) (st st' : ScanState) :
  while_scale Math_sqrt cascade features ii ii2 width height
              baseW baseH scaleFactor minSize maxSize budget fuel scale st
  = Ret st' ->
  Forall (window_ok width height baseW baseH minSize maxSize) (evaluated st) ->
  Forall (window_ok width height baseW baseH minSize maxSize) (evaluated st').
Proof.
  revert scale st.
  induction fuel as [|fuel IH]; intros scale st Hrun Hst; simpl in Hrun.
  - done.
  - destruct (Qle_bool (baseW * scale) maxSize
              && Qle_bool (baseH * scale) maxSize) eqn:Ein;
      [|by injection Hrun as <-].
    apply within_maxSize_bool in Ein.
    destruct (Qlt_bool (inject_Z (Math_round (baseW * scale))) minSize)
      eqn:EW; simpl in Hrun; [by eapply IH|].
    destruct (Qlt_bool (inject_Z (Math_round (baseH * scale))) minSize)
      eqn:EH; simpl in Hrun; [by eapply IH|].
    apply Qlt_bool_false_iff in EW, EH.
    destruct (for_y _ _ _ _ _ _ _ _ _ _ _ _ _ _ _) as [st1| |] eqn:E;
      simpl in Hrun; try done.
    eapply IH; [exact Hrun|].
    eapply for_y_evaluated; [exact E|lia|lia| |done].
    intros x' y' Hx' Hy'.
    split; [unfold in_image; simpl; lia|].
    split; [by split|]. simpl. done.
Qed.

(** X14: every window that a finished scan has handed to the cascade lies
    inside the image, has the rounded size of the base window at its
    scale, which is at least [minSize] on both axes, and belongs to a
    scale at which the unrounded size is within [maxSize]; the raw
    detections are among these windows. *)
Theorem scan_windows_inside (Math_sqrt : Q -> Q) (fuel : nat)
        (gray : list num) (width height : Z) (cascade : Haar.Cascade)
        (features : list Haar.HaarFeature) (options : Options)
        (st : ScanState) :
  detectFaces_scan Math_sqrt fuel gray width height cascade features options
  = Ret st ->
  Forall (window_ok width height
            (Haar.baseWindowWidth cascade) (Haar.baseWindowHeight cascade)
            (opt_minSize cascade options) (opt_maxSize width height options))
         (evaluated st)
  /\ detections st ⊆ evaluated st.
Proof.
  intros Hrun. split.
  - unfold detectFaces_scan in Hrun.
    destruct (Image.computeIntegralImage gray width height)
      as [[ii ii2]| |]; simpl in Hrun; try done.
    destruct (Qeq_bool (Haar.baseWindowWidth cascade) 0
              || Qeq_bool (Haar.baseWindowHeight cascade) 0).
    + injection Hrun as <-. constructor.
    + eapply while_scale_evaluated; [exact Hrun|]. constructor.
  - destruct (detectFaces_scan_recorded _ _ _ _ _ _ _ _ _ Hrun)
      as (ii & ii2 & _ & Hok).
    intros d Hd. by destruct (Hok d Hd) as (? & _).
Qed.

Lemma scan_windows_inside_witness :
  let gray := fin <$> [1; 2; 3; 4; 5; 6; 7; 8; 9]%Q in
  let options := mkOptions None None None in
  let st := mkScan [] [mkDet 0 0 2 2 1; mkDet 0 0 2 2 (12 # 10);
                       mkDet 0 0 3 3 (144 # 100)] in
  Forall (window_ok 3 3 2 2 2 3) (evaluated st)
  /\ detections st ⊆ evaluated st.
Proof.
  intros gray options st.
  apply (scan_windows_inside sqrt_6dp 5 gray 3 3 rejecting_cascade
           [null_feature] options st).
  vm_compute. reflexivity.
Defined.

(** * Further properties: exceptions and edge cases of the detector *)

Lemma stage_sum_throws (features : list Haar.HaarFeature) (ii : list num)
      (imageWidth wx wy : Z) (scale : Q) (invArea stdDev : num)
      (wcs : list Haar.WeakClassifier) (sum : Q) :
  Haar.stage_sum features ii imageWidth wx wy scale invArea stdDev wcs sum
  = Throw
  <-> Exists (fun wc => features !! Haar.featureIndex wc = None) wcs.
Proof.
  revert sum. induction wcs as [|wc wcs IH]; intros sum;
    cbn [Haar.stage_sum].
  - split; [done|]. intros H. by apply Exists_nil in H.
  - rewrite Exists_cons.
    destruct (features !! Haar.featureIndex wc) as [feature|] eqn:E.
    + rewrite IH. split; [by right|]. by intros [?|?].
    + split; [by left|done].
Qed.

(** X15: [evaluateStage] throws exactly when one of the weak classifiers
    of the stage refers to a feature that is not in the table, and
    returns a verdict otherwise; [evaluateCascade] returns a verdict when
    no stage has such a classifier. *)
Theorem evaluateStage_throws_iff (stage : Haar.Stage)
        (features : list Haar.HaarFeature) (ii : list num)
        (imageWidth wx wy : Z) (scale : Q) (invArea stdDev : num) :
  (Haar.evaluateStage stage features ii imageWidth wx wy scale invArea stdDev
   = Throw
   <-> Exists (fun wc => features !! Haar.featureIndex wc = None)
              (Haar.weakClassifiers stage))
  /\ (indices_valid features stage <->
      exists pass,
        Haar.evaluateStage stage features ii imageWidth wx wy scale
                           invArea stdDev = Ret pass)
  /\ (forall Math_sqrt cascade ii2 winW winH,
        Forall (indices_valid features) (Haar.stages cascade) ->
        exists isFace,
          Haar.evaluateCascade Math_sqrt cascade features ii ii2 imageWidth
                               wx wy scale winW winH = Ret isFace).
Proof.
  assert (Hthrow :
    Haar.evaluateStage stage features ii imageWidth wx wy scale invArea stdDev
    = Throw
    <-> Exists (fun wc => features !! Haar.featureIndex wc = None)
               (Haar.weakClassifiers stage)).
  { rewrite <- (stage_sum_throws features ii imageWidth wx wy scale invArea
                  stdDev (Haar.weakClassifiers stage) 0%Q).
    unfold Haar.evaluateStage.
    by destruct (Haar.stage_sum _ _ _ _ _ _ _ _ _ _). }
  split; [exact Hthrow|]. split.
  - split.
    + intros Hvalid.
      destruct (evaluateStage_threshold stage features ii imageWidth wx wy
                  scale invArea stdDev Hvalid) as (pass & Hpass & _).
      eauto.
    + intros [pass Hpass]. unfold indices_valid.
      apply Forall_forall. intros wc Hwc.
      destruct (features !! Haar.featureIndex wc) eqn:E; [eauto|].
      assert (Haar.evaluateStage stage features ii imageWidth wx wy scale
                                 invArea stdDev = Throw); [|congruence].
      apply Hthrow. apply Exists_exists. eauto.
  - intros Math_sqrt cascade ii2 winW winH.
    apply evaluateCascade_returns.
Qed.

Lemma evaluateStage_throws_iff_witness :
  Haar.evaluateStage dangling_stage [null_feature] [] 0 0 0 1 (fin 1) (fin 1)
  = Throw.
Proof.
  apply (evaluateStage_throws_iff dangling_stage [null_feature] [] 0 0 0 1
           (fin 1) (fin 1)).
  apply Exists_cons. left. reflexivity.
Defined.

(** X16: a cascade without base window width or height is a defined "no
    detector" case: for every image that can be allocated, every option
    and every iteration budget, [detectFaces] evaluates no window and
    returns the empty list. *)
Theorem detectFaces_without_base_window (Math_sqrt : Q -> Q) (fuel : nat)
        (gray : list num) (width height : Z) (cascade : Haar.Cascade)
        (features : list Haar.HaarFeature) (options : Options) :
  (Haar.baseWindowWidth cascade == 0)%Q
  \/ (Haar.baseWindowHeight cascade == 0)%Q ->
  0 <= width * height ->
  detectFaces_scan Math_sqrt fuel gray width height cascade features options
  = Ret (mkScan [] [])
  /\ detectFaces Math_sqrt fuel gray width height cascade features options
     = Ret [].
Proof.
  intros Hbase Hdim.
  assert (Hscan : detectFaces_scan Math_sqrt fuel gray width height cascade
                                   features options = Ret (mkScan [] [])).
  { unfold detectFaces_scan.
    destruct (computeIntegralImage_outcome gray width height) as [_ Hret].
    destruct (Hret Hdim) as (ii & ii2 & ->). cbn [mbind Run_bind].
    assert (Qeq_bool (Haar.baseWindowWidth cascade) 0
            || Qeq_bool (Haar.baseWindowHeight cascade) 0 = true) as ->;
      [|done].
    apply orb_true_iff. rewrite !Qeq_bool_iff. done. }
  split; [exact Hscan|]. unfold detectFaces. by rewrite Hscan.
Qed.

Lemma detectFaces_without_base_window_witness :
  detectFaces sqrt_6dp 0 [fin 1; fin 2; fin 3; fin 4] 2 2
              (Haar.mkCascade 0 24 [dangling_stage]) []
              (mkOptions None None None)
  = Ret [].
Proof.
  apply (detectFaces_without_base_window sqrt_6dp 0 [fin 1; fin 2; fin 3; fin 4]
           2 2 (Haar.mkCascade 0 24 [dangling_stage]) []
           (mkOptions None None None)).
  - left. reflexivity.
  - lia.
Defined.

(** X17: when the base window exceeds [maxSize] on an axis (with the
    default [maxSize]: when the image is smaller than the base window),
    the loop over the scales ends at its first test: [detectFaces]
    evaluates no window and returns the empty list. *)
Theorem detectFaces_base_exceeds_maxSize (Math_sqrt : Q -> Q) (fuel : nat)
        (gray : list num) (width height : Z) (cascade : Haar.Cascade)
        (features : list Haar.HaarFeature) (options : Options) :
  let baseW := Haar.baseWindowWidth cascade in
  let baseH := Haar.baseWindowHeight cascade in
  let maxS := opt_maxSize width height options in
  (maxS < baseW)%Q \/ (maxS < baseH)%Q ->
  0 <= width * height ->
  detectFaces_scan Math_sqrt (S fuel) gray width height cascade features
                   options = Ret (mkScan [] [])
  /\ detectFaces Math_sqrt (S fuel) gray width height cascade features options
     = Ret [].
Proof.
  intros baseW baseH maxS Hbase Hdim.
  assert (Hscan : detectFaces_scan Math_sqrt (S fuel) gray width height
                    cascade features options = Ret (mkScan [] [])).
  { unfold detectFaces_scan.
    destruct (computeIntegralImage_outcome gray width height) as [_ Hret].
    destruct (Hret Hdim) as (ii & ii2 & ->). cbn [mbind Run_bind].
    fold baseW baseH maxS.
    destruct (Qeq_bool baseW 0 || Qeq_bool baseH 0); [done|].
    cbn [while_scale].
    destruct (Qle_bool (baseW * 1) maxS && Qle_bool (baseH * 1) maxS) eqn:E;
      [|done].
    apply andb_true_iff in E as [E1 E2].
    apply Qle_bool_iff in E1, E2. destruct Hbase; lra. }
  split; [exact Hscan|]. unfold detectFaces. by rewrite Hscan.
Qed.

Lemma detectFaces_base_exceeds_maxSize_witness :
  detectFaces sqrt_6dp 1 [fin 1; fin 2; fin 3; fin 4] 2 2
              (Haar.mkCascade 24 24 []) [] (mkOptions None None None)
  = Ret [].
Proof.
  apply (detectFaces_base_exceeds_maxSize sqrt_6dp 0
           [fin 1; fin 2; fin 3; fin 4] 2 2 (Haar.mkCascade 24 24 []) []
           (mkOptions None None None)).
  - left. reflexivity.
  - lia.
Defined.

(** X18: what [detectFaces] returns is ordered by area, largest first,
    and any two of the returned detections overlap with an IoU of at
    most 0.3. *)
Theorem detectFaces_output_separated (Math_sqrt : Q -> Q) (fuel : nat)
        (gray : list num) (width height : Z) (cascade : Haar.Cascade)
        (features : list Haar.HaarFeature) (options : Options)
        (dets : list Detection) :
  detectFaces Math_sqrt fuel gray width height cascade features options
  = Ret dets ->
  StronglySorted area_desc dets
  /\ forall i j a b, i <> j -> dets !! i = Some a -> dets !! j = Some b ->
                     (computeIOU a b <= 3 # 10)%Q.
Proof.
  unfold detectFaces. intros Hrun.
  destruct (detectFaces_scan Math_sqrt fuel gray width height cascade
              features options) as [st| |]; simpl in Hrun; try done.
  injection Hrun as <-. split.
  - eapply StronglySorted_sublist.
    + apply nonMaximumSuppression_sublist.
    + apply (array_sort_sorted area).
  - intros i j a b Hij Hi Hj.
    pose proof (nonMaximumSuppression_compatible (detections st)
                  default_overlapThreshold) as Hc.
    apply Qlt_bool_false_iff.
    destruct (decide (i < j)%nat) as [Hlt|Hge].
    + exact (compatible_lookup _ _ i j a b Hc Hlt Hi Hj).
    + rewrite computeIOU_sym.
      exact (compatible_lookup _ _ j i b a Hc ltac:(lia) Hj Hi).
Qed.

Lemma detectFaces_output_separated_witness :
  let dets := [mkDet 0 0 2 2 1; mkDet 0 2 2 2 1; mkDet 0 4 2 2 1] in
  StronglySorted area_desc dets
  /\ forall i j a b, i <> j -> dets !! i = Some a -> dets !! j = Some b ->
                     (computeIOU a b <= 3 # 10)%Q.
Proof.
  intros dets.
  apply (detectFaces_output_separated sqrt_6dp 5 (replicate 12 (fin 7)) 2 6
           accepting_cascade [] (mkOptions None None None)).
  vm_compute. reflexivity.
Defined.

(** * Further properties: the cascade parser (js/main.js) *)

(** ** Termination and numbering, for every array *)

Lemma parse_rects_index (data : list Q) (count i : nat)
      (rects : list RawRect) :
  snd (parse_rects data count i rects) = (i + 5 * count)%nat.
Proof.
  revert i rects. induction count as [|count IH]; intros i rects; simpl.
  - lia.
  - rewrite IH. lia.
Qed.

Lemma parse_classifiers_numbering (data : list Q) (count : nat)
      (st : ParseState) (wcs : list RawClassifier) :
  let '(st', wcs') := parse_classifiers data count st wcs in
  (parse_i st <= parse_i st')%nat
  /\ parse_featureIndex st' = (parse_featureIndex st + count)%nat
  /\ length (parse_features st') = (length (parse_features st) + count)%nat
  /\ parse_stages st' = parse_stages st
  /\ exists new, wcs' = wcs ++ new
                 /\ raw_featureIndex <$> new
                    = seq (parse_featureIndex st) count.
Proof.
  revert st wcs. induction count as [|count IH]; intros st wcs;
    cbn [parse_classifiers].
  - repeat split; try lia. exists []. by rewrite app_nil_r.
  - destruct (parse_rects data (iterations (data !! (parse_i st + 1)%nat))
                          (parse_i st + 2) []) as [rects i] eqn:Er.
    pose proof (parse_rects_index data
                  (iterations (data !! (parse_i st + 1)%nat))
                  (parse_i st + 2) []) as Hi.
    rewrite Er in Hi. simpl in Hi.
    match goal with
    | |- context [parse_classifiers data count ?s ?w] =>
      specialize (IH s w);
      destruct (parse_classifiers data count s w) as [st' wcs']
    end.
    simpl in IH. destruct IH as (Hle & Hfi & Hlen & Hst & new & -> & Hnew).
    split; [lia|]. split; [lia|].
    split; [rewrite Hlen, length_app; simpl; lia|].
    split; [done|].
    eexists (_ :: new). rewrite <- app_assoc. split; [reflexivity|].
    rewrite fmap_cons, Hnew. done.
Qed.

(** The loop keeps the classifiers numbered through, one per feature. *)
Lemma parse_loop_numbering (data : list Q) (fuel : nat)
      (st st' : ParseState) :
  parse_loop data fuel st = Ret st' ->
  parse_featureIndex st = length (parse_features st) ->
  raw_indices (parse_stages st) = seq 0 (length (parse_features st)) ->
  raw_indices (parse_stages st') = seq 0 (length (parse_features st')).
Proof.
  revert st. induction fuel as [|fuel IH]; intros st Hrun Hfi Hidx;
    cbn [parse_loop] in Hrun; [done|].
  destruct (parse_i st <? length data)%nat; [|by injection Hrun as <-].
  match type of Hrun with
  | context [parse_classifiers data ?c ?s ?w] =>
    pose proof (parse_classifiers_numbering data c s w) as Hnum;
    destruct (parse_classifiers data c s w) as [st1 wcs1]
  end.
  simpl in Hnum.
  destruct Hnum as (_ & Hfi1 & Hlen1 & Hst1 & new & Hwcs & Hnew).
  simpl in Hwcs. subst wcs1.
  apply IH in Hrun; [done| |]; simpl.
  - lia.
  - unfold raw_indices in *. rewrite Hst1, bind_app, fmap_app, Hidx.
    simpl. rewrite app_nil_r, Hnew, Hlen1, Hfi.
    by rewrite seq_app.
Qed.

Lemma parse_loop_returns (data : list Q) (fuel : nat) (st : ParseState) :
  (length data - parse_i st < fuel)%nat ->
  exists st', parse_loop data fuel st = Ret st'.
Proof.
  revert st. induction fuel as [|fuel IH]; intros st Hfuel; [lia|].
  cbn [parse_loop].
  destruct (Nat.ltb_spec (parse_i st) (length data)); [|eauto].
  match goal with
  | |- context [parse_classifiers data ?c ?s ?w] =>
    pose proof (parse_classifiers_numbering data c s w) as Hnum;
    destruct (parse_classifiers data c s w) as [st1 wcs1]
  end.
  simpl in Hnum. destruct Hnum as (Hle & _).
  apply IH. simpl. lia.
Qed.



(** ** Reading back an encoded cascade *)

Lemma read_drop (data : list Q) (i : nat) (l : list Q) (k : nat) (x : Q) :
  drop i data = l -> l !! k = Some x -> data !! (i + k)%nat = Some x.
Proof.
  intros <- <-. by rewrite lookup_drop.
Qed.

Lemma read_drop_0 (data : list Q) (i : nat) (l : list Q) (x : Q) :
  drop i data = l -> l !! 0%nat = Some x -> data !! i = Some x.
Proof.
  intros Hd Hx. rewrite <- (Nat.add_0_r i). by eapply read_drop.
Qed.

Lemma drop_further (data : list Q) (i : nat) (l1 l2 : list Q) :
  drop i data = l1 ++ l2 -> drop (i + length l1) data = l2.
Proof.
  intros Hd. by rewrite <- drop_drop, Hd, drop_app_length.
Qed.

Lemma iterations_length (n : nat) :
  iterations (Some (inject_Z (Z.of_nat n))) = n.
Proof.
  unfold iterations. rewrite Qceiling_Z. apply Nat2Z.id.
Qed.

Lemma parse_rects_encoded (data rest : list Q) (i : nat)
      (rs : list Haar.Rect) (rects : list RawRect) :
  drop i data = (rs ≫= encode_rect) ++ rest ->
  parse_rects data (length rs) i rects
  = (rects ++ (raw_of_rect <$> rs),
     (i + length (rs ≫= encode_rect))%nat).
Proof.
  revert i rects. induction rs as [|r rs IH]; intros i rects Hd.
  - simpl. rewrite app_nil_r. f_equal. lia.
  - rewrite bind_cons, <- app_assoc in Hd. cbn [length parse_rects].
    rewrite (read_drop_0 data i _ _ Hd eq_refl).
    rewrite (read_drop data i _ 1 _ Hd eq_refl).
    rewrite (read_drop data i _ 2 _ Hd eq_refl).
    rewrite (read_drop data i _ 3 _ Hd eq_refl).
    rewrite (read_drop data i _ 4 _ Hd eq_refl).
    apply drop_further in Hd. simpl length in Hd.
    rewrite (IH _ _ Hd). rewrite fmap_cons, <- app_assoc, bind_cons.
    rewrite length_app. simpl. f_equal. lia.
Qed.

Lemma parse_classifiers_encoded (data rest : list Q)
      (cs : list ClassifierDesc) (i featureIndex : nat)
      (features : list RawFeature) (stages : list RawStage)
      (wcs : list RawClassifier) :
  drop i data = (cs ≫= encode_classifier) ++ rest ->
  parse_classifiers data (length cs)
                    (mkParse i featureIndex features stages) wcs
  = (mkParse (i + length (cs ≫= encode_classifier))
             (featureIndex + length cs)
             (features ++ (raw_of_feature <$> (cd_feature <$> cs)))
             stages,
     wcs ++ (raw_of_classifier <$> number_classifiers featureIndex cs)).
Proof.
  revert i featureIndex features wcs.
  induction cs as [|c cs IH]; intros i featureIndex features wcs Hd.
  - simpl. rewrite !app_nil_r. do 2 f_equal; lia.
  - rewrite bind_cons, <- app_assoc in Hd.
    cbn [length parse_classifiers parse_i parse_featureIndex
         parse_features parse_stages].
    unfold encode_classifier at 1 in Hd.
    rewrite (read_drop_0 data i _ _ Hd eq_refl).
    rewrite (read_drop data i _ 1 _ Hd eq_refl).
    rewrite iterations_length.
    rewrite <- !app_assoc in Hd.
    apply (drop_further data i [_; _]) in Hd. simpl length in Hd.
    rewrite (parse_rects_encoded data _ _ _ [] Hd).
    apply drop_further in Hd.
    rewrite (read_drop_0 data _ _ _ Hd eq_refl).
    rewrite (read_drop data _ _ 1 _ Hd eq_refl).
    rewrite (read_drop data _ _ 2 _ Hd eq_refl).
    apply (drop_further data _ [_; _; _]) in Hd. simpl length in Hd.
    rewrite (IH _ _ _ _ Hd).
    rewrite !fmap_cons, <- !app_assoc, bind_cons. simpl.
    f_equal. f_equal; [|lia].
    rewrite !length_app. simpl. lia.
Qed.

Lemma parse_loop_encoded (data : list Q) (ss : list StageDesc)
      (fuel i featureIndex : nat) (features : list RawFeature)
      (stages : list RawStage) :
  (length ss < fuel)%nat ->
  (i <= length data)%nat ->
  drop i data = ss ≫= encode_stage ->
  parse_loop data fuel (mkParse i featureIndex features stages)
  = Ret (mkParse (length data)
                 (featureIndex + length (ss ≫= snd))
                 (features
                  ++ (raw_of_feature <$> (cd_feature <$> (ss ≫= snd))))
                 (stages
                  ++ (raw_of_stage <$> number_stages featureIndex ss))).
Proof.
  revert fuel i featureIndex features stages.
  induction ss as [|s ss IH];
    intros fuel i featureIndex features stages Hfuel Hi Hd;
    (destruct fuel as [|fuel]; [simpl in Hfuel; lia|]);
    cbn [parse_loop parse_i parse_featureIndex parse_features parse_stages].
  - assert (i = length data) as ->.
    { apply (f_equal length) in Hd. rewrite length_drop in Hd.
      simpl in Hd. lia. }
    rewrite Nat.ltb_irrefl. simpl. rewrite !app_nil_r.
    do 2 f_equal. lia.
  - rewrite bind_cons in Hd. unfold encode_stage at 1 in Hd.
    rewrite <- !app_assoc in Hd.
    pose proof (f_equal length Hd) as Hlen.
    rewrite length_drop in Hlen. simpl in Hlen. rewrite length_app in Hlen.
    assert (Hlt : (i <? length data)%nat = true) by (apply Nat.ltb_lt; lia).
    rewrite Hlt.
    rewrite (read_drop_0 data i _ _ Hd eq_refl).
    rewrite (read_drop data i _ 1 _ Hd eq_refl).
    rewrite iterations_length.
    apply (drop_further data i [_; _]) in Hd. simpl length in Hd.
    rewrite (parse_classifiers_encoded data _ _ _ _ _ _ [] Hd).
    cbn [parse_i parse_featureIndex parse_features parse_stages].
    pose proof (drop_further _ _ _ _ Hd) as Hd'.
    rewrite (IH fuel _ _ _ _); [| simpl in Hfuel; lia | | exact Hd'].
    + rewrite bind_cons, !fmap_app, length_app, <- !app_assoc. simpl.
      by rewrite Nat.add_assoc.
    + lia.
Qed.

(** X20: the parser reads back what the format describes. For stages
    given as thresholds and lists of classifiers with their features,
    laid out as width, height and then per stage stageThreshold,
    numWeakClassifiers and per classifier tilted, numRects, the
    rectangles, threshold, left_val, right_val,
    [parseTrackingJsCascade] returns the cascade with these base sizes
    and stages, the classifiers numbered through in file order with
    [alpha = left_val] and [beta = right_val], and the table of their
    features in the same order; one test of the loop per stage and one
    more are enough. *)
Theorem parseTrackingJsCascade_round_trip (baseW baseH : Q)
        (stages : list StageDesc) (fuel : nat) :
  (length stages < fuel)%nat ->
  parseTrackingJsCascade fuel (encode_cascade baseW baseH stages)
  = Ret (raw_of_cascade (described_cascade baseW baseH stages),
         raw_of_feature <$> described_features stages).
Proof.
  intros Hfuel. unfold parseTrackingJsCascade.
  rewrite (parse_loop_encoded _ stages fuel 2 0 [] []);
    [reflexivity | exact Hfuel | | reflexivity].
  unfold encode_cascade. rewrite length_app. simpl. lia.
Qed.

Lemma parseTrackingJsCascade_round_trip_witness :
  parseTrackingJsCascade 2
    (encode_cascade 24 24
       [(1 # 2, [mkClassifierDesc
                   (Haar.mkFeature 0 [Haar.mkRect 0 0 2 1 (-1);
                                      Haar.mkRect 1 0 1 1 2])
                   (1 # 10) (-1) 1])])
  = Ret (mkRawCascade (Some 24%Q) (Some 24%Q)
           [mkRawStage (Some (1 # 2))
              [mkRawClassifier 0 (Some (1 # 10)) (Some (-1)%Q) (Some 1%Q)]],
         [mkRawFeature (Some 0%Q)
            [mkRawRect (Some 0%Q) (Some 0%Q) (Some 2%Q) (Some 1%Q)
                       (Some (-1)%Q);
             mkRawRect (Some 1%Q) (Some 0%Q) (Some 1%Q) (Some 1%Q)
                       (Some 2%Q)]]).
Proof.
  apply (parseTrackingJsCascade_round_trip 24 24
           [(1 # 2, [mkClassifierDesc
                       (Haar.mkFeature 0 [Haar.mkRect 0 0 2 1 (-1);
                                          Haar.mkRect 1 0 1 1 2])
                       (1 # 10) (-1) 1])] 2).
  simpl. lia.
Defined.

(** ** The parsed cascade in the evaluators *)

Lemma number_classifiers_range (featureIndex : nat)
      (cs : list ClassifierDesc) :
  Forall (fun wc => (Haar.featureIndex wc < featureIndex + length cs)%nat)
         (number_classifiers featureIndex cs).
Proof.
  revert featureIndex. induction cs as [|c cs IH]; intros featureIndex;
    simpl; constructor.
  - simpl. lia.
  - eapply Forall_impl; [apply IH|]. simpl. intros wc Hwc. lia.
Qed.

Lemma number_stages_range (featureIndex : nat) (ss : list StageDesc) :
  Forall (fun stage =>
            Forall (fun wc => (Haar.featureIndex wc
                               < featureIndex + length (ss ≫= snd))%nat)
                   (Haar.weakClassifiers stage))
         (number_stages featureIndex ss).
Proof.
  revert featureIndex. induction ss as [|s ss IH]; intros featureIndex;
    [constructor|].
  cbn [number_stages]. rewrite bind_cons, length_app. constructor.
  - cbn [Haar.weakClassifiers].
    eapply Forall_impl; [apply number_classifiers_range|].
    cbn beta. intros wc Hwc. lia.
  - eapply Forall_impl; [apply IH|]. cbn beta. intros stage Hstage.
    eapply Forall_impl; [exact Hstage|]. cbn beta. intros wc Hwc. lia.
Qed.

Lemma described_cascade_valid (baseW baseH : Q) (stages : list StageDesc) :
  Forall (indices_valid (described_features stages))
         (Haar.stages (described_cascade baseW baseH stages)).
Proof.
  simpl. eapply Forall_impl; [apply (number_stages_range 0)|].
  simpl. intros stage Hstage. unfold indices_valid.
  eapply Forall_impl; [exact Hstage|]. simpl. intros wc Hwc.
  apply lookup_lt_is_Some. unfold described_features.
  by rewrite length_fmap.
Qed.

(** X21: the output of the parser is fit for the evaluator. For a file
    in the format, [parseTrackingJsCascade] returns a cascade and a
    feature table on which [evaluateCascade] returns a verdict for every
    window of every pair of tables: no classifier refers to a feature
    that the table lacks. *)
Theorem parsed_cascade_evaluates (Math_sqrt : Q -> Q) (baseW baseH : Q)
        (stages : list StageDesc) (fuel : nat) :
  (length stages < fuel)%nat ->
  exists cascade features,
    parseTrackingJsCascade fuel (encode_cascade baseW baseH stages)
    = Ret (raw_of_cascade cascade, raw_of_feature <$> features)
    /\ forall (ii ii2 : list num) (imageWidth wx wy : Z) (scale : Q)
              (winW winH : Z),
         exists isFace,
           Haar.evaluateCascade Math_sqrt cascade features ii ii2 imageWidth
                                wx wy scale winW winH = Ret isFace.
Proof.
  intros Hfuel.
  exists (described_cascade baseW baseH stages), (described_features stages).
  split.
  - unfold parseTrackingJsCascade.
    rewrite (parse_loop_encoded _ stages fuel 2 0 [] []);
      [reflexivity | exact Hfuel | | reflexivity].
    unfold encode_cascade. rewrite length_app. simpl. lia.
  - intros. apply evaluateCascade_returns, described_cascade_valid.
Qed.

Lemma parsed_cascade_evaluates_witness :
  exists cascade features,
    parseTrackingJsCascade 2
      (encode_cascade 2 2
         [(0%Q, [mkClassifierDesc (Haar.mkFeature 0 [Haar.mkRect 0 0 2 2 1])
                                (1 # 2) 1 (-1)])])
    = Ret (raw_of_cascade cascade, raw_of_feature <$> features)
    /\ forall (ii ii2 : list num) (imageWidth wx wy : Z) (scale : Q)
              (winW winH : Z),
         exists isFace,
           Haar.evaluateCascade sqrt_6dp cascade features ii ii2 imageWidth
                                wx wy scale winW winH = Ret isFace.
Proof.
  apply (parsed_cascade_evaluates sqrt_6dp 2 2
           [(0%Q, [mkClassifierDesc (Haar.mkFeature 0 [Haar.mkRect 0 0 2 2 1])
                                  (1 # 2) 1 (-1)])] 2).
  simpl. lia.
Defined.

(** * Further properties: features over the pixels (js/haar.js) *)

Lemma rect_terms_weighted (pix : list Q) (ii : list num)
      (width height wx wy : Z) (scale : Q) (rects : list Haar.Rect) (v : Q) :
  0 <= width ->
  Z.of_nat (length ii) = width * height ->
  (forall x y, 0 <= x < width -> 0 <= y < height ->
     is_value (Image.aget ii (y * width + x))
              (pixel_sum pix width 0 0 (x + 1) (y + 1))) ->
  Forall (placed_inside width height wx wy scale) rects ->
  is_value (foldl (Haar.rect_term ii width wx wy scale) (fin v) rects)
           (v + weighted_sum pix width wx wy scale rects).
Proof.
  intros Hw Hlen Hii Hin. revert v.
  induction Hin as [|r rects Hr _ IH]; intros v.
  - unfold weighted_sum. simpl. lra.
  - cbn [foldl]. unfold Haar.rect_term at 2.
    pose proof (rectSum_pixels pix ii width height _ _ _ _ Hw Hlen Hii Hr)
      as Hs.
    unfold placed_x, placed_y, placed_w, placed_h in Hs.
    destruct (Image.rectSum ii width _ _ _ _) as [s|]; [|done].
    simpl in Hs. cbn [nadd nmul lift2 fin].
    eapply is_value_equiv; [apply (IH (v + Haar.rect_weight r * s)%Q)|].
    unfold weighted_sum. rewrite fmap_cons. cbn [total foldr].
    fold (total ((fun r => Haar.rect_weight r
                   * pixel_sum pix width (placed_x wx scale r)
                               (placed_y wy scale r) (placed_w scale r)
                               (placed_h scale r))%Q <$> rects)).
    unfold placed_x at 2, placed_y at 2, placed_w at 2, placed_h at 2.
    rewrite Hs. lra.
Qed.


